(** * Response-to-file-changes pipeline (code-parser)

    A shallow embedding of [parseFileChanges], [isValidFilePath],
    [extractExplanation], [scanForSecurityIssues] and
    [determineFileActions], together with the part of the ECMAScript
    string and regular-expression semantics these functions rely on, and
    of their callers: the prompts ([buildSystemPrompt],
    [buildFileContext]), the two providers ([generate],
    [generateStream]) and the loop of the chat route that saves the
    extracted files. *)

From Stdlib Require Import List NArith Arith Bool Lia String Ascii.
Import ListNotations.

(** ** Strings

    A JavaScript string is a sequence of UTF-16 code units.  Regular
    expressions without the [u] flag, [length], [trim], [includes] and
    friends all work on code units, so a string is a list of numbers. *)

Definition cu := N.
Definition jsstring := list cu.

(** Literals of the source are written as Rocq strings. *)
Definition str (s : string) : jsstring :=
  map N_of_ascii (list_ascii_of_string s).

Definition LF : cu := 10%N.
Definition BACKTICK : cu := 96%N.
Definition SQUOTE : cu := 39%N.
Definition DQUOTE : cu := 34%N.
Definition DASH : cu := 45%N.
Definition DOT : cu := 46%N.
Definition SLASH : cu := 47%N.
Definition COLON : cu := 58%N.
Definition EQUALS : cu := 61%N.
Definition UNDERSCORE : cu := 95%N.

Module Chars.
Local Open Scope N_scope.

Definition between (lo hi c : cu) : bool := (lo <=? c) && (c <=? hi).

Definition is_digit (c : cu) : bool := between 48 57 c.
Definition is_upper (c : cu) : bool := between 65 90 c.
Definition is_lower (c : cu) : bool := between 97 122 c.
Definition is_alpha (c : cu) : bool := is_upper c || is_lower c.
Definition is_alnum (c : cu) : bool := is_alpha c || is_digit c.

(** [\w] without the [u] and [i] flags: [[A-Za-z0-9_]]. *)
Definition is_word (c : cu) : bool := is_alnum c || (c =? UNDERSCORE).

(** [\s], which is also the set [String.prototype.trim] strips:
    WhiteSpace (TAB, VT, FF, SP, NBSP, ZWNBSP and category Zs) and
    LineTerminator (LF, CR, LS, PS). *)
Definition is_space (c : cu) : bool :=
  between 9 13 c || (c =? 32) || (c =? 160) || (c =? 5760)
  || between 8192 8202 c || (c =? 8232) || (c =? 8233) || (c =? 8239)
  || (c =? 8287) || (c =? 12288) || (c =? 65279).

(** Canonicalize of the [i] flag (non-unicode mode) upper-cases a code
    unit, but leaves a code unit of 128 or more alone when the result
    would be ASCII.  Against the ASCII characters of the patterns in this
    file only ASCII case folding is therefore observable. *)
Definition upcase (c : cu) : cu := if is_lower c then c - 32 else c.

Definition chr (a : cu) : cu -> bool := fun c => c =? a.
Definition chr_ci (a : cu) : cu -> bool := fun c => upcase c =? upcase a.
Definition any : cu -> bool := fun _ => true.
Definition one_of (l : list cu) : cu -> bool :=
  fun c => existsb (N.eqb c) l.
Definition none_of (l : list cu) : cu -> bool :=
  fun c => negb (existsb (N.eqb c) l).
End Chars.
Import Chars.

Module Str.

Fixpoint eqb (a b : jsstring) : bool :=
  match a, b with
  | [], [] => true
  | x :: a', y :: b' => N.eqb x y && eqb a' b'
  | _, _ => false
  end.

(** [s.startsWith(p)] *)
Fixpoint startsWith (p s : jsstring) : bool :=
  match p, s with
  | [], _ => true
  | x :: p', y :: s' => N.eqb x y && startsWith p' s'
  | _ :: _, [] => false
  end.

(** [s.includes(p)] *)
Fixpoint includes (p s : jsstring) : bool :=
  startsWith p s ||
  match s with
  | [] => false
  | _ :: s' => includes p s'
  end.

(** [s.substring(n)] *)
Definition substring_from (n : nat) (s : jsstring) : jsstring := skipn n s.

Fixpoint trimStart (s : jsstring) : jsstring :=
  match s with
  | [] => []
  | c :: s' => if is_space c then trimStart s' else s
  end.

Definition trimEnd (s : jsstring) : jsstring := rev (trimStart (rev s)).

(** [s.trim()] *)
Definition trim (s : jsstring) : jsstring := trimEnd (trimStart s).

(** [s.split('\n')]: always at least one piece. *)
Fixpoint split_lines (s : jsstring) : list jsstring :=
  match s with
  | [] => [[]]
  | c :: s' =>
      if N.eqb c LF then [] :: split_lines s'
      else match split_lines s' with
           | [] => [[c]]
           | l :: ls => (c :: l) :: ls
           end
  end.

(** [lines.join('\n')] *)
Fixpoint join_lines (ls : list jsstring) : jsstring :=
  match ls with
  | [] => []
  | [l] => l
  | l :: ls' => l ++ LF :: join_lines ls'
  end.

(** Truthiness of a string: non-empty. *)
Definition truthy (s : jsstring) : bool :=
  match s with [] => false | _ => true end.

End Str.

(** ** Regular expressions

    The backtracking matcher of ECMA-262 (22.2.2): a pattern compiles to a
    matcher taking a state and a continuation.  Only the constructs the
    source uses are present. *)

Inductive regex : Type :=
| Empty
| Char (p : cu -> bool)
| Seq (r1 r2 : regex)
| Alt (r1 r2 : regex)
| Rep (greedy : bool) (min : nat) (max : option nat) (r : regex)
| Group (i : nat) (r : regex)
| Bol
| Eol.

Declare Scope regex_scope.
Delimit Scope regex_scope with re.
Bind Scope regex_scope with regex.
Notation "a ~> b" := (Seq a b) (at level 60, right associativity) : regex_scope.

Definition captures := list (nat * jsstring).

Record mstate : Type := MState {
  pos : nat;            (* endIndex *)
  rest : jsstring;      (* the input from endIndex on *)
  caps : captures
}.

Definition get_cap (i : nat) (c : captures) : option jsstring :=
  match find (fun e => Nat.eqb (fst e) i) c with
  | Some e => Some (snd e)
  | None => None
  end.

Definition set_cap (i : nat) (v : jsstring) (c : captures) : captures :=
  (i, v) :: c.

Definition clear_caps (gs : list nat) (c : captures) : captures :=
  filter (fun e => negb (existsb (Nat.eqb (fst e)) gs)) c.

Fixpoint groups_of (r : regex) : list nat :=
  match r with
  | Empty | Char _ | Bol | Eol => []
  | Seq a b | Alt a b => groups_of a ++ groups_of b
  | Rep _ _ _ a => groups_of a
  | Group i a => i :: groups_of a
  end.

Definition advance (x : mstate) : mstate :=
  MState (S (pos x)) (tl (rest x)) (caps x).

Definition cleared (gs : list nat) (x : mstate) : mstate :=
  MState (pos x) (rest x) (clear_caps gs (caps x)).

(** The state after a capturing group that was entered at [x] and left
    at [y]: the group holds the code units between the two positions. *)
Definition close_group (i : nat) (x y : mstate) : mstate :=
  MState (pos y) (rest y)
         (set_cap i (firstn (pos y - pos x) (rest x)) (caps y)).

Definition cont := mstate -> option mstate.
Definition matcher := mstate -> cont -> option mstate.

Definition orelse (a : option mstate) (b : unit -> option mstate)
  : option mstate :=
  match a with
  | Some z => Some z
  | None => b tt
  end.

Section RepeatMatcher.
Variable m : matcher.
Variable parens : list nat.

(** The first [min] iterations are mandatory. *)
Fixpoint repeat_min (n : nat) (x : mstate) (k : cont) : option mstate :=
  match n with
  | 0 => k x
  | S n' => m (cleared parens x) (fun y => repeat_min n' y k)
  end.

(** Once [min] is 0 an iteration that does not move endIndex is
    rejected, so [n] bounds the iterations still allowed. *)
Fixpoint repeat_opt (greedy : bool) (n : nat) (x : mstate) (k : cont)
  : option mstate :=
  match n with
  | 0 => k x
  | S n' =>
      let d : cont := fun y =>
        if Nat.eqb (pos y) (pos x) then None
        else repeat_opt greedy n' y k in
      if greedy
      then orelse (m (cleared parens x) d) (fun _ => k x)
      else orelse (k x) (fun _ => m (cleared parens x) d)
  end.

(** With no upper bound, the rule above lets at most one iteration per
    remaining code unit succeed; any larger allowance gives the same
    result (lemma [unbounded_repetition]). *)
Definition repeat (greedy : bool) (mn : nat) (mx : option nat)
           (x : mstate) (k : cont) : option mstate :=
  repeat_min mn x (fun y =>
    repeat_opt greedy
               (match mx with
                | Some b => b - mn
                | None => List.length (rest y)
                end) y k).
End RepeatMatcher.

Fixpoint mtch (r : regex) (x : mstate) (k : cont) {struct r}
  : option mstate :=
  match r with
  | Empty => k x
  | Char p =>
      match rest x with
      | c :: _ => if p c then k (advance x) else None
      | [] => None
      end
  | Seq r1 r2 => mtch r1 x (fun y => mtch r2 y k)
  | Alt r1 r2 => orelse (mtch r1 x k) (fun _ => mtch r2 x k)
  | Rep g mn mx r1 => repeat (mtch r1) (groups_of r1) g mn mx x k
  | Group i r1 => mtch r1 x (fun y => k (close_group i x y))
  | Bol => if Nat.eqb (pos x) 0 then k x else None
  | Eol => match rest x with [] => k x | _ :: _ => None end
  end.

(** One attempt at a given index, all captures undefined. *)
Definition match_at (r : regex) (i : nat) (s : jsstring) : option mstate :=
  mtch r (MState i s []) (fun y => Some y).

(** RegExpBuiltinExec: the first index from [i] on at which the pattern
    matches; [s] is the input from index [i].  Returns the index of the
    match and its end state. *)
Fixpoint search (r : regex) (i : nat) (s : jsstring)
  : option (nat * mstate) :=
  match match_at r i s with
  | Some y => Some (i, y)
  | None =>
      match s with
      | [] => None
      | _ :: s' => search r (S i) s'
      end
  end.

(** [re.test(s)] for a regular expression whose lastIndex is 0. *)
Definition test (r : regex) (s : jsstring) : bool :=
  match search r 0 s with Some _ => true | None => false end.

(** Pattern literals. *)
Fixpoint lit (s : jsstring) : regex :=
  match s with
  | [] => Empty
  | [c] => Char (chr c)
  | c :: s' => Seq (Char (chr c)) (lit s')
  end.

Fixpoint lit_ci (s : jsstring) : regex :=
  match s with
  | [] => Empty
  | [c] => Char (chr_ci c)
  | c :: s' => Seq (Char (chr_ci c)) (lit_ci s')
  end.

Fixpoint alts (rs : list regex) : regex :=
  match rs with
  | [] => Empty
  | [r] => r
  | r :: rs' => Alt r (alts rs')
  end.

Definition star (r : regex) : regex := Rep true 0 None r.
Definition plus (r : regex) : regex := Rep true 1 None r.
Definition opt (r : regex) : regex := Rep true 0 (Some 1) r.
Definition lazy_star (r : regex) : regex := Rep false 0 None r.
Definition at_least (n : nat) (r : regex) : regex := Rep true n None r.
Definition exactly (n : nat) (r : regex) : regex := Rep true n (Some n) r.

(** ** Outcomes

    A call returns a value, throws (the only possible exception below is
    the TypeError of calling a method on [undefined]), or is cut off by
    the fuel of a loop that JavaScript would keep running. *)

Inductive result (A : Type) : Type :=
| Ok (a : A)
| Throw
| OutOfFuel.
Arguments Ok {A} a.
Arguments Throw {A}.
Arguments OutOfFuel {A}.

Definition bind {A B : Type} (r : result A) (f : A -> result B) : result B :=
  match r with
  | Ok a => f a
  | Throw => Throw
  | OutOfFuel => OutOfFuel
  end.

Notation "x <- c ;; k" := (bind c (fun x => k))
  (at level 61, c at next level, right associativity).

(** [v.trim()] where [v] may be [undefined]. *)
Definition trim_of (v : option jsstring) : result jsstring :=
  match v with
  | Some s => Ok (Str.trim s)
  | None => Throw
  end.

(** [match[i]] *)
Definition group (i : nat) (m : mstate) : option jsstring :=
  get_cap i (caps m).

(** [s.replace(re, '')] for a pattern without the [g] flag. *)
Definition replace_first (r : regex) (s : jsstring) : jsstring :=
  match search r 0 s with
  | None => s
  | Some (i, y) => firstn i s ++ rest y
  end.

(** [s.replace(re, '')] for a pattern with the [g] flag: every match
    from lastIndex on is dropped; after an empty match lastIndex is
    advanced by one code unit.  [s] is the input from index [i]. *)
Fixpoint replace_all (fuel : nat) (r : regex) (i : nat) (s : jsstring)
  : result jsstring :=
  match fuel with
  | 0 => OutOfFuel
  | S fuel' =>
      match search r i s with
      | None => Ok s
      | Some (j, y) =>
          let before := firstn (j - i) s in
          if Nat.eqb (pos y) j then
            match rest y with
            | [] => Ok before
            | c :: s' =>
                t <- replace_all fuel' r (S j) s' ;; Ok (before ++ c :: t)
            end
          else
            t <- replace_all fuel' r (pos y) (rest y) ;; Ok (before ++ t)
      end
  end.

(** ** The data model (types.ts) *)

Inductive Action : Type := create | update | delete.

Record FileChange : Type := mkFileChange {
  path : jsstring;
  action : Action;
  content : option jsstring
}.

(** ** isValidFilePath *)

(** [/\.[a-z0-9]+$/i] *)
Definition hasExtensionRegex : regex :=
  (Char (chr DOT) ~> plus (Char is_alnum) ~> Eol)%re.

Definition configNames : list jsstring :=
  [str ".gitignore"; str ".env"; str ".env.local";
   str "Dockerfile"; str "Makefile"; str "README"].

(** [/^(\.gitignore|\.env|\.env\.local|Dockerfile|Makefile|README)$/i] *)
Definition isConfigFileRegex : regex :=
  (Bol ~> Group 1 (alts (map lit_ci configNames)) ~> Eol)%re.

(** [/^[A-Z]:/i] *)
Definition driveLetterRegex : regex :=
  (Bol ~> Char is_alpha ~> Char (chr COLON))%re.

Definition is_path_char (c : cu) : bool :=
  is_word c || N.eqb c DASH || N.eqb c DOT || N.eqb c SLASH.

(** [/^[\w\-./]+$/] *)
Definition allowedCharsRegex : regex :=
  (Bol ~> plus (Char is_path_char) ~> Eol)%re.

Definition isValidFilePath (path : jsstring) : bool :=
  let hasExtension := test hasExtensionRegex path in
  let isConfigFile := test isConfigFileRegex path in
  if negb hasExtension && negb isConfigFile then false
  else if Str.includes (str "..") path then false
  else if Str.startsWith (str "/") path || test driveLetterRegex path
       then false
  else if 200 <? List.length path then false
  else if negb (test allowedCharsRegex path) then false
  else true.

(** ** parseFileChanges *)

(** [/```(?:filepath:)?([^\n`]+)\n([\s\S]*?)```/g] *)
Definition codeBlockRegex : regex :=
  (lit (str "```") ~> opt (lit (str "filepath:"))
   ~> Group 1 (plus (Char (none_of [LF; BACKTICK])))
   ~> Char (chr LF)
   ~> Group 2 (lazy_star (Char any))
   ~> lit (str "```"))%re.

Definition languageNames : list jsstring :=
  [str "typescript"; str "javascript"; str "tsx"; str "jsx"; str "ts";
   str "js"; str "json"; str "html"; str "css"; str "python"; str "go";
   str "rust"].

(** [/^(typescript|javascript|tsx|jsx|ts|js|json|html|css|python|go|rust)$/i] *)
Definition languageRegex : regex :=
  (Bol ~> Group 1 (alts (map lit_ci languageNames)) ~> Eol)%re.

(** [/```(\w+)\n(\/\/\s* )?([^\n]+\.[a-z]+)\n([\s\S]*?)```/g] (the
    source has no blank before the second closing parenthesis) *)
Definition simpleBlockRegex : regex :=
  (lit (str "```") ~> Group 1 (plus (Char is_word))
   ~> Char (chr LF)
   ~> opt (Group 2 (lit (str "//") ~> star (Char is_space)))
   ~> Group 3 (plus (Char (none_of [LF])) ~> Char (chr DOT)
               ~> plus (Char is_lower))
   ~> Char (chr LF)
   ~> Group 4 (lazy_star (Char any))
   ~> lit (str "```"))%re.

(** [while ((match = re.exec(response)) !== null) { body }] for a pattern
    with the [g] flag; [s] is the response from lastIndex [i] on.  The
    body returns the array [files] as it leaves it. *)
Fixpoint exec_loop (fuel : nat) (re : regex)
         (body : mstate -> list FileChange -> result (list FileChange))
         (i : nat) (s : jsstring) (files : list FileChange)
  : result (list FileChange) :=
  match fuel with
  | 0 => OutOfFuel
  | S fuel' =>
      match search re i s with
      | None => Ok files
      | Some (_, m) =>
          files' <- body m files ;;
          exec_loop fuel' re body (pos m) (rest m) files'
      end
  end.

(** Body of the first loop. *)
Definition explicitBlock (m : mstate) (files : list FileChange)
  : result (list FileChange) :=
  pathPart <- trim_of (group 1 m) ;;
  let content := group 2 m in
  if negb (Str.truthy pathPart)
     || (Str.includes (str " ") pathPart
         && negb (Str.startsWith (str "filepath:") pathPart))
  then Ok files
  else
    let filePath := pathPart in
    let filePath :=
      if Str.startsWith (str "filepath:") filePath
      then Str.trim (Str.substring_from 9 filePath)
      else filePath in
    let filePath := Str.trim (replace_first languageRegex filePath) in
    if negb (Str.truthy filePath)
       || (negb (Str.includes (str ".") filePath)
           && negb (Str.includes (str "/") filePath))
    then Ok files
    else if isValidFilePath filePath then
      c <- trim_of content ;;
      Ok (files ++ [mkFileChange filePath create (Some c)])
    else Ok files.

(** Body of the second loop. *)
Definition simpleBlock (m : mstate) (files : list FileChange)
  : result (list FileChange) :=
  possiblePath <- trim_of (group 3 m) ;;
  let content := group 4 m in
  if existsb (fun f => Str.eqb (path f) possiblePath) files then Ok files
  else if isValidFilePath possiblePath then
    c <- trim_of content ;;
    Ok (files ++ [mkFileChange possiblePath create (Some c)])
  else Ok files.

Definition parseFileChanges_fuel (fuel : nat) (response : jsstring)
  : result (list FileChange) :=
  files <- exec_loop fuel codeBlockRegex explicitBlock 0 response [] ;;
  exec_loop fuel simpleBlockRegex simpleBlock 0 response files.

(** Every match consumes at least its opening fence, so no loop runs more
    often than the response has code units, plus the failing last call. *)
Definition parseFileChanges (response : jsstring)
  : result (list FileChange) :=
  parseFileChanges_fuel (S (List.length response)) response.

(** ** extractExplanation *)

(** [/```[\s\S]*?```/g] *)
Definition anyBlockRegex : regex :=
  (lit (str "```") ~> lazy_star (Char any) ~> lit (str "```"))%re.

Definition fallbackExplanation : jsstring :=
  str "Changes applied successfully.".

Definition cleanUp (text : jsstring) : jsstring :=
  Str.trim
    (Str.join_lines
       (filter (fun line => Str.truthy (Str.trim line))
               (Str.split_lines text))).

Definition extractExplanation (response : jsstring) : result jsstring :=
  text <- replace_all (S (List.length response)) anyBlockRegex 0 response ;;
  let text := cleanUp text in
  Ok (if Str.truthy text then text else fallbackExplanation).

(** ** scanForSecurityIssues *)

Definition quote : cu -> bool := one_of [SQUOTE; DQUOTE].
Definition not_quote : cu -> bool := none_of [SQUOTE; DQUOTE].
Definition colon_or_equals : cu -> bool := one_of [COLON; EQUALS].
Definition dash_or_underscore : cu -> bool := one_of [DASH; UNDERSCORE].

Definition patterns : list (regex * jsstring) :=
  [ (* /api[_-]?key\s*[:=]\s*Q[^Q]{10,}Q/gi, Q the class of the single
       and the double quote *)
    ((lit_ci (str "api") ~> opt (Char (one_of [UNDERSCORE; DASH]))
      ~> lit_ci (str "key") ~> star (Char is_space)
      ~> Char colon_or_equals ~> star (Char is_space) ~> Char quote
      ~> at_least 10 (Char not_quote) ~> Char quote)%re,
     str "API key");
    (* /secret\s*[:=]\s*Q[^Q]{10,}Q/gi *)
    ((lit_ci (str "secret") ~> star (Char is_space)
      ~> Char colon_or_equals ~> star (Char is_space) ~> Char quote
      ~> at_least 10 (Char not_quote) ~> Char quote)%re,
     str "Secret");
    (* /password\s*[:=]\s*Q[^Q]+Q/gi *)
    ((lit_ci (str "password") ~> star (Char is_space)
      ~> Char colon_or_equals ~> star (Char is_space) ~> Char quote
      ~> plus (Char not_quote) ~> Char quote)%re,
     str "Password");
    (* /sk[-_](live|test)[-_][a-zA-Z0-9]+/g *)
    ((lit (str "sk") ~> Char dash_or_underscore
      ~> Group 1 (Alt (lit (str "live")) (lit (str "test")))
      ~> Char dash_or_underscore ~> plus (Char is_alnum))%re,
     str "Stripe key");
    (* /AKIA[0-9A-Z]{16}/g *)
    ((lit (str "AKIA")
      ~> exactly 16 (Char (fun c => is_digit c || is_upper c)))%re,
     str "AWS access key");
    (* /ghp_[a-zA-Z0-9]{36}/g *)
    ((lit (str "ghp_") ~> exactly 36 (Char is_alnum))%re,
     str "GitHub token");
    (* /Bearer\s+[a-zA-Z0-9\-._~+/]+={0,2}/g *)
    ((lit (str "Bearer") ~> plus (Char is_space)
      ~> plus (Char (fun c => is_alnum c || one_of (str "-._~+/") c))
      ~> Rep true 0 (Some 2) (Char (chr EQUALS)))%re,
     str "Bearer token") ].

(** [`Potential ${name} detected in generated code`] *)
Definition finding (name : jsstring) : jsstring :=
  str "Potential " ++ name ++ str " detected in generated code".

(** The [for ... of] loop over [patterns]; every pattern object is fresh
    in each call, so its lastIndex is 0 when [test] runs. *)
Fixpoint scan_loop (ps : list (regex * jsstring)) (code : jsstring)
         (issues : list jsstring) : list jsstring :=
  match ps with
  | [] => issues
  | (pattern, name) :: ps' =>
      scan_loop ps' code
                (if test pattern code then issues ++ [finding name]
                 else issues)
  end.

Definition scanForSecurityIssues (code : jsstring) : list jsstring :=
  scan_loop patterns code [].

(** ** determineFileActions *)

(** [existingPaths.includes(p)] *)
Definition array_includes (p : jsstring) (l : list jsstring) : bool :=
  existsb (Str.eqb p) l.

Definition determineFileActions (changes : list FileChange)
           (existingPaths : list jsstring) : list FileChange :=
  map (fun change =>
         mkFileChange (path change)
                      (if array_includes (path change) existingPaths
                       then update else create)
                      (content change))
      changes.

(** ** prompts.ts *)

(** An element of [existingFiles]. *)
Record ExistingFile : Type := mkExistingFile {
  file_path : jsstring;
  file_content : jsstring
}.

Inductive Role : Type := user | assistant | system.

Record Message : Type := mkMessage {
  msg_role : Role;
  msg_content : jsstring
}.

Record GenerationContext : Type := mkGenerationContext {
  ctx_projectId : jsstring;
  ctx_projectName : jsstring;
  ctx_framework : option jsstring;      (* string, null or missing *)
  ctx_existingFiles : list ExistingFile;
  ctx_conversationHistory : list Message;
  ctx_prompt : jsstring
}.

(** [parts.join(sep)] *)
Fixpoint join_with (sep : jsstring) (parts : list jsstring) : jsstring :=
  match parts with
  | [] => []
  | [p] => p
  | p :: ps => p ++ sep ++ join_with sep ps
  end.

(** The system prompt from the line after the file list on. *)
Definition systemPromptRules : list jsstring :=
  [[];
   str "YOUR ROLE:";
   str "- You are a senior software engineer helping users build real, working applications";
   str "- You write production-quality code with proper error handling and best practices";
   str "- You understand the full context of the project and make changes that integrate well";
   [];
   str "BEHAVIOR RULES:";
   str "1. Before making changes, understand the existing codebase structure";
   str "2. Make scoped, targeted changes - only modify what's necessary";
   str "3. Explain your assumptions and decisions clearly";
   str "4. Ask clarifying questions when requirements are ambiguous";
   str "5. NEVER embed API keys, secrets, passwords, or credentials in code";
   str "6. Use environment variables for all configuration";
   str "7. Follow the established patterns in the existing codebase";
   str "8. Provide complete, working code - no placeholders or TODOs in critical paths";
   [];
   str "OUTPUT FORMAT:";
   str "When creating or modifying files, use this exact format:";
   [];
   str "```filepath:path/to/file.ext";
   str "// Complete file content here";
   str "```";
   [];
   str "For multiple files, include each in its own code block with the filepath: prefix.";
   [];
   str "After the code blocks, provide a brief explanation of:";
   str "1. What changes you made";
   str "2. Any assumptions you made";
   str "3. How to run or test the changes";
   [];
   str "IMPORTANT:";
   str "- Always include the COMPLETE file content, not just the changes";
   str "- Use the exact filepath format shown above";
   str "- Ensure code is syntactically correct and follows best practices";
   str "- Add appropriate imports and dependencies";
   str "- Consider error handling and edge cases"].

Definition buildSystemPrompt (context : GenerationContext) : jsstring :=
  let fileList :=
    if 0 <? List.length (ctx_existingFiles context)
    then join_with [LF]
           (map (fun f => str "- " ++ file_path f)
                (ctx_existingFiles context))
    else str "No files yet - this is a new project." in
  let frameworkInfo :=
    match ctx_framework context with
    | Some framework =>
        if Str.truthy framework
        then LF :: str "FRAMEWORK: " ++ framework
        else []
    | None => []
    end in
  str "You are an expert software developer building applications. You are working on a project called "
  ++ DQUOTE :: ctx_projectName context ++ DQUOTE :: str "." ++ frameworkInfo
  ++ LF :: LF :: str "CURRENT PROJECT FILES:"
  ++ LF :: fileList
  ++ LF :: join_with [LF] systemPromptRules.

Set Warnings "-abstract-large-number".
Definition maxLength : nat := 10000.

(** The callback of [files.map] in [buildFileContext]. *)
Definition fileSection (f : ExistingFile) : jsstring :=
  let content :=
    if maxLength <? List.length (file_content f)
    then firstn maxLength (file_content f) ++ LF :: str "... (truncated)"
    else file_content f in
  str "=== " ++ file_path f ++ str " ===" ++ LF :: content ++ [LF].

Definition buildFileContext (files : list ExistingFile) : jsstring :=
  if Nat.eqb (List.length files) 0 then []
  else join_with [LF] (map fileSection files).

(** ** The providers (openai.ts, claude.ts)

    What [generate] and [generateStream] do before and after the call of
    the vendor's client; the text the client returns, or what it
    delivers as a stream and what the callbacks do, are arguments. *)

(** [currentPrompt], the content of the last message. *)
Definition currentPrompt (context : GenerationContext) : jsstring :=
  let fileContext := buildFileContext (ctx_existingFiles context) in
  if Str.truthy fileContext && (0 <? List.length (ctx_existingFiles context))
  then str "Here are the current project files for reference:"
       ++ LF :: LF :: fileContext
       ++ LF :: LF :: str "User request: " ++ ctx_prompt context
  else ctx_prompt context.

(** The messages of the OpenAI provider. *)
Definition openaiMessages (context : GenerationContext) : list Message :=
  [mkMessage system (buildSystemPrompt context)]
  ++ map (fun msg => mkMessage (msg_role msg) (msg_content msg))
         (ctx_conversationHistory context)
  ++ [mkMessage user (currentPrompt context)].

(** The messages of the Claude provider, which passes the system prompt
    apart. *)
Definition claudeMessages (context : GenerationContext) : list Message :=
  map (fun msg => mkMessage (msg_role msg) (msg_content msg))
      (filter (fun msg =>
                 match msg_role msg with
                 | user | assistant => true
                 | system => false
                 end)
              (ctx_conversationHistory context))
  ++ [mkMessage user (currentPrompt context)].

Record TokensUsed : Type := mkTokensUsed {
  tokens_prompt : nat;
  tokens_completion : nat;
  tokens_total : nat
}.

Record GenerationResult : Type := mkGenerationResult {
  r_success : bool;
  r_response : jsstring;
  r_files : list FileChange;
  r_explanation : jsstring;
  r_tokensUsed : TokensUsed;
  r_model : jsstring;
  r_error : option jsstring
}.

(** [files.map(f => f.content || '').join('\n')] *)
Definition allCode (files : list FileChange) : jsstring :=
  join_with [LF]
    (map (fun f => match content f with
                   | Some c => if Str.truthy c then c else []
                   | None => []
                   end)
         files).

(** The body of [try] in [generate] from the response text on. *)
Definition generated (model responseText : jsstring) (tokens : TokensUsed)
  : result GenerationResult :=
  files <- parseFileChanges responseText ;;
  let allCode := allCode files in
  let securityIssues := scanForSecurityIssues allCode in
  explanation <- extractExplanation responseText ;;
  Ok (mkGenerationResult
        true responseText files
        (if 0 <? List.length securityIssues
         then explanation ++ LF :: LF :: str "Warning: "
              ++ join_with (str ", ") securityIssues
         else explanation)
        tokens model None).

(** The result of the [catch] branch. *)
Definition failure (model message : jsstring) : GenerationResult :=
  mkGenerationResult false [] [] [] (mkTokensUsed 0 0 0) model (Some message).

(** [generate] from the response text on; [message] is the message of
    the error the engine would throw. *)
Definition generate (model message responseText : jsstring)
           (tokens : TokensUsed) : result GenerationResult :=
  match generated model responseText tokens with
  | Ok r => Ok r
  | Throw => Ok (failure model message)
  | OutOfFuel => OutOfFuel
  end.

(** The calls of the callbacks of [generateStream], in order; [onError]
    with the message of the error it is given. *)
Inductive StreamEvent : Type :=
| onToken (token : jsstring)
| onComplete (r : GenerationResult)
| onError (message : jsstring).

(** A value that is thrown: an [Error] with its message, or something
    that is no [Error]. *)
Inductive Thrown : Type :=
| ErrorWith (message : jsstring)
| NotAnError.

(** [StreamCallbacks]: each callback may be missing.  [throws calls]
    says whether the call [calls] ends with throws, and what. *)
Record StreamCallbacks : Type := mkStreamCallbacks {
  has_onToken : bool;
  has_onComplete : bool;
  has_onError : bool;
  throws : list StreamEvent -> option Thrown
}.

(** What the vendor's client does: [getClient] or [create] fails, or the
    stream yields its chunks and then ends or fails. *)
Inductive Delivery : Type :=
| ClientFails (e : Thrown)
| Streams (chunks : list (option jsstring)) (failure : option Thrown).

(** The [for await] loop: a chunk without content, or with the empty
    string as content, is passed over.  The loop ends early when
    [onToken] throws. *)
Fixpoint consume (cb : StreamCallbacks) (chunks : list (option jsstring))
         (fullResponse : jsstring) (calls : list StreamEvent)
  : jsstring * list StreamEvent * option Thrown :=
  match chunks with
  | [] => (fullResponse, calls, None)
  | Some content :: chunks' =>
      if Str.truthy content
      then
        if has_onToken cb
        then
          match throws cb (calls ++ [onToken content]) with
          | Some e =>
              (fullResponse ++ content, calls ++ [onToken content], Some e)
          | None =>
              consume cb chunks' (fullResponse ++ content)
                      (calls ++ [onToken content])
          end
        else consume cb chunks' (fullResponse ++ content) calls
      else consume cb chunks' fullResponse calls
  | None :: chunks' => consume cb chunks' fullResponse calls
  end.

(** [Math.ceil(n / 4)] for a length [n]; the division by four is exact
    in floating point. *)
Definition ceilQuarter (n : nat) : nat := (n + 3) / 4.

(** The result [generateStream] of the OpenAI provider completes
    with. *)
Definition streamed (model : jsstring) (messages : list Message)
           (fullResponse : jsstring) : result GenerationResult :=
  files <- parseFileChanges fullResponse ;;
  explanation <- extractExplanation fullResponse ;;
  let estimatedPromptTokens :=
    ceilQuarter
      (fold_left (fun acc m => acc + List.length (msg_content m))
                 messages 0) in
  let estimatedCompletionTokens :=
    ceilQuarter (List.length fullResponse) in
  Ok (mkGenerationResult
        true fullResponse files explanation
        (mkTokensUsed estimatedPromptTokens estimatedCompletionTokens
                      (estimatedPromptTokens + estimatedCompletionTokens))
        model None).

(** The [try] block of [generateStream]: the calls made, and what was
    thrown, if anything.  [message] is the message of the error the
    engine would throw inside the parser. *)
Definition tryStream (model message : jsstring) (messages : list Message)
           (delivery : Delivery) (cb : StreamCallbacks)
  : result (list StreamEvent * option Thrown) :=
  match delivery with
  | ClientFails e => Ok ([], Some e)
  | Streams chunks failure =>
      match consume cb chunks [] [] with
      | (_, calls, Some e) => Ok (calls, Some e)
      | (fullResponse, calls, None) =>
          match failure with
          | Some e => Ok (calls, Some e)
          | None =>
              match streamed model messages fullResponse with
              | Ok r =>
                  if has_onComplete cb
                  then Ok (calls ++ [onComplete r],
                           throws cb (calls ++ [onComplete r]))
                  else Ok (calls, None)
              | Throw => Ok (calls, Some (ErrorWith message))
              | OutOfFuel => OutOfFuel
              end
          end
      end
  end.

(** [error instanceof Error ? error : new Error('Unknown error')] *)
Definition message_of (e : Thrown) : jsstring :=
  match e with
  | ErrorWith m => m
  | NotAnError => str "Unknown error"
  end.

(** [generateStream] of the OpenAI provider: the calls of the callbacks
    in order, and what the returned promise is rejected with, if it is:
    only a throwing [onError] is not caught. *)
Definition generateStream (model message : jsstring)
           (messages : list Message) (delivery : Delivery)
           (cb : StreamCallbacks)
  : result (list StreamEvent * option Thrown) :=
  match tryStream model message messages delivery cb with
  | Ok (calls, None) => Ok (calls, None)
  | Ok (calls, Some e) =>
      if has_onError cb
      then Ok (calls ++ [onError (message_of e)],
               throws cb (calls ++ [onError (message_of e)]))
      else Ok (calls, None)
  | Throw => Throw
  | OutOfFuel => OutOfFuel
  end.

(** ** Saving the files (route.ts, [onComplete])

    The rows of one project in the tables the loop touches, with the
    columns it reads or writes.  Within a project a path identifies a
    file (the unique key [projectId_path]), so a row of [projectFile] is
    kept under its path, and a row of [fileVersion] names its file by
    the path. *)

Record FileRow : Type := mkFileRow {
  row_content : jsstring;
  row_size : nat;
  row_version : nat
}.

Record VersionRow : Type := mkVersionRow {
  ver_file : jsstring;
  ver_content : jsstring;
  ver_version : nat
}.

Record Store : Type := mkStore {
  projectFile : list (jsstring * FileRow);
  fileVersion : list VersionRow
}.

(** [Buffer.byteLength(s, 'utf8')]: a surrogate pair takes four bytes, a
    lone surrogate the three bytes of the replacement character. *)
Definition is_high_surrogate (c : cu) : bool := between 55296%N 56319%N c.
Definition is_low_surrogate (c : cu) : bool := between 56320%N 57343%N c.

Fixpoint byteLength (s : jsstring) : nat :=
  match s with
  | [] => 0
  | c :: s' =>
      if N.ltb c 128 then 1 + byteLength s'
      else if N.ltb c 2048 then 2 + byteLength s'
      else if is_high_surrogate c then
        match s' with
        | d :: s'' =>
            if is_low_surrogate d then 4 + byteLength s''
            else 3 + byteLength s'
        | [] => 3
        end
      else 3 + byteLength s'
  end.

(** [findUnique({ where: { projectId_path } })] *)
Fixpoint findUnique (p : jsstring) (rows : list (jsstring * FileRow))
  : option FileRow :=
  match rows with
  | [] => None
  | (q, row) :: rows' =>
      if Str.eqb q p then Some row else findUnique p rows'
  end.

(** [update({ where: { id }, data })] *)
Fixpoint updateRow (p : jsstring) (row : FileRow)
         (rows : list (jsstring * FileRow)) : list (jsstring * FileRow) :=
  match rows with
  | [] => []
  | (q, old) :: rows' =>
      if Str.eqb q p then (q, row) :: rows'
      else (q, old) :: updateRow p row rows'
  end.

Section SaveFiles.
(** The version a new row gets is the default of the database schema,
    and [deleteMany] is the client's; both stay parameters. *)
Variable defaultVersion : nat.
Variable deleteMany : jsstring -> Store -> Store.

(** One round of [for (const file of filesWithActions)]. *)
Definition saveFile (st : Store) (file : FileChange) : Store :=
  match action file with
  | delete => deleteMany (path file) st
  | create | update =>
      match content file with
      | Some c =>
          if Str.truthy c then
            match findUnique (path file) (projectFile st) with
            | Some existingFile =>
                mkStore
                  (updateRow (path file)
                             (mkFileRow c (byteLength c)
                                        (row_version existingFile + 1))
                             (projectFile st))
                  (fileVersion st
                   ++ [mkVersionRow (path file)
                                    (row_content existingFile)
                                    (row_version existingFile)])
            | None =>
                mkStore
                  (projectFile st
                   ++ [(path file,
                        mkFileRow c (byteLength c) defaultVersion)])
                  (fileVersion st)
            end
          else st
      | None => st
      end
  end.

Definition saveFiles (st : Store) (filesWithActions : list FileChange)
  : Store :=
  fold_left saveFile filesWithActions st.

(** [onComplete] up to the end of the loop: [files] are the files of
    the project as read when the request came in. *)
Definition saveResult (files : list ExistingFile)
           (resultFiles : list FileChange) (st : Store) : Store :=
  let existingPaths := map file_path files in
  let filesWithActions := determineFileActions resultFiles existingPaths in
  saveFiles st filesWithActions.
End SaveFiles.

(** * Vocabulary of the properties *)

(** ** What a match is

    [den r x y]: the pattern [r], entered in state [x], can be left in
    state [y].  The matcher explores these ways of matching in the
    priority order of ECMAScript; [den] forgets the order. *)

Section Iterations.
Variable R : mstate -> mstate -> Prop.
Variable parens : list nat.

(** Exactly [n] iterations. *)
Inductive iter_min : nat -> mstate -> mstate -> Prop :=
| iter_min_O : forall x, iter_min 0 x x
| iter_min_S : forall n x y z,
    R (cleared parens x) y -> iter_min n y z -> iter_min (S n) x z.

(** At most [b] further iterations, each moving endIndex. *)
Inductive iter_opt : option nat -> mstate -> mstate -> Prop :=
| iter_opt_stop : forall b x, iter_opt b x x
| iter_opt_step : forall b x y z,
    b <> Some 0 ->
    R (cleared parens x) y ->
    pos y <> pos x ->
    iter_opt (option_map pred b) y z ->
    iter_opt b x z.
End Iterations.

Fixpoint den (r : regex) : mstate -> mstate -> Prop :=
  match r with
  | Empty => fun x y => y = x
  | Char p => fun x y =>
      exists c s, rest x = c :: s /\ p c = true /\ y = advance x
  | Seq a b => fun x z => exists y, den a x y /\ den b y z
  | Alt a b => fun x y => den a x y \/ den b x y
  | Rep _ mn mx a => fun x z =>
      exists y,
        iter_min (den a) (groups_of a) mn x y /\
        iter_opt (den a) (groups_of a)
                 (option_map (fun b => b - mn) mx) y z
  | Group i a => fun x z => exists y, den a x y /\ z = close_group i x y
  | Bol => fun x y => pos x = 0 /\ y = x
  | Eol => fun x y => rest x = [] /\ y = x
  end.

(** [y] is [x] moved forward over [w]. *)
Definition moved (w : jsstring) (x y : mstate) : Prop :=
  rest x = w ++ rest y /\ pos y = pos x + List.length w.

(** [y] is [x] moved forward over [w], captures untouched. *)
Definition scanned (w : jsstring) (x y : mstate) : Prop :=
  moved w x y /\ caps y = caps x.

(** Enough iterations are allowed for a repetition bounded by [b]. *)
Definition enough (b : option nat) (n : nat) (x : mstate) : Prop :=
  match b with
  | Some c => n = c
  | None => List.length (rest x) <= n
  end.

(** ** Strings *)

(** Equality up to ASCII case, the relation the [i] flag induces on the
    patterns of this file. *)
Definition same_ci (a b : jsstring) : Prop := map upcase a = map upcase b.

Definition is_prefix (p s : jsstring) : Prop := exists t, s = p ++ t.
Definition occurs (p s : jsstring) : Prop := exists a b, s = a ++ p ++ b.

(** White space only. *)
Definition blank (s : jsstring) : Prop := forallb is_space s = true.

Definition jsstring_eq_dec : forall a b : jsstring, {a = b} + {a <> b} :=
  list_eq_dec N.eq_dec.

(** [a] is [b] with some elements left out. *)
Inductive subsequence {A : Type} : list A -> list A -> Prop :=
| subsequence_nil : subsequence [] []
| subsequence_skip : forall x a b, subsequence a b -> subsequence a (x :: b)
| subsequence_keep : forall x a b,
    subsequence a b -> subsequence (x :: a) (x :: b).

(** ** The rules of the path validator *)

(** A dot followed by one or more alphanumeric characters ends [s]. *)
Definition ends_in_extension (s : jsstring) : Prop :=
  exists pre ext,
    s = pre ++ DOT :: ext /\ ext <> [] /\ forallb is_alnum ext = true.

Definition is_config_name (s : jsstring) : Prop :=
  exists name, In name configNames /\ same_ci s name.

(** A letter followed by a colon starts [s]. *)
Definition has_drive_prefix (s : jsstring) : Prop :=
  exists c t, s = c :: COLON :: t /\ is_alpha c = true.

Definition only_path_chars (s : jsstring) : Prop :=
  forallb is_path_char s = true.

Definition valid_path (p : jsstring) : Prop :=
  (ends_in_extension p \/ is_config_name p) /\
  ~ occurs (str "..") p /\
  ~ is_prefix (str "/") p /\
  ~ has_drive_prefix p /\
  List.length p <= 200 /\
  only_path_chars p.

(** ** The loops of [parseFileChanges] *)

(** [grown G files files']: [files'] is [files] after some pushes, each
    allowed by [G], where [G fs f] says that [f] may be pushed onto
    [fs]. *)
Inductive grown (G : list FileChange -> FileChange -> Prop)
          (files : list FileChange) : list FileChange -> Prop :=
| grown_refl : grown G files files
| grown_push : forall files' f,
    grown G files files' -> G files' f -> grown G files (files' ++ [f]).

(** What both loops guarantee about an element they push. *)
Definition pushed (f : FileChange) : Prop :=
  isValidFilePath (path f) = true /\
  (In DOT (path f) \/ In SLASH (path f)) /\
  action f = create /\
  content f <> None.

Definition fresh_path (files : list FileChange) (f : FileChange) : Prop :=
  ~ In (path f) (map path files).

(** The first loop of [parseFileChanges] on its own. *)
Definition firstLoop (response : jsstring) : result (list FileChange) :=
  exec_loop (S (List.length response)) codeBlockRegex explicitBlock
            0 response [].

(** ** Fenced blocks *)

Definition fence : jsstring := str "```".

Definition fencedBlock (body : jsstring) : jsstring := fence ++ body ++ fence.

(** The body of a block: the first fence after the opening one is the
    closing one. *)
Definition closes_first (body : jsstring) : Prop :=
  ~ occurs fence (body ++ str "``").

(** The same, position by position. *)
Fixpoint no_early_fence (body tail : jsstring) : Prop :=
  match body with
  | [] => True
  | _ :: b =>
      Str.startsWith fence (body ++ fence ++ tail) = false /\
      no_early_fence b tail
  end.

(** An input made of fenced blocks and white space only. *)
Inductive onlyBlocks : jsstring -> Prop :=
| onlyBlocks_nil : onlyBlocks []
| onlyBlocks_space : forall c s,
    is_space c = true -> onlyBlocks s -> onlyBlocks (c :: s)
| onlyBlocks_block : forall body s,
    closes_first body -> onlyBlocks s -> onlyBlocks (fencedBlock body ++ s).

(** The text after the first fence of [s], if there is a fence. *)
Fixpoint after_first_fence (s : jsstring) : option jsstring :=
  if Str.startsWith fence s then Some (skipn 3 s)
  else match s with
       | [] => None
       | _ :: s' => after_first_fence s'
       end.

(** Is the first fence of [s] followed by another one? *)
Definition has_closed_fence (s : jsstring) : bool :=
  match after_first_fence s with
  | Some t => Str.includes fence t
  | None => false
  end.

(** ** The categories of the scanner *)

Definition categoryNames : list jsstring :=
  [str "API key"; str "Secret"; str "Password"; str "Stripe key";
   str "AWS access key"; str "GitHub token"; str "Bearer token"].

(** ** Sample responses *)

(** The sample response of the specification: one explicit block for
    [src/App.tsx] followed by a line of prose. *)
Definition sampleResponse : jsstring :=
  str "```filepath:src/App.tsx" ++ LF ::
  str "export default function App() {}" ++ LF ::
  str "```" ++ LF ::
  str "Created the app component.".

(** Two explicit blocks with the same header. *)
Definition twoBlocksOneHeader : jsstring :=
  str "```a.ts" ++ LF :: str "x```" ++ LF :: str "```a.ts" ++ LF :: str "y```".

(** An explicit block for [a.ts], then two blocks with a language tag
    whose first lines name [b.ts] and, again, [a.ts]. *)
Definition bothPasses : jsstring :=
  str "```a.ts" ++ LF :: str "x```" ++ LF ::
  str "```ts" ++ LF :: str "// b.ts" ++ LF :: str "y```" ++ LF ::
  str "```js" ++ LF :: str "a.ts" ++ LF :: str "z```".

(** The changes of the classifier example of the specification. *)
Definition sampleChanges : list FileChange :=
  [mkFileChange (str "src/App.tsx") create (Some (str "a"));
   mkFileChange (str "src/New.tsx") create (Some (str "b"))].

(** Prose followed by a fence that never closes. *)
Definition unclosedResponse : jsstring :=
  str "Done." ++ LF :: str "```js" ++ LF :: str "let x = 1;".

(** Two blocks on two lines and nothing else; the first body holds
    single backticks. *)
Definition twoFencedBlocks : jsstring :=
  fencedBlock (str "ts" ++ LF :: str "const s = `x`;" ++ [LF])
  ++ LF :: fencedBlock (str "js" ++ LF :: str "let y;" ++ [LF]).

(** ** Further vocabulary *)

(** Neither the first nor the last code unit of [s] is white space. *)
Definition clean_edges (s : jsstring) : Prop :=
  match s with
  | [] => True
  | c :: _ => is_space c = false /\ is_space (last s c) = false
  end.

(** What the loops push, in full: a validated path, the action create
    and a trimmed body. *)
Definition pushed_trimmed (f : FileChange) : Prop :=
  exists body,
    f = mkFileChange (path f) create (Some (Str.trim body)) /\
    isValidFilePath (path f) = true.

(** ** Patterns without anchors as languages

    [lang r w]: the pattern [r] can match exactly the word [w].  Without
    [^] and [$] a match does not depend on what surrounds it, and the
    captures do not matter for [test]. *)

Fixpoint anchor_free (r : regex) : bool :=
  match r with
  | Bol | Eol => false
  | Empty | Char _ => true
  | Seq a b | Alt a b => anchor_free a && anchor_free b
  | Rep _ _ _ a | Group _ a => anchor_free a
  end.

Fixpoint lang (r : regex) (w : jsstring) : Prop :=
  match r with
  | Empty => w = []
  | Char p => exists c, w = [c] /\ p c = true
  | Seq a b => exists u v, w = u ++ v /\ lang a u /\ lang b v
  | Alt a b => lang a w \/ lang b w
  | Rep _ mn mx a =>
      exists ws,
        w = List.concat ws /\ Forall (lang a) ws /\ mn <= List.length ws /\
        match mx with
        | Some b => List.length ws <= mn + (b - mn)
        | None => True
        end
  | Group _ a => lang a w
  | Bol | Eol => False
  end.

(** Some part of [s] is a word of [r]. *)
Definition has_word (r : regex) (s : jsstring) : Prop :=
  exists pre w post, s = pre ++ w ++ post /\ lang r w.

(** The state reached from [x] over [w], whatever it captured. *)
Definition reaches (w s' : jsstring) (x y : mstate) : Prop :=
  rest y = s' /\ pos y = pos x + List.length w.

(** The patterns of the scanner by name. *)
Definition stripeKeyRegex : regex :=
  (lit (str "sk") ~> Char dash_or_underscore
   ~> Group 1 (Alt (lit (str "live")) (lit (str "test")))
   ~> Char dash_or_underscore ~> plus (Char is_alnum))%re.

Definition awsKeyRegex : regex :=
  (lit (str "AKIA")
   ~> exactly 16 (Char (fun c => is_digit c || is_upper c)))%re.

Definition githubTokenRegex : regex :=
  (lit (str "ghp_") ~> exactly 36 (Char is_alnum))%re.

Definition passwordRegex : regex :=
  (lit_ci (str "password") ~> star (Char is_space)
   ~> Char colon_or_equals ~> star (Char is_space) ~> Char quote
   ~> plus (Char not_quote) ~> Char quote)%re.

(** ** Providers *)

(** The contents of the chunks that carry text. *)
Fixpoint deltas (chunks : list (option jsstring)) : list jsstring :=
  match chunks with
  | [] => []
  | Some content :: chunks' =>
      if Str.truthy content then content :: deltas chunks'
      else deltas chunks'
  | None :: chunks' => deltas chunks'
  end.



(** No call of a callback throws. *)
Definition quiet (cb : StreamCallbacks) : Prop :=
  forall calls, throws cb calls = None.

(** The result a stream completes with, given what the parser and
    [extractExplanation] return for the text. *)
Definition streamedResult (model : jsstring) (messages : list Message)
           (text : jsstring) (files : list FileChange)
           (explanation : jsstring) : GenerationResult :=
  mkGenerationResult
    true text files explanation
    (mkTokensUsed
       (ceilQuarter
          (fold_left (fun acc m => acc + List.length (msg_content m))
                     messages 0))
       (ceilQuarter (List.length text))
       (ceilQuarter
          (fold_left (fun acc m => acc + List.length (msg_content m))
                     messages 0)
        + ceilQuarter (List.length text)))
    model None.

(** All three callbacks, none of which ever throws. *)
Definition listening : StreamCallbacks :=
  mkStreamCallbacks true true true (fun _ => None).


(** [s] ends with [p]. *)
Definition is_suffix (p s : jsstring) : Prop := exists t, s = t ++ p.

(** Two extracted files, the first with an AWS access key in it. *)
Definition sampleSecrets : list FileChange :=
  [mkFileChange (str "a.ts") create (Some (str "AKIA0123456789ABCDEF"));
   mkFileChange (str "b.ts") create (Some (str "let x;"))].

(** ** Messages and rows *)

(** A message the Claude provider may send in [messages]. *)
Definition not_system (m : Message) : bool :=
  match msg_role m with
  | system => false
  | user | assistant => true
  end.

(** The contents the loop of [onComplete] writes under the path [p], in
    the order of the changes. *)
Definition writes (p : jsstring) (files : list FileChange) : list jsstring :=
  flat_map (fun f =>
              match content f with
              | Some c =>
                  if Str.truthy c && Str.eqb (path f) p then [c] else []
              | None => []
              end)
           files.

(** Every content the path [p] has had: the backups in [fileVersion],
    then the row in [projectFile]. *)
Definition history (p : jsstring) (st : Store) : list jsstring :=
  map ver_content
      (filter (fun v => Str.eqb (ver_file v) p) (fileVersion st))
  ++ match findUnique p (projectFile st) with
     | Some row => [row_content row]
     | None => []
     end.

(** The row of a path that was [old] and then written [ws]: the last
    content, its size, and one version more for each write onto a row. *)
Definition rowAfter (defaultVersion : nat) (old : option FileRow)
           (ws : list jsstring) : option FileRow :=
  match rev ws with
  | [] => old
  | c :: ws' =>
      Some (mkFileRow c (byteLength c)
                      match old with
                      | Some row => row_version row + List.length ws
                      | None => defaultVersion + List.length ws'
                      end)
  end.

(** The paths of [projectFile]. *)
Definition keys (st : Store) : list jsstring := map fst (projectFile st).

(** A store with one file, and a response that rewrites it and adds
    another. *)
Definition sampleStore : Store :=
  mkStore [(str "a.ts", mkFileRow (str "old") 3 1)] [].

Definition sampleRewrite : list FileChange :=
  [mkFileChange (str "a.ts") create (Some (str "new"));
   mkFileChange (str "b.ts") create (Some (str "let x;"))].

(** [a] is the beginning of [b]. *)
Definition is_prefix_of {A : Type} (a b : list A) : Prop :=
  exists l, b = a ++ l.

(** ** The documented format *)

(** A block as the comment above [parseFileChanges] describes it: the
    path, with or without the tag [filepath:] before it, the body, and
    the text between the closing fence and the next block. *)
Record Block : Type := mkBlock {
  blk_tagged : bool;
  blk_path : jsstring;
  blk_body : jsstring;
  blk_after : jsstring
}.

Definition headerOf (b : Block) : jsstring :=
  (if blk_tagged b then str "filepath:" else []) ++ blk_path b.

Fixpoint render (blocks : list Block) : jsstring :=
  match blocks with
  | [] => []
  | b :: bs =>
      fence ++ headerOf b ++ LF :: blk_body b ++ fence
      ++ blk_after b ++ render bs
  end.

(** No backtick. *)
Definition plain (s : jsstring) : bool :=
  forallb (fun c => negb (N.eqb c BACKTICK)) s.

(** The path is one [parseFileChanges] accepts, the first fence after
    the opening one is the closing one, and the text after the block has
    no backtick and does not start with a word character. *)
Definition well_formed (b : Block) : bool :=
  isValidFilePath (blk_path b)
  && (Str.includes (str ".") (blk_path b)
      || Str.includes (str "/") (blk_path b))
  && negb (Str.includes fence (blk_body b ++ str "``"))
  && plain (blk_after b)
  && match blk_after b with
     | [] => true
     | c :: _ => negb (is_word c)
     end.

Definition fileOf (b : Block) : FileChange :=
  mkFileChange (blk_path b) create (Some (Str.trim (blk_body b))).

(** No match of [r] starts inside [a] when [b] follows. *)
Definition skipped (r : regex) (a b : jsstring) : Prop :=
  forall a1 a2 j,
    a = a1 ++ a2 -> a2 <> [] -> match_at r j (a2 ++ b) = None.

(** A response in the documented format. *)
Definition sampleIntro : jsstring := str "Here is the component:" ++ [LF].

Definition sampleBlocks : list Block :=
  [mkBlock true (str "src/App.tsx")
           (str "export default function App() { return null; }" ++ [LF])
           (LF :: str "It renders nothing yet." ++ [LF]);
   mkBlock false (str "README.md") (str "# App" ++ [LF]) []].

(** A project with one file and one without any. *)
Definition sampleContext : GenerationContext :=
  mkGenerationContext (str "p1") (str "Shop") (Some (str "Next.js"))
                      [mkExistingFile (str "src/cart.ts") (str "let x;")]
                      [mkMessage user (str "Hello")]
                      (str "Add a cart").

Definition newContext : GenerationContext :=
  mkGenerationContext (str "p2") (str "Blog") None [] [] (str "Start").

(** ** The simpler format *)

(** A block of the simpler format the second loop looks for: a language
    specifier, and the path on the first line of the block, alone or
    after two slashes and white space.  The path is a stem, a dot and an
    extension. *)
Record SimpleBlock : Type := mkSimpleBlock {
  sb_lang : jsstring;
  sb_comment : option jsstring;
  sb_stem : jsstring;
  sb_ext : jsstring;
  sb_body : jsstring;
  sb_after : jsstring
}.

Definition sb_path (b : SimpleBlock) : jsstring :=
  sb_stem b ++ DOT :: sb_ext b.

Definition sb_line (b : SimpleBlock) : jsstring :=
  match sb_comment b with
  | Some ws => str "//" ++ ws
  | None => []
  end ++ sb_path b.

Fixpoint renderSimple (blocks : list SimpleBlock) : jsstring :=
  match blocks with
  | [] => []
  | b :: bs =>
      fence ++ sb_lang b ++ LF :: sb_line b ++ LF :: sb_body b ++ fence
      ++ sb_after b ++ renderSimple bs
  end.

(** The specifier is a word, the extension is made of small letters, the
    path is one [isValidFilePath] accepts, the first fence after the
    opening one is the closing one, and the text after the block has no
    backtick. *)
Definition well_formed_simple (b : SimpleBlock) : bool :=
  Str.truthy (sb_lang b) && forallb is_word (sb_lang b)
  && match sb_comment b with
     | Some ws => forallb is_space ws
     | None => true
     end
  && Str.truthy (sb_stem b)
  && Str.truthy (sb_ext b) && forallb is_lower (sb_ext b)
  && isValidFilePath (sb_path b)
  && negb (Str.includes fence (sb_body b ++ str "``"))
  && plain (sb_after b).

Definition simpleFileOf (b : SimpleBlock) : FileChange :=
  mkFileChange (sb_path b) create (Some (Str.trim (sb_body b))).

(** [new] added to [files], but for the elements whose path is there
    already. *)
Fixpoint keepFirst (files new : list FileChange) : list FileChange :=
  match new with
  | [] => files
  | f :: new' =>
      keepFirst (if existsb (fun g => Str.eqb (path g) (path f)) files
                 then files else files ++ [f])
                new'
  end.

(** A response in the simpler format; the third block repeats the path
    of the first. *)
Definition sampleSimpleBlocks : list SimpleBlock :=
  [mkSimpleBlock (str "ts") (Some (str " ")) (str "src/cart") (str "ts")
                 (str "export const cart = [];" ++ [LF]) [LF];
   mkSimpleBlock (str "css") None (str "app") (str "css")
                 (str "body { margin: 0 }" ++ [LF]) [LF];
   mkSimpleBlock (str "ts") (Some (str " ")) (str "src/cart") (str "ts")
                 (str "export const cart = null;" ++ [LF]) []].

(** ** The explanation *)

(** A line with a character that is not white space. *)
Definition has_text (line : jsstring) : Prop :=
  exists c, In c line /\ is_space c = false.

(** The lines of [text] that are not blank. *)
Definition kept_lines (text : jsstring) : list jsstring :=
  filter (fun line => negb (forallb is_space line)) (Str.split_lines text).

(** The clean-up in the words of the specification: blank lines dropped,
    the remaining lines trimmed and joined with newline. *)
Definition statedCleanUp (text : jsstring) : jsstring :=
  Str.join_lines (map Str.trim (kept_lines text)).

(** [without_blocks s t]: [t] is [s] without its fenced blocks.  A block
    starts at the first fence there is and ends with the next fence;
    what follows is treated in the same way.  A fence that no other
    fence follows stays. *)
Inductive without_blocks : jsstring -> jsstring -> Prop :=
| without_blocks_none : forall s,
    has_closed_fence s = false -> without_blocks s s
| without_blocks_block : forall pre body rst t,
    closes_first pre -> closes_first body ->
    without_blocks rst t ->
    without_blocks (pre ++ fencedBlock body ++ rst) (pre ++ t).

(** Three lines with white space at their edges. *)
Definition threeLines : jsstring :=
  str " one" ++ LF :: str " two " ++ LF :: str " three".

(** * Properties *)

(** ** Matching moves forward *)

Lemma moved_refl x : moved [] x x.
Proof. split; simpl; auto. Qed.

Lemma moved_trans w1 w2 x y z :
  moved w1 x y -> moved w2 y z -> moved (w1 ++ w2) x z.
Proof.
  intros [H1 H2] [H3 H4]. split.
  - rewrite H1, H3, app_assoc. reflexivity.
  - rewrite H4, H2, length_app. lia.
Qed.

Lemma moved_cleared gs w x y : moved w (cleared gs x) y -> moved w x y.
Proof. exact (fun H => H). Qed.

Lemma moved_length w x y :
  moved w x y -> List.length (rest x) = List.length w + List.length (rest y).
Proof. intros [H _]. rewrite H, length_app. reflexivity. Qed.

Lemma moved_progress w x y :
  moved w x y -> pos y <> pos x ->
  List.length (rest y) < List.length (rest x).
Proof.
  intros H Hp. pose proof (moved_length _ _ _ H) as Hl. destruct H as [_ H].
  destruct w; simpl in *; lia.
Qed.

Section IterationsMove.
Variable R : mstate -> mstate -> Prop.
Variable parens : list nat.
Hypothesis R_moves : forall x y, R x y -> exists w, moved w x y.

Lemma iter_min_moves n x y :
  iter_min R parens n x y -> exists w, moved w x y.
Proof.
  induction 1 as [x | n x y z HR _ [w2 IH]].
  - exists []. apply moved_refl.
  - destruct (R_moves _ _ HR) as [w1 H1].
    exists (w1 ++ w2). eapply moved_trans; eauto.
Qed.

Lemma iter_opt_moves b x y :
  iter_opt R parens b x y -> exists w, moved w x y.
Proof.
  induction 1 as [b x | b x y z _ HR _ _ [w2 IH]].
  - exists []. apply moved_refl.
  - destruct (R_moves _ _ HR) as [w1 H1].
    exists (w1 ++ w2). eapply moved_trans; eauto.
Qed.
End IterationsMove.

Lemma den_moves r : forall x y, den r x y -> exists w, moved w x y.
Proof.
  induction r as [ | p | a IHa b IHb | a IHa b IHb | g mn mx a IHa
                 | i a IHa | | ]; simpl; intros x y H.
  - subst. exists []. apply moved_refl.
  - destruct H as (c & s & Hr & _ & ->). exists [c].
    split; simpl; [rewrite Hr; reflexivity | lia].
  - destruct H as (y0 & H1 & H2).
    destruct (IHa _ _ H1) as [w1 M1]. destruct (IHb _ _ H2) as [w2 M2].
    exists (w1 ++ w2). eapply moved_trans; eauto.
  - destruct H as [H | H]; eauto.
  - destruct H as (y0 & H1 & H2).
    destruct (iter_min_moves _ _ IHa _ _ _ H1) as [w1 M1].
    destruct (iter_opt_moves _ _ IHa _ _ _ H2) as [w2 M2].
    exists (w1 ++ w2). eapply moved_trans; eauto.
  - destruct H as (y0 & H1 & ->).
    destruct (IHa _ _ H1) as [w M]. exists w. exact M.
  - destruct H as [_ ->]. exists []. apply moved_refl.
  - destruct H as [_ ->]. exists []. apply moved_refl.
Qed.

(** ** The matcher finds exactly the matches *)

Lemma orelse_Some a b z :
  orelse a b = Some z -> a = Some z \/ (a = None /\ b tt = Some z).
Proof. destruct a; simpl; intros H; [left | right]; auto. Qed.

Lemma orelse_defined a b :
  (exists z, a = Some z) \/ (exists z, b tt = Some z) ->
  exists z, orelse a b = Some z.
Proof.
  destruct a as [z | ]; simpl.
  - intros _. eauto.
  - intros [[z H] | H]; [discriminate | exact H].
Qed.

Section RepeatMatcherCorrect.
Variable m : matcher.
Variable R : mstate -> mstate -> Prop.
Variable parens : list nat.
Hypothesis m_sound : forall x k z,
    m x k = Some z -> exists y, R x y /\ k y = Some z.
Hypothesis m_complete : forall x y k,
    R x y -> (exists z, k y = Some z) -> exists z, m x k = Some z.
Hypothesis R_moves : forall x y, R x y -> exists w, moved w x y.

Lemma repeat_min_sound n : forall x k z,
    repeat_min m parens n x k = Some z ->
    exists y, iter_min R parens n x y /\ k y = Some z.
Proof.
  induction n as [ | n IH]; simpl; intros x k z H.
  - exists x. split; [constructor | assumption].
  - apply m_sound in H. destruct H as (y & HR & H).
    apply IH in H. destruct H as (y' & Hi & Hk).
    exists y'. split; [econstructor; eauto | assumption].
Qed.

Lemma repeat_min_complete n x y k :
  iter_min R parens n x y -> (exists z, k y = Some z) ->
  exists z, repeat_min m parens n x k = Some z.
Proof.
  induction 1 as [x | n x y z HR _ IH]; simpl; intros Hk.
  - exact Hk.
  - eapply m_complete; eauto.
Qed.

Lemma repeat_opt_sound g n : forall x k z,
    repeat_opt m parens g n x k = Some z ->
    exists y, iter_opt R parens (Some n) x y /\ k y = Some z.
Proof.
  induction n as [ | n IH]; simpl; intros x k z H.
  - exists x. split; [constructor | assumption].
  - assert (Hstop : k x = Some z ->
                    exists y, iter_opt R parens (Some (S n)) x y
                              /\ k y = Some z).
    { intros Hk. exists x. split; [constructor | assumption]. }
    assert (Hstep : m (cleared parens x)
                      (fun y => if Nat.eqb (pos y) (pos x) then None
                                else repeat_opt m parens g n y k)
                    = Some z ->
                    exists y, iter_opt R parens (Some (S n)) x y
                              /\ k y = Some z).
    { intros Hm. apply m_sound in Hm. destruct Hm as (y & HR & Hd).
      destruct (Nat.eqb_spec (pos y) (pos x)) as [ | Hne];
        [discriminate | ].
      apply IH in Hd. destruct Hd as (y' & Hi & Hk).
      exists y'. split; [ | assumption].
      eapply iter_opt_step; eauto. discriminate. }
    destruct g; apply orelse_Some in H;
      destruct H as [H | [_ H]]; auto.
Qed.

(** A bound on the remaining iterations may always be relaxed. *)
Lemma iter_opt_weaken b x y :
  iter_opt R parens b x y -> iter_opt R parens None x y.
Proof.
  induction 1 as [b x | b x y z _ HR Hp _ IH].
  - constructor.
  - eapply iter_opt_step; eauto. discriminate.
Qed.

Lemma repeat_opt_complete g b x y :
  iter_opt R parens b x y ->
  forall n k, enough b n x -> (exists z, k y = Some z) ->
  exists z, repeat_opt m parens g n x k = Some z.
Proof.
  induction 1 as [b x | b x y z Hb HR Hp _ IH]; intros n k Hn Hk.
  - destruct n as [ | n]; simpl; [exact Hk | ].
    destruct g; apply orelse_defined; auto.
  - destruct (R_moves _ _ HR) as [w Hw]. apply moved_cleared in Hw.
    pose proof (moved_progress _ _ _ Hw Hp) as Hlt.
    assert (Hn' : exists n', n = S n' /\ enough (option_map pred b) n' y).
    { destruct b as [c | ]; simpl in *.
      - destruct c as [ | c]; [congruence | ]. exists c. auto.
      - destruct n as [ | n']; [lia | ]. exists n'. split; [auto | lia]. }
    destruct Hn' as (n' & -> & Hn').
    assert (Hm : exists z0,
               m (cleared parens x)
                 (fun y0 => if Nat.eqb (pos y0) (pos x) then None
                            else repeat_opt m parens g n' y0 k)
               = Some z0).
    { eapply m_complete; eauto.
      destruct (Nat.eqb_spec (pos y) (pos x)); [contradiction | ].
      apply IH; assumption. }
    simpl. destruct g; apply orelse_defined; auto.
Qed.
End RepeatMatcherCorrect.

Lemma mtch_sound r : forall x k z,
    mtch r x k = Some z -> exists y, den r x y /\ k y = Some z.
Proof.
  induction r as [ | p | a IHa b IHb | a IHa b IHb | g mn mx a IHa
                 | i a IHa | | ]; simpl; intros x k z H.
  - eauto.
  - destruct (rest x) as [ | c s] eqn:Hr; [discriminate | ].
    destruct (p c) eqn:Hp; [ | discriminate].
    exists (advance x). split; [ | assumption]. exists c, s. auto.
  - apply IHa in H. destruct H as (y & Ha & H).
    apply IHb in H. destruct H as (y' & Hb & H). eauto.
  - apply orelse_Some in H. destruct H as [H | [_ H]].
    + apply IHa in H. destruct H as (y & Ha & H). eauto.
    + apply IHb in H. destruct H as (y & Hb & H). eauto.
  - unfold repeat in H.
    apply repeat_min_sound with (R := den a) in H; [ | exact IHa].
    destruct H as (y & Hmin & H).
    apply repeat_opt_sound with (R := den a) in H; [ | exact IHa].
    destruct H as (y' & Hopt & H).
    exists y'. split; [ | assumption]. exists y. split; [assumption | ].
    destruct mx as [b | ]; simpl; [assumption | ].
    eapply iter_opt_weaken; eauto.
  - apply IHa in H. destruct H as (y & Ha & H). eauto.
  - destruct (Nat.eqb_spec (pos x) 0); [eauto | discriminate].
  - destruct (rest x) eqn:Hr; [eauto | discriminate].
Qed.

Lemma mtch_complete r : forall x y k,
    den r x y -> (exists z, k y = Some z) -> exists z, mtch r x k = Some z.
Proof.
  induction r as [ | p | a IHa b IHb | a IHa b IHb | g mn mx a IHa
                 | i a IHa | | ]; simpl; intros x y k H Hk.
  - subst. assumption.
  - destruct H as (c & s & Hr & Hp & ->). rewrite Hr, Hp. assumption.
  - destruct H as (y0 & Ha & Hb). eapply IHa; eauto.
  - apply orelse_defined. destruct H as [H | H]; eauto.
  - destruct H as (y0 & Hmin & Hopt). unfold repeat.
    eapply repeat_min_complete with (R := den a); eauto.
    eapply repeat_opt_complete with (R := den a); eauto using den_moves.
    destruct mx; simpl; auto.
  - destruct H as (y0 & Ha & ->). eapply IHa; eauto.
  - destruct H as [Hp ->]. rewrite Hp. assumption.
  - destruct H as [Hr ->]. rewrite Hr. assumption.
Qed.

(** *** The bound of an unbounded repetition

    The matcher gives [*], [+] and [{n,}] as many optional iterations as
    code units remain.  A larger allowance changes nothing, so the bound
    stands for no bound at all. *)

Section RepeatMatcherBound.
Variable m : matcher.
Variable R : mstate -> mstate -> Prop.
Variable parens : list nat.
Hypothesis m_sound : forall x k z,
    m x k = Some z -> exists y, R x y /\ k y = Some z.
Hypothesis m_ext : forall x k1 k2,
    (forall y, R x y -> k1 y = k2 y) -> m x k1 = m x k2.
Hypothesis R_moves : forall x y, R x y -> exists w, moved w x y.

Lemma m_fails x k : (forall y, R x y -> k y = None) -> m x k = None.
Proof.
  intros Hk. destruct (m x k) as [z | ] eqn:H; [ | reflexivity].
  apply m_sound in H. destruct H as (y & HR & Hy).
  rewrite (Hk y HR) in Hy. discriminate.
Qed.

Lemma repeat_min_ext n : forall x k1 k2,
    (forall y, iter_min R parens n x y -> k1 y = k2 y) ->
    repeat_min m parens n x k1 = repeat_min m parens n x k2.
Proof.
  induction n as [ | n IH]; simpl; intros x k1 k2 Hk.
  - apply Hk. constructor.
  - apply m_ext. intros y HR. apply IH. intros z Hz.
    apply Hk. econstructor; eauto.
Qed.

Lemma repeat_opt_ext g n : forall x k1 k2,
    (forall y, iter_opt R parens (Some n) x y -> k1 y = k2 y) ->
    repeat_opt m parens g n x k1 = repeat_opt m parens g n x k2.
Proof.
  induction n as [ | n IH]; simpl; intros x k1 k2 Hk.
  - apply Hk. constructor.
  - rewrite (Hk x) by constructor.
    rewrite (m_ext (cleared parens x)
               (fun y => if Nat.eqb (pos y) (pos x) then None
                         else repeat_opt m parens g n y k1)
               (fun y => if Nat.eqb (pos y) (pos x) then None
                         else repeat_opt m parens g n y k2));
      [reflexivity | ].
    intros y HR. destruct (Nat.eqb_spec (pos y) (pos x)); [reflexivity | ].
    apply IH. intros z Hz. apply Hk.
    eapply iter_opt_step; eauto. discriminate.
Qed.

Lemma repeat_opt_one_more g n : forall x k,
    List.length (rest x) <= n ->
    repeat_opt m parens g (S n) x k = repeat_opt m parens g n x k.
Proof.
  induction n as [ | n IH]; intros x k Hn.
  - assert (Hm : m (cleared parens x)
                   (fun y => if Nat.eqb (pos y) (pos x) then None
                             else repeat_opt m parens g 0 y k) = None).
    { apply m_fails. intros y HR.
      destruct (Nat.eqb_spec (pos y) (pos x)) as [ | Hne]; [reflexivity | ].
      destruct (R_moves _ _ HR) as [w Hw]. apply moved_cleared in Hw.
      pose proof (moved_progress _ _ _ Hw Hne). lia. }
    cbn [repeat_opt]. cbn [repeat_opt] in Hm. rewrite Hm.
    destruct g; simpl; [reflexivity | ]. destruct (k x); reflexivity.
  - change (repeat_opt m parens g (S (S n)) x k)
      with (let d : cont := fun y =>
                if Nat.eqb (pos y) (pos x) then None
                else repeat_opt m parens g (S n) y k in
            if g then orelse (m (cleared parens x) d) (fun _ => k x)
            else orelse (k x) (fun _ => m (cleared parens x) d)).
    change (repeat_opt m parens g (S n) x k)
      with (let d : cont := fun y =>
                if Nat.eqb (pos y) (pos x) then None
                else repeat_opt m parens g n y k in
            if g then orelse (m (cleared parens x) d) (fun _ => k x)
            else orelse (k x) (fun _ => m (cleared parens x) d)).
    cbv zeta.
    rewrite (m_ext (cleared parens x)
               (fun y => if Nat.eqb (pos y) (pos x) then None
                         else repeat_opt m parens g (S n) y k)
               (fun y => if Nat.eqb (pos y) (pos x) then None
                         else repeat_opt m parens g n y k));
      [reflexivity | ].
    intros y HR. destruct (Nat.eqb_spec (pos y) (pos x)) as [ | Hne];
      [reflexivity | ].
    apply IH. destruct (R_moves _ _ HR) as [w Hw]. apply moved_cleared in Hw.
    pose proof (moved_progress _ _ _ Hw Hne). lia.
Qed.

Lemma repeat_opt_any_bound g n x k :
  List.length (rest x) <= n ->
  repeat_opt m parens g n x k
  = repeat_opt m parens g (List.length (rest x)) x k.
Proof.
  induction 1 as [ | n Hle IH]; [reflexivity | ].
  rewrite repeat_opt_one_more by assumption. exact IH.
Qed.
End RepeatMatcherBound.

Lemma mtch_ext r : forall x k1 k2,
    (forall y, den r x y -> k1 y = k2 y) -> mtch r x k1 = mtch r x k2.
Proof.
  induction r as [ | p | a IHa b IHb | a IHa b IHb | g mn mx a IHa
                 | i a IHa | | ]; cbn [mtch den]; intros x k1 k2 Hk.
  - auto.
  - destruct (rest x) as [ | c s] eqn:Hr; [reflexivity | ].
    destruct (p c) eqn:Hp; [ | reflexivity]. apply Hk. eauto.
  - apply IHa. intros y Ha. apply IHb. eauto.
  - rewrite (IHa x k1 k2) by auto. rewrite (IHb x k1 k2) by auto.
    reflexivity.
  - unfold repeat. apply repeat_min_ext with (R := den a); [exact IHa | ].
    intros y Hmin.
    apply repeat_opt_ext with (R := den a); [exact IHa | ].
    intros z Hopt. apply Hk. exists y. split; [assumption | ].
    destruct mx as [b | ]; simpl; [assumption | ].
    eapply iter_opt_weaken; eauto.
  - apply IHa. intros y Ha. apply Hk. eauto.
  - destruct (Nat.eqb (pos x) 0) eqn:E; [ | reflexivity].
    apply Hk. apply Nat.eqb_eq in E. auto.
  - destruct (rest x) eqn:Hr; [ | reflexivity]. apply Hk. auto.
Qed.

(** Any allowance of at least the remaining input gives the result of
    the unbounded repetition. *)
Lemma unbounded_repetition r g n x k :
  List.length (rest x) <= n ->
  repeat_opt (mtch r) (groups_of r) g n x k
  = mtch (Rep g 0 None r) x k.
Proof.
  intros Hn. cbn [mtch]. unfold repeat. cbn [repeat_min].
  apply repeat_opt_any_bound with (R := den r);
    [exact (mtch_sound r) | exact (mtch_ext r) | exact (den_moves r)
    | assumption].
Qed.

Lemma match_at_sound r i s y :
  match_at r i s = Some y -> den r (MState i s []) y.
Proof.
  unfold match_at. intros H. apply mtch_sound in H.
  destruct H as (y' & Hd & [= ->]). assumption.
Qed.

Lemma match_at_complete r i s y :
  den r (MState i s []) y -> exists z, match_at r i s = Some z.
Proof. intros H. eapply mtch_complete; eauto. Qed.

Lemma match_at_None r i s :
  match_at r i s = None -> forall y, ~ den r (MState i s []) y.
Proof.
  intros H y Hd. destruct (match_at_complete _ _ _ _ Hd) as [z Hz]. congruence.
Qed.

(** [search] returns the leftmost index at which some match starts. *)
Lemma search_sound r : forall s i j y,
    search r i s = Some (j, y) ->
    exists pre suf,
      s = pre ++ suf /\ j = i + List.length pre /\
      den r (MState j suf []) y.
Proof.
  induction s as [ | c s IH]; simpl; intros i j y H.
  - destruct (match_at r i []) eqn:Hm; [ | discriminate].
    injection H as <- <-. exists [], []. simpl.
    rewrite Nat.add_0_r. auto using match_at_sound.
  - destruct (match_at r i (c :: s)) eqn:Hm.
    + injection H as <- <-. exists [], (c :: s). simpl.
      rewrite Nat.add_0_r. auto using match_at_sound.
    + apply IH in H. destruct H as (pre & suf & -> & -> & Hd).
      exists (c :: pre), suf. simpl. repeat split; [lia | ].
      assumption.
Qed.

Lemma search_None r : forall s i,
    search r i s = None ->
    forall pre suf y,
      s = pre ++ suf -> ~ den r (MState (i + List.length pre) suf []) y.
Proof.
  induction s as [ | c s IH]; simpl; intros i H pre suf y Hs.
  - destruct (match_at r i []) eqn:Hm; [discriminate | ].
    symmetry in Hs. apply app_eq_nil in Hs. destruct Hs as [-> ->].
    simpl. rewrite Nat.add_0_r. eauto using match_at_None.
  - destruct (match_at r i (c :: s)) eqn:Hm; [discriminate | ].
    destruct pre as [ | c' pre]; simpl in *.
    + subst suf. rewrite Nat.add_0_r. eauto using match_at_None.
    + injection Hs as <- ->.
      replace (i + S (List.length pre)) with (S i + List.length pre) by lia.
      eapply IH; eauto.
Qed.

Lemma search_complete r s i pre suf y :
  s = pre ++ suf -> den r (MState (i + List.length pre) suf []) y ->
  exists m, search r i s = Some m.
Proof.
  intros Hs Hd. destruct (search r i s) as [m | ] eqn:H; [eauto | ].
  exfalso. eapply search_None; eauto.
Qed.

(** A match found by [search] lies inside the input. *)
Lemma search_moves r s i j y :
  search r i s = Some (j, y) ->
  exists pre w,
    s = pre ++ w ++ rest y /\ j = i + List.length pre /\
    pos y = j + List.length w.
Proof.
  intros H. apply search_sound in H.
  destruct H as (pre & suf & -> & -> & Hd).
  apply den_moves in Hd. destruct Hd as (w & Hr & Hp). simpl in *.
  exists pre, w. subst suf. auto.
Qed.

Lemma test_true_iff r s :
  test r s = true <->
  exists pre suf y, s = pre ++ suf /\ den r (MState (List.length pre) suf []) y.
Proof.
  unfold test. split.
  - destruct (search r 0 s) as [[j y] | ] eqn:H; [ | discriminate].
    intros _. apply search_sound in H.
    destruct H as (pre & suf & -> & -> & Hd). eauto.
  - intros (pre & suf & y & Hs & Hd).
    destruct (search_complete r s 0 pre suf y Hs Hd) as [m ->]. reflexivity.
Qed.

(** ** Matches of the building blocks *)

Lemma mstate_eq x y :
  pos x = pos y -> rest x = rest y -> caps x = caps y -> x = y.
Proof. destruct x, y; simpl; intros; subst; reflexivity. Qed.

Lemma scanned_nil x y : scanned [] x y <-> y = x.
Proof.
  unfold scanned, moved. simpl. split.
  - intros [[Hr Hp] Hc]. apply mstate_eq; auto. lia.
  - intros ->. repeat split; lia.
Qed.

Lemma scanned_app w1 w2 x y :
  scanned (w1 ++ w2) x y <->
  exists x', scanned w1 x x' /\ scanned w2 x' y.
Proof.
  unfold scanned, moved. split.
  - intros [[Hr Hp] Hc].
    exists (MState (pos x + List.length w1) (w2 ++ rest y) (caps x)).
    simpl. rewrite length_app in Hp. rewrite <- app_assoc in Hr.
    repeat split; auto; lia.
  - intros (x' & [[Hr1 Hp1] Hc1] & [[Hr2 Hp2] Hc2]).
    rewrite length_app, <- app_assoc. repeat split; try congruence; lia.
Qed.

Lemma scanned_cons c w x y :
  scanned (c :: w) x y <->
  exists x', scanned [c] x x' /\ scanned w x' y.
Proof. apply (scanned_app [c] w). Qed.

Lemma scanned_one c x y :
  scanned [c] x y <-> (exists s, rest x = c :: s) /\ y = advance x.
Proof.
  unfold scanned, moved. simpl. split.
  - intros [[Hr Hp] Hc]. split; [eauto | ].
    apply mstate_eq; simpl; [lia | rewrite Hr; reflexivity | assumption].
  - intros [[s Hr] ->]. simpl. rewrite Hr. repeat split; simpl; lia.
Qed.

Lemma den_Char p x y :
  den (Char p) x y <-> exists c, p c = true /\ scanned [c] x y.
Proof.
  simpl. split.
  - intros (c & s & Hr & Hp & ->). exists c. split; [assumption | ].
    apply scanned_one. eauto.
  - intros (c & Hp & H). apply scanned_one in H. destruct H as [[s Hr] ->].
    eauto.
Qed.

Lemma den_chr c x y : den (Char (chr c)) x y <-> scanned [c] x y.
Proof.
  rewrite den_Char. unfold chr. split.
  - intros (c' & Hc & H). apply N.eqb_eq in Hc. subst. assumption.
  - intros H. exists c. split; [apply N.eqb_refl | assumption].
Qed.

Lemma den_lit s : forall x y, den (lit s) x y <-> scanned s x y.
Proof.
  induction s as [ | c s IH]; intros x y.
  - simpl. symmetry. apply scanned_nil.
  - destruct s as [ | c' s].
    + apply den_chr.
    + change (lit (c :: c' :: s)) with (Seq (Char (chr c)) (lit (c' :: s))).
      cbn [den]. rewrite scanned_cons. split.
      * intros (x' & H1 & H2). exists x'. split.
        -- apply den_chr. assumption.
        -- apply IH. assumption.
      * intros (x' & H1 & H2). exists x'. split.
        -- apply den_chr. assumption.
        -- apply IH. assumption.
Qed.

Lemma den_chr_ci c x y :
  den (Char (chr_ci c)) x y <->
  exists c', upcase c' = upcase c /\ scanned [c'] x y.
Proof.
  rewrite den_Char. unfold chr_ci. split.
  - intros (c' & Hc & H). apply N.eqb_eq in Hc. eauto.
  - intros (c' & Hc & H). exists c'. split; [ | assumption].
    apply N.eqb_eq. assumption.
Qed.

Lemma den_lit_ci s : forall x y,
    den (lit_ci s) x y <-> exists w, same_ci w s /\ scanned w x y.
Proof.
  unfold same_ci.
  induction s as [ | c s IH]; intros x y.
  - simpl. split.
    + intros ->. exists []. split; [reflexivity | apply scanned_nil; auto].
    + intros (w & Hw & H). destruct w; [ | discriminate].
      apply scanned_nil in H. assumption.
  - destruct s as [ | c' s].
    + change (lit_ci [c]) with (Char (chr_ci c)). rewrite den_chr_ci. split.
      * intros (c1 & Hc & H). exists [c1]. simpl. rewrite Hc. auto.
      * intros (w & Hw & H). destruct w as [ | c1 [ | ? ?]]; try discriminate.
        injection Hw as Hw. eauto.
    + change (lit_ci (c :: c' :: s))
        with (Seq (Char (chr_ci c)) (lit_ci (c' :: s))).
      cbn [den]. split.
      * intros (x' & H1 & H2). apply den_chr_ci in H1. apply IH in H2.
        destruct H1 as (c1 & Hc & H1). destruct H2 as (w & Hw & H2).
        exists (c1 :: w). split.
        -- simpl map at 1. rewrite Hc, Hw. reflexivity.
        -- apply scanned_cons. eauto.
      * intros (w & Hw & H). destruct w as [ | c1 w]; [discriminate | ].
        simpl map at 1 in Hw.
        change (map upcase (c :: c' :: s))
          with (upcase c :: map upcase (c' :: s)) in Hw.
        injection Hw as Hc Hw.
        apply scanned_cons in H. destruct H as (x' & H1 & H2).
        exists x'. split.
        -- apply den_chr_ci. eauto.
        -- apply IH. eauto.
Qed.

Lemma den_alts rs : forall x y,
    rs <> [] -> (den (alts rs) x y <-> exists r, In r rs /\ den r x y).
Proof.
  induction rs as [ | r rs IH]; intros x y Hne; [congruence | ].
  destruct rs as [ | r' rs].
  - simpl. split.
    + eauto.
    + intros (r0 & [<- | []] & H). assumption.
  - change (alts (r :: r' :: rs)) with (Alt r (alts (r' :: rs))).
    cbn [den]. rewrite IH by discriminate. split.
    + intros [H | (r0 & Hin & H)].
      * exists r. split; [left; reflexivity | assumption].
      * exists r0. split; [right; assumption | assumption].
    + intros (r0 & [<- | Hin] & H); [left | right]; eauto.
Qed.

Lemma clear_caps_nil c : clear_caps [] c = c.
Proof.
  unfold clear_caps. induction c as [ | e c IH]; simpl; [reflexivity | ].
  f_equal. exact IH.
Qed.

Lemma cleared_nil x : cleared [] x = x.
Proof. destruct x. unfold cleared. simpl. rewrite clear_caps_nil. auto. Qed.

Section CharClass.
Variable p : cu -> bool.

Lemma iter_min_class n x y :
  iter_min (den (Char p)) [] n x y <->
  exists w, List.length w = n /\ forallb p w = true /\ scanned w x y.
Proof.
  split.
  - induction 1 as [x | n x y z HR _ (w & Hl & Hp & Hs)].
    + exists []. split; [reflexivity | split; [reflexivity | ]].
      apply scanned_nil. reflexivity.
    + rewrite cleared_nil in HR. apply den_Char in HR.
      destruct HR as (c & Hc & H1). exists (c :: w). simpl.
      rewrite Hc, Hp, Hl. split; [reflexivity | split; [reflexivity | ]].
      apply scanned_cons. eauto.
  - intros (w & Hl & Hp & Hs). revert n x Hl Hp Hs.
    induction w as [ | c w IH]; simpl; intros n x <- Hp Hs.
    + apply scanned_nil in Hs. subst. constructor.
    + apply andb_prop in Hp. destruct Hp as [Hc Hp].
      apply scanned_cons in Hs. destruct Hs as (x' & H1 & H2).
      apply iter_min_S with (y := x').
      * rewrite cleared_nil. apply den_Char. eauto.
      * apply IH; auto.
Qed.

Lemma scanned_one_pos c x y : scanned [c] x y -> pos y <> pos x.
Proof. intros [[_ H] _]. simpl in H. lia. Qed.

Lemma iter_opt_class x y :
  iter_opt (den (Char p)) [] None x y <->
  exists w, forallb p w = true /\ scanned w x y.
Proof.
  split.
  - remember None as b eqn:Hb.
    induction 1 as [b x | b x y z _ HR _ _ IH].
    + exists []. split; [reflexivity | apply scanned_nil; reflexivity].
    + subst b. destruct (IH eq_refl) as (w & Hp & Hs).
      rewrite cleared_nil in HR. apply den_Char in HR.
      destruct HR as (c & Hc & H1). exists (c :: w). simpl.
      rewrite Hc, Hp. split; [reflexivity | ].
      apply scanned_cons. eauto.
  - intros (w & Hp & Hs). revert x Hp Hs.
    induction w as [ | c w IH]; simpl; intros x Hp Hs.
    + apply scanned_nil in Hs. subst. constructor.
    + apply andb_prop in Hp. destruct Hp as [Hc Hp].
      apply scanned_cons in Hs. destruct Hs as (x' & H1 & H2).
      apply iter_opt_step with (y := x').
      * discriminate.
      * rewrite cleared_nil. apply den_Char. eauto.
      * eapply scanned_one_pos; eauto.
      * apply IH; auto.
Qed.

(** [[class]{mn,}], greedy or not. *)
Lemma den_rep_class g mn x y :
  den (Rep g mn None (Char p)) x y <->
  exists w, mn <= List.length w /\ forallb p w = true /\ scanned w x y.
Proof.
  cbn [den groups_of option_map]. split.
  - intros (x' & H1 & H2).
    apply iter_min_class in H1. apply iter_opt_class in H2.
    destruct H1 as (w1 & Hl & Hp1 & Hs1). destruct H2 as (w2 & Hp2 & Hs2).
    exists (w1 ++ w2). rewrite length_app, forallb_app, Hp1, Hp2.
    split; [lia | split; [reflexivity | ]]. apply scanned_app. eauto.
  - intros (w & Hl & Hp & Hs).
    rewrite <- (firstn_skipn mn w) in Hs, Hp.
    rewrite forallb_app in Hp. apply andb_prop in Hp.
    destruct Hp as [Hp1 Hp2].
    apply scanned_app in Hs. destruct Hs as (x' & Hs1 & Hs2).
    exists x'. split.
    + apply iter_min_class. exists (firstn mn w).
      rewrite length_firstn. split; [lia | split; assumption].
    + apply iter_opt_class. eauto.
Qed.
End CharClass.

Lemma den_plus p x y :
  den (plus (Char p)) x y <->
  exists w, 1 <= List.length w /\ forallb p w = true /\ scanned w x y.
Proof. apply den_rep_class. Qed.

Lemma den_star p x y :
  den (star (Char p)) x y <->
  exists w, forallb p w = true /\ scanned w x y.
Proof.
  unfold star. rewrite den_rep_class. split.
  - intros (w & _ & H). eauto.
  - intros (w & H). exists w. split; [lia | assumption].
Qed.

Lemma den_lazy_star p x y :
  den (lazy_star (Char p)) x y <->
  exists w, forallb p w = true /\ scanned w x y.
Proof.
  unfold lazy_star. rewrite den_rep_class. split.
  - intros (w & _ & H). eauto.
  - intros (w & H). exists w. split; [lia | assumption].
Qed.

(** ** String methods *)

Lemma eqb_iff a : forall b, Str.eqb a b = true <-> a = b.
Proof.
  induction a as [ | x a IH]; intros [ | y b]; simpl;
    try (split; [discriminate | congruence]).
  - split; reflexivity.
  - rewrite andb_true_iff, N.eqb_eq, IH. split.
    + intros [-> ->]. reflexivity.
    + intros [= -> ->]. auto.
Qed.

Lemma startsWith_iff p : forall s,
    Str.startsWith p s = true <-> is_prefix p s.
Proof.
  unfold is_prefix.
  induction p as [ | x p IH]; intros s; simpl.
  - split; eauto.
  - destruct s as [ | y s].
    + split; [discriminate | ]. intros [t H]. discriminate.
    + rewrite andb_true_iff, N.eqb_eq, IH. split.
      * intros [-> [t ->]]. eauto.
      * intros [t [= -> ->]]. eauto.
Qed.

Lemma includes_iff p : forall s,
    Str.includes p s = true <-> occurs p s.
Proof.
  unfold occurs.
  induction s as [ | c s IH]; simpl; rewrite orb_true_iff, startsWith_iff.
  - split.
    + intros [[t H] | H]; [ | discriminate]. exists [], t. assumption.
    + intros (a & b & H). left. destruct a; [ | discriminate].
      exists b. assumption.
  - rewrite IH. split.
    + intros [[t H] | (a & b & ->)].
      * exists [], t. assumption.
      * exists (c :: a), b. reflexivity.
    + intros (a & b & H). destruct a as [ | c' a]; simpl in H.
      * left. exists b. assumption.
      * right. injection H as -> ->. eauto.
Qed.

Lemma includes_false_iff p s :
  Str.includes p s = false <-> ~ occurs p s.
Proof.
  rewrite <- includes_iff. destruct (Str.includes p s); split;
    congruence.
Qed.

(** ** The four patterns of [isValidFilePath] *)

Lemma length_zero_nil (A : Type) (l : list A) : List.length l = 0 -> l = [].
Proof. destruct l; [reflexivity | discriminate]. Qed.

Lemma scanned_from w i s c y :
  scanned w (MState i s c) y ->
  exists t, s = w ++ t /\ y = MState (i + List.length w) t c.
Proof.
  intros [[Hr Hp] Hc]. simpl in *. exists (rest y).
  split; [assumption | ]. apply mstate_eq; auto.
Qed.

Lemma scanned_intro w i s c :
  scanned w (MState i (w ++ s) c) (MState (i + List.length w) s c).
Proof. repeat split. Qed.

Lemma test_allowedChars s :
  test allowedCharsRegex s = true <-> s <> [] /\ only_path_chars s.
Proof.
  rewrite test_true_iff. unfold allowedCharsRegex, only_path_chars.
  split.
  - intros (pre & suf & y & -> & H). cbn [den pos] in H.
    destruct H as (x0 & [Hp ->] & y1 & H & Hr & ->).
    apply length_zero_nil in Hp. subst pre. simpl.
    apply den_plus in H. destruct H as (w & Hl & Hw & Hs).
    apply scanned_from in Hs. destruct Hs as (t & -> & ->).
    simpl in Hr. subst t. rewrite app_nil_r. split; [ | assumption].
    destruct w; [simpl in Hl; lia | discriminate].
  - intros [Hne Hp]. exists [], s, (MState (List.length s) [] []).
    split; [reflexivity | ]. cbn [den pos List.length].
    eexists. split; [split; reflexivity | ].
    exists (MState (List.length s) [] []). split; [ | split; reflexivity].
    apply den_plus. exists s. split; [ | split; [assumption | ]].
    + destruct s; [congruence | simpl; lia].
    + pose proof (scanned_intro s 0 [] []) as H.
      rewrite app_nil_r in H. exact H.
Qed.

Lemma test_hasExtension s :
  test hasExtensionRegex s = true <-> ends_in_extension s.
Proof.
  rewrite test_true_iff. unfold hasExtensionRegex, ends_in_extension.
  split.
  - intros (pre & suf & y & -> & H). cbn [den] in H.
    destruct H as (x1 & H1 & y1 & H & Hr & ->).
    apply den_chr in H1. apply scanned_from in H1.
    destruct H1 as (t & -> & ->).
    apply den_plus in H. destruct H as (w & Hl & Hw & Hs).
    apply scanned_from in Hs. destruct Hs as (t' & -> & ->).
    simpl in Hr. subst t'. rewrite app_nil_r.
    exists pre, w. split; [reflexivity | split; [ | assumption]].
    destruct w; [simpl in Hl; lia | discriminate].
  - intros (pre & ext & -> & Hne & Hp).
    exists pre, (DOT :: ext),
      (MState (List.length pre + 1 + List.length ext) [] []).
    split; [reflexivity | ]. cbn [den].
    exists (MState (List.length pre + 1) ext []). split.
    + apply den_chr. apply (scanned_intro [DOT]).
    + exists (MState (List.length pre + 1 + List.length ext) [] []).
      split; [ | split; reflexivity].
      apply den_plus. exists ext. split; [ | split; [assumption | ]].
      * destruct ext; [congruence | simpl; lia].
      * pose proof (scanned_intro ext (List.length pre + 1) [] []) as H.
        rewrite app_nil_r in H. exact H.
Qed.

Lemma anchored_names names s :
  names <> [] ->
  test (Bol ~> Group 1 (alts (map lit_ci names)) ~> Eol)%re s = true <->
  exists name, In name names /\ same_ci s name.
Proof.
  intros Hne. rewrite test_true_iff.
  assert (Hne' : map lit_ci names <> []) by (destruct names; [congruence | discriminate]).
  split.
  - intros (pre & suf & y & -> & H). cbn [den pos] in H.
    destruct H as (x0 & [Hp ->] & y1 & (y0 & H & ->) & Hr & ->).
    apply length_zero_nil in Hp. subst pre. simpl in *.
    apply den_alts in H; [ | assumption].
    destruct H as (r & Hin & H). apply in_map_iff in Hin.
    destruct Hin as (name & <- & Hin). apply den_lit_ci in H.
    destruct H as (w & Hw & Hs). apply scanned_from in Hs.
    destruct Hs as (t & -> & ->). simpl in Hr. subst t.
    rewrite app_nil_r. eauto.
  - intros (name & Hin & Hs).
    exists [], s,
      (close_group 1 (MState 0 s []) (MState (List.length s) [] [])).
    split; [reflexivity | ]. cbn [den pos List.length].
    eexists. split; [split; reflexivity | ].
    exists (close_group 1 (MState 0 s []) (MState (List.length s) [] [])).
    split; [ | split; reflexivity].
    exists (MState (List.length s) [] []). split; [ | reflexivity].
    apply den_alts; [assumption | ]. exists (lit_ci name). split.
    + apply in_map. assumption.
    + apply den_lit_ci. exists s. split; [assumption | ].
      pose proof (scanned_intro s 0 [] []) as H.
      rewrite app_nil_r in H. exact H.
Qed.

Lemma test_isConfigFile s :
  test isConfigFileRegex s = true <-> is_config_name s.
Proof. apply anchored_names. discriminate. Qed.

Lemma test_driveLetter s :
  test driveLetterRegex s = true <-> has_drive_prefix s.
Proof.
  rewrite test_true_iff. unfold driveLetterRegex, has_drive_prefix. split.
  - intros (pre & suf & y & -> & H). cbn [den pos] in H.
    destruct H as (x0 & [Hp ->] & y1 & H1 & H2).
    apply length_zero_nil in Hp. subst pre. simpl.
    apply den_Char in H1. destruct H1 as (c & Hc & H1).
    apply scanned_from in H1. destruct H1 as (t & -> & ->).
    apply den_chr in H2. apply scanned_from in H2.
    destruct H2 as (t' & -> & _). simpl. eauto.
  - intros (c & t & -> & Hc).
    exists [], (c :: COLON :: t), (MState 2 t []).
    split; [reflexivity | ]. cbn [den pos List.length].
    eexists. split; [split; reflexivity | ].
    exists (MState 1 (COLON :: t) []). split.
    + apply den_Char. exists c. split; [assumption | ].
      apply (scanned_intro [c] 0).
    + apply den_chr. apply (scanned_intro [COLON] 1).
Qed.

(** ** isValidFilePath *)

(** The early returns amount to a conjunction of the five rules. *)
Lemma isValidFilePath_rules p :
  isValidFilePath p =
  (test hasExtensionRegex p || test isConfigFileRegex p)
  && negb (Str.includes (str "..") p)
  && negb (Str.startsWith (str "/") p)
  && negb (test driveLetterRegex p)
  && (List.length p <=? 200)
  && test allowedCharsRegex p.
Proof.
  unfold isValidFilePath. rewrite Nat.ltb_antisym.
  destruct (test hasExtensionRegex p), (test isConfigFileRegex p),
    (Str.includes (str "..") p), (Str.startsWith (str "/") p),
    (test driveLetterRegex p), (List.length p <=? 200),
    (test allowedCharsRegex p); reflexivity.
Qed.

Lemma negb_true_not b (P : Prop) : (b = true <-> P) -> (negb b = true <-> ~ P).
Proof.
  intros [H1 H2]. destruct b; simpl; split.
  - discriminate.
  - intros H. exfalso. auto.
  - intros _ HP. apply H2 in HP. discriminate.
  - reflexivity.
Qed.

Lemma isValidFilePath_iff p : isValidFilePath p = true <-> valid_path p.
Proof.
  rewrite isValidFilePath_rules. unfold valid_path.
  rewrite !andb_true_iff, orb_true_iff.
  rewrite test_hasExtension, test_isConfigFile, test_allowedChars.
  rewrite (negb_true_not _ _ (includes_iff (str "..") p)).
  rewrite (negb_true_not _ _ (startsWith_iff (str "/") p)).
  rewrite (negb_true_not _ _ (test_driveLetter p)).
  rewrite Nat.leb_le.
  split.
  - intros [[[[[H1 H2] H3] H4] H5] [_ H6]]. auto 10.
  - intros (H1 & H2 & H3 & H4 & H5 & H6). repeat split; auto.
    intros ->. destruct H1 as [(pre & ext & H & _) | (name & Hin & H)].
    + destruct pre; discriminate.
    + unfold same_ci in H. simpl in Hin.
      repeat (destruct Hin as [<- | Hin]; [discriminate | ]). destruct Hin.
Qed.

(** C3.  [isValidFilePath] is a total boolean function that answers
    true exactly when the candidate ends in a dot followed by one or more
    alphanumeric characters or equals one of the six configuration file
    names up to case, contains no [..], starts neither with a slash nor
    with a letter and a colon, has at most 200 code units, and consists
    of word characters, hyphen, dot and slash only.  The four sample
    paths of the specification get the stated answers. *)
Theorem C3_isValidFilePath_rules :
  (forall candidate,
      isValidFilePath candidate = true <->
      (ends_in_extension candidate \/ is_config_name candidate) /\
      ~ occurs (str "..") candidate /\
      ~ is_prefix (str "/") candidate /\
      ~ has_drive_prefix candidate /\
      List.length candidate <= 200 /\
      only_path_chars candidate) /\
  isValidFilePath (str "../../etc/passwd") = false /\
  isValidFilePath (str "src/App.tsx") = true /\
  isValidFilePath (str "README") = true /\
  isValidFilePath (str "C:\secrets.txt") = false.
Proof.
  split; [exact isValidFilePath_iff | ].
  repeat split; vm_compute; reflexivity.
Qed.

Lemma C3_isValidFilePath_rules_witness :
  isValidFilePath (str "src/App.tsx") = true /\
  ends_in_extension (str "src/App.tsx") /\
  ~ occurs (str "..") (str "src/App.tsx") /\
  only_path_chars (str "src/App.tsx").
Proof.
  assert (Hv : isValidFilePath (str "src/App.tsx") = true)
    by (vm_compute; reflexivity).
  split; [exact Hv | ].
  destruct (proj1 (proj1 C3_isValidFilePath_rules (str "src/App.tsx")) Hv)
    as (H1 & H2 & _ & _ & _ & H6).
  split; [ | split; assumption].
  destruct H1 as [H1 | (name & Hin & Hname)]; [exact H1 | ].
  exfalso. unfold same_ci in Hname. simpl in Hin.
  repeat (destruct Hin as [<- | Hin]; [discriminate | ]). destruct Hin.
Defined.

(** ** Matches of the two block patterns *)

Lemma den_pos_le r x y : den r x y -> pos x <= pos y.
Proof.
  intros H. apply den_moves in H. destruct H as (w & _ & H). lia.
Qed.

Lemma den_after_lit f r x y :
  den (lit f ~> r)%re x y -> pos x + List.length f <= pos y.
Proof.
  cbn [den]. intros (x1 & H1 & H2). apply den_lit in H1.
  apply den_pos_le in H2. destruct H1 as [[_ H1] _]. lia.
Qed.

Lemma capture_moved w x y :
  moved w x y -> firstn (pos y - pos x) (rest x) = w.
Proof.
  intros [Hr Hp]. rewrite Hr, Hp.
  replace (pos x + List.length w - pos x) with (List.length w + 0) by lia.
  rewrite firstn_app_2. simpl. apply app_nil_r.
Qed.

Lemma den_opt r x y :
  den (opt r) x y ->
  y = x \/ den r (cleared (groups_of r) x) y.
Proof.
  unfold opt. cbn [den option_map]. intros (x0 & Hmin & Hopt).
  inversion Hmin; subst.
  inversion Hopt as [ | b x1 y1 z1 _ HR _ Hrest]; subst; [left; reflexivity | ].
  simpl in Hrest.
  inversion Hrest as [ | b x2 y2 z2 Hb _ _ _]; subst;
    [right; assumption | congruence].
Qed.

Lemma get_cap_same i v c : get_cap i (set_cap i v c) = Some v.
Proof. unfold get_cap, set_cap. simpl. rewrite Nat.eqb_refl. reflexivity. Qed.

Lemma get_cap_other i j v c :
  j <> i -> get_cap i (set_cap j v c) = get_cap i c.
Proof.
  intros H. unfold get_cap, set_cap. simpl.
  destruct (Nat.eqb_spec j i); [contradiction | reflexivity].
Qed.

(** A match of the first pattern is not empty and defines groups 1
    and 2. *)
Lemma codeBlock_match x m :
  den codeBlockRegex x m ->
  pos x < pos m /\
  exists header body, group 1 m = Some header /\ group 2 m = Some body.
Proof.
  intros H. split.
  - apply den_after_lit in H. simpl in H. lia.
  - unfold codeBlockRegex in H. cbn [den] in H.
    destruct H as (x1 & _ & x2 & _ & x3 & (y0 & _ & ->) & x4 & H4 & x5
                   & (y1 & H5 & ->) & H6).
    apply den_chr in H4. destruct H4 as [_ H4].
    apply den_lazy_star in H5. destruct H5 as (w & _ & _ & H5).
    apply den_lit in H6. destruct H6 as [_ H6].
    unfold group. rewrite H6. cbn [caps close_group].
    rewrite get_cap_same, get_cap_other by discriminate.
    rewrite H5, H4. cbn [caps close_group]. rewrite get_cap_same. eauto.
Qed.

(** A match of the second pattern is not empty and defines groups 3
    and 4; group 3 holds a dot. *)
Lemma simpleBlock_match x m :
  den simpleBlockRegex x m ->
  pos x < pos m /\
  exists line body,
    group 3 m = Some line /\ In DOT line /\ group 4 m = Some body.
Proof.
  intros H. split.
  - apply den_after_lit in H. simpl in H. lia.
  - unfold simpleBlockRegex in H. cbn [den] in H.
    destruct H as (x1 & _ & x2 & _ & x3 & _ & x4 & _ & x5
                   & (y0 & H5 & ->) & x6 & H6 & x7 & (y1 & H7 & ->) & H8).
    destruct H5 as (a1 & Ha1 & a2 & Ha2 & Ha3).
    apply den_moves in Ha1. destruct Ha1 as (w1 & M1).
    apply den_chr in Ha2. destruct Ha2 as [M2 _].
    apply den_moves in Ha3. destruct Ha3 as (w3 & M3).
    pose proof (moved_trans _ _ _ _ _ M1 (moved_trans _ _ _ _ _ M2 M3)) as M.
    apply capture_moved in M.
    apply den_chr in H6. destruct H6 as [_ H6].
    apply den_lazy_star in H7. destruct H7 as (w & _ & _ & H7).
    apply den_lit in H8. destruct H8 as [_ H8].
    unfold group. rewrite H8. cbn [caps close_group].
    rewrite get_cap_same, get_cap_other by discriminate.
    rewrite H7, H6. cbn [caps close_group]. rewrite get_cap_same, M.
    eexists _, _. split; [reflexivity | split; [ | reflexivity]].
    apply in_or_app. right. left. reflexivity.
Qed.

(** A successful [exec] of either pattern leaves less input behind. *)
Lemma search_shrinks r s i j m :
  (forall x y, den r x y -> pos x < pos y) ->
  search r i s = Some (j, m) ->
  List.length (rest m) < List.length s.
Proof.
  intros Hr H. pose proof (search_moves _ _ _ _ _ H) as (pre & w & -> & -> & Hp).
  apply search_sound in H. destruct H as (pre' & suf & _ & _ & Hd).
  apply Hr in Hd. simpl in Hd. rewrite !length_app. lia.
Qed.

(** ** The two loops of [parseFileChanges] *)

Section Grown.
Variable G : list FileChange -> FileChange -> Prop.

Lemma grown_trans a b c : grown G a b -> grown G b c -> grown G a c.
Proof.
  intros Hab Hbc. induction Hbc as [ | files' f _ IH HG]; [assumption | ].
  apply grown_push; assumption.
Qed.

Lemma grown_prefix a b : grown G a b -> exists added, b = a ++ added.
Proof.
  induction 1 as [ | files' f _ [added ->] _].
  - exists []. symmetry. apply app_nil_r.
  - exists (added ++ [f]). symmetry. apply app_assoc.
Qed.

Lemma grown_Forall (Q : FileChange -> Prop) a b :
  (forall files f, G files f -> Q f) ->
  grown G a b -> Forall Q a -> Forall Q b.
Proof.
  intros HQ Hg Ha. induction Hg as [ | files' f _ IH HG]; [assumption | ].
  apply Forall_app. split; [assumption | ].
  constructor; [eauto | constructor].
Qed.

Variable re : regex.
Variable body : mstate -> list FileChange -> result (list FileChange).
Variable P : mstate -> Prop.

Hypothesis match_ok : forall x m,
    den re x m -> pos x < pos m /\ P m.
Hypothesis body_ok : forall m files,
    P m ->
    exists files', body m files = Ok files' /\
                   (files' = files \/
                    exists f, files' = files ++ [f] /\ G files f).

(** With more fuel than input the loop returns, having pushed only
    elements allowed by [G]. *)
Lemma exec_loop_grows : forall fuel i s files,
    List.length s < fuel ->
    exists files',
      exec_loop fuel re body i s files = Ok files' /\
      grown G files files'.
Proof.
  induction fuel as [ | fuel IH]; intros i s files Hfuel; [lia | ].
  simpl. destruct (search re i s) as [[j m] | ] eqn:Hs.
  - assert (Hlt : List.length (rest m) < List.length s).
    { eapply search_shrinks; eauto. intros x y H.
      apply match_ok in H. tauto. }
    apply search_sound in Hs. destruct Hs as (pre & suf & _ & _ & Hd).
    apply match_ok in Hd. destruct Hd as [_ HP].
    destruct (body_ok m files HP) as (files1 & Hb & Hstep).
    rewrite Hb. simpl.
    destruct (IH (pos m) (rest m) files1) as (files2 & He & Hg); [lia | ].
    exists files2. split; [assumption | ].
    eapply grown_trans; [ | eassumption].
    destruct Hstep as [-> | (f & -> & HG)].
    + apply grown_refl.
    + apply grown_push; [apply grown_refl | assumption].
  - exists files. split; [reflexivity | apply grown_refl].
Qed.
End Grown.

(** *** Trimming keeps what is not white space *)

Lemma trimStart_keeps c s :
  is_space c = false -> In c s -> In c (Str.trimStart s).
Proof.
  intros Hc. induction s as [ | d s IH]; simpl; [auto | ].
  destruct (is_space d) eqn:Hd.
  - intros [-> | H]; [congruence | auto].
  - auto.
Qed.

Lemma trim_keeps c s : is_space c = false -> In c s -> In c (Str.trim s).
Proof.
  intros Hc H. unfold Str.trim, Str.trimEnd.
  apply in_rev. rewrite rev_involutive.
  apply trimStart_keeps; [assumption | ]. apply in_rev.
  rewrite rev_involutive. apply trimStart_keeps; assumption.
Qed.

Lemma includes_char c s : Str.includes [c] s = true <-> In c s.
Proof.
  rewrite includes_iff. unfold occurs. split.
  - intros (a & b & ->). apply in_or_app. right. left. reflexivity.
  - intros H. apply in_split in H. destruct H as (a & b & ->).
    exists a, b. reflexivity.
Qed.

(** *** The loop bodies *)

Lemma explicitBlock_pushes m files :
  (exists header body, group 1 m = Some header /\ group 2 m = Some body) ->
  exists files',
    explicitBlock m files = Ok files' /\
    (files' = files \/
     exists f, files' = files ++ [f] /\ pushed f).
Proof.
  intros (header & body & H1 & H2). unfold explicitBlock.
  rewrite H1, H2. cbn [trim_of bind].
  destruct (negb (Str.truthy (Str.trim header))
            || Str.includes (str " ") (Str.trim header)
               && negb (Str.startsWith (str "filepath:") (Str.trim header)));
    [eauto | ].
  set (filePath :=
         Str.trim
           (replace_first languageRegex
              (if Str.startsWith (str "filepath:") (Str.trim header)
               then Str.trim (Str.substring_from 9 (Str.trim header))
               else Str.trim header))).
  destruct (negb (Str.truthy filePath)
            || negb (Str.includes (str ".") filePath)
               && negb (Str.includes (str "/") filePath)) eqn:Hskip;
    [eauto | ].
  destruct (isValidFilePath filePath) eqn:Hvalid; [ | eauto].
  eexists. split; [reflexivity | ]. right. eexists. split; [reflexivity | ].
  unfold pushed. cbn [path action content].
  split; [assumption | split; [ | split; [reflexivity | discriminate]]].
  apply orb_false_iff in Hskip. destruct Hskip as [_ Hskip].
  change (str ".") with [DOT] in Hskip.
  change (str "/") with [SLASH] in Hskip.
  destruct (Str.includes [DOT] filePath) eqn:Hd.
  - left. apply includes_char. assumption.
  - destruct (Str.includes [SLASH] filePath) eqn:Hsl; [ | discriminate].
    right. apply includes_char. assumption.
Qed.

Lemma existsb_path_false files p :
  existsb (fun f => Str.eqb (path f) p) files = false ->
  ~ In p (map path files).
Proof.
  intros H Hin. apply in_map_iff in Hin. destruct Hin as (f & <- & Hin).
  assert (Ht : existsb (fun g => Str.eqb (path g) (path f)) files = true).
  { apply existsb_exists. exists f. split; [assumption | ].
    apply eqb_iff. reflexivity. }
  congruence.
Qed.

Lemma simpleBlock_pushes m files :
  (exists line body,
      group 3 m = Some line /\ In DOT line /\ group 4 m = Some body) ->
  exists files',
    simpleBlock m files = Ok files' /\
    (files' = files \/
     exists f, files' = files ++ [f] /\ pushed f /\ fresh_path files f).
Proof.
  intros (line & body & H3 & Hdot & H4). unfold simpleBlock.
  rewrite H3, H4. cbn [trim_of bind].
  destruct (existsb (fun f => Str.eqb (path f) (Str.trim line)) files)
    eqn:Hseen; [eauto | ].
  destruct (isValidFilePath (Str.trim line)) eqn:Hvalid; [ | eauto].
  eexists. split; [reflexivity | ]. right. eexists. split; [reflexivity | ].
  unfold pushed, fresh_path. cbn [path action content].
  repeat split; try assumption; try discriminate.
  - left. apply trim_keeps; [reflexivity | assumption].
  - apply existsb_path_false. assumption.
Qed.

(** *** Both loops together *)

Lemma firstLoop_returns response :
  exists files,
    firstLoop response = Ok files /\
    grown (fun _ f => pushed f) [] files.
Proof.
  apply exec_loop_grows with
    (P := fun m => exists header body,
              group 1 m = Some header /\ group 2 m = Some body).
  - apply codeBlock_match.
  - intros m files H. apply explicitBlock_pushes. assumption.
  - lia.
Qed.

Lemma secondLoop_returns response files :
  exists files',
    exec_loop (S (List.length response)) simpleBlockRegex simpleBlock
              0 response files = Ok files' /\
    grown (fun fs f => pushed f /\ fresh_path fs f) files files'.
Proof.
  apply exec_loop_grows with
    (P := fun m => exists line body,
              group 3 m = Some line /\ In DOT line /\ group 4 m = Some body).
  - apply simpleBlock_match.
  - intros m fs H. apply simpleBlock_pushes. assumption.
  - lia.
Qed.

Lemma parseFileChanges_returns response :
  exists first files,
    firstLoop response = Ok first /\
    parseFileChanges response = Ok files /\
    grown (fun _ f => pushed f) [] first /\
    grown (fun fs f => pushed f /\ fresh_path fs f) first files.
Proof.
  destruct (firstLoop_returns response) as (first & H1 & G1).
  destruct (secondLoop_returns response first) as (files & H2 & G2).
  exists first, files. unfold parseFileChanges, parseFileChanges_fuel.
  unfold firstLoop in H1. rewrite H1. cbn [bind]. auto.
Qed.

Lemma parseFileChanges_pushed response :
  exists files,
    parseFileChanges response = Ok files /\ Forall pushed files.
Proof.
  destruct (parseFileChanges_returns response)
    as (first & files & _ & H & G1 & G2).
  exists files. split; [assumption | ].
  eapply grown_Forall; [ | exact G2 | ].
  - intros fs f [Hp _]. exact Hp.
  - eapply grown_Forall; [ | exact G1 | constructor].
    intros fs f Hp. exact Hp.
Qed.

(** *** Fuel

    A loop that returns does so whatever fuel is added, so the fuel
    that [parseFileChanges] passes is as good as any larger one. *)

Lemma exec_loop_more_fuel re body extra : forall fuel i s files v,
    exec_loop fuel re body i s files = Ok v ->
    exec_loop (fuel + extra) re body i s files = Ok v.
Proof.
  induction fuel as [ | fuel IH]; intros i s files v; [discriminate | ].
  simpl. destruct (search re i s) as [[j m] | ]; [ | auto].
  destruct (body m files) as [files' | | ]; simpl;
    [apply IH | discriminate | discriminate].
Qed.

Lemma parseFileChanges_more_fuel response extra :
  parseFileChanges_fuel (S (List.length response) + extra) response
  = parseFileChanges response.
Proof.
  destruct (parseFileChanges_returns response)
    as (first & files & H1 & H & _ & _).
  rewrite H. unfold parseFileChanges, parseFileChanges_fuel in *.
  unfold firstLoop in H1. rewrite H1 in H. cbn [bind] in H.
  rewrite (exec_loop_more_fuel _ _ extra _ _ _ _ _ H1). cbn [bind].
  apply exec_loop_more_fuel. assumption.
Qed.

(** *** Duplicate paths *)

Lemma snoc_split (A : Type) (l : list A) (x : A) before y after :
  l ++ [x] = before ++ y :: after ->
  (after = [] /\ before = l /\ y = x) \/
  (exists after', after = after' ++ [x] /\ l = before ++ y :: after').
Proof.
  destruct after as [ | z after' _] using rev_ind; intros H.
  - left. apply app_inj_tail in H. destruct H as [-> ->]. auto.
  - right. exists after'.
    change (before ++ y :: after' ++ [z])
      with (before ++ (y :: after') ++ [z]) in H.
    rewrite app_assoc in H. apply app_inj_tail in H.
    destruct H as [-> ->]. auto.
Qed.

Lemma grown_fresh (Q : FileChange -> Prop) a b :
  grown (fun fs f => Q f /\ fresh_path fs f) a b ->
  exists added,
    b = a ++ added /\
    forall before f after,
      added = before ++ f :: after ->
      ~ In (path f) (map path (a ++ before)).
Proof.
  induction 1 as [ | files' f0 _ (added & -> & IH) [_ Hfresh]].
  - exists []. split; [symmetry; apply app_nil_r | ].
    intros before f after H. destruct before; discriminate.
  - exists (added ++ [f0]). split; [symmetry; apply app_assoc | ].
    intros before f after H. apply snoc_split in H.
    destruct H as [(_ & -> & ->) | (after' & _ & ->)].
    + exact Hfresh.
    + eapply IH. reflexivity.
Qed.

Lemma grown_NoDup (Q : FileChange -> Prop) a b :
  grown (fun fs f => Q f /\ fresh_path fs f) a b ->
  NoDup (map path a) -> NoDup (map path b).
Proof.
  induction 1 as [ | files' f0 _ IH [_ Hfresh]]; intros Ha; [assumption | ].
  rewrite map_app. apply NoDup_app.
  - auto.
  - simpl. constructor; [intros [] | constructor].
  - intros p Hin [<- | []]. exact (Hfresh Hin).
Qed.

(** ** Claims about [parseFileChanges] *)

(** C1.  The claim fails on the code: on a response with two blocks of
    the first pass under the same header, [parseFileChanges] returns two
    elements with the same path.  The first loop pushes without the
    check [files.some(f => f.path === possiblePath)] the second loop
    makes. *)
Lemma C1_same_header_twice :
  parseFileChanges twoBlocksOneHeader =
    Ok [mkFileChange (str "a.ts") create (Some (str "x"));
        mkFileChange (str "a.ts") create (Some (str "y"))] /\
  ~ NoDup (map path [mkFileChange (str "a.ts") create (Some (str "x"));
                     mkFileChange (str "a.ts") create (Some (str "y"))]).
Proof.
  split; [vm_compute; reflexivity | ].
  intros H. inversion H as [ | p l Hin _]; subst.
  apply Hin. left. reflexivity.
Qed.

(** X24.  What the check of the second loop gives: for every input
    string [parseFileChanges] returns the elements of the first pass
    followed by those of the second pass, and no element of the second
    pass has the path of an element before it; so when both passes would
    yield the same path only the first occurrence is kept, and the
    result has no two elements with the same path whenever the first
    pass alone has none. *)
Theorem X24_second_pass_adds_no_duplicate :
  forall response,
  exists first second,
    firstLoop response = Ok first /\
    parseFileChanges response = Ok (first ++ second) /\
    (forall before f after,
        second = before ++ f :: after ->
        ~ In (path f) (map path (first ++ before))) /\
    (NoDup (map path first) -> NoDup (map path (first ++ second))).
Proof.
  intros response.
  destruct (parseFileChanges_returns response)
    as (first & files & H1 & H & _ & G2).
  destruct (grown_fresh _ _ _ G2) as (second & -> & Hfresh).
  exists first, second. repeat split; try assumption.
  intros Hnd. eapply grown_NoDup; eauto.
Qed.

Lemma X24_second_pass_adds_no_duplicate_witness :
  exists first second,
    firstLoop bothPasses = Ok first /\
    parseFileChanges bothPasses = Ok (first ++ second) /\
    NoDup (map path (first ++ second)).
Proof.
  destruct (X24_second_pass_adds_no_duplicate bothPasses)
    as (first & second & H1 & H2 & _ & H4).
  exists first, second. split; [exact H1 | split; [exact H2 | ]].
  apply H4.
  assert (E : firstLoop bothPasses
              = Ok [mkFileChange (str "a.ts") create (Some (str "x"))])
    by (vm_compute; reflexivity).
  rewrite E in H1. injection H1 as <-.
  simpl. constructor; [intros [] | constructor].
Defined.

(** C2.  For every input string [parseFileChanges] returns, and every
    path it returns is accepted by [isValidFilePath]; such a path has no
    leading slash, contains no [..], has at most 200 code units and
    consists of word characters, hyphen, dot and slash only. *)
Theorem C2_paths_are_validated :
  forall response,
  exists files,
    parseFileChanges response = Ok files /\
    Forall (fun f =>
              isValidFilePath (path f) = true /\
              ~ is_prefix (str "/") (path f) /\
              ~ occurs (str "..") (path f) /\
              List.length (path f) <= 200 /\
              Forall (fun c => is_word c = true \/ c = DASH \/ c = DOT
                               \/ c = SLASH) (path f))
           files.
Proof.
  intros response.
  destruct (parseFileChanges_pushed response) as (files & H & Hp).
  exists files. split; [assumption | ].
  eapply Forall_impl; [ | exact Hp].
  intros f (Hv & _). split; [assumption | ].
  apply isValidFilePath_iff in Hv.
  destruct Hv as (_ & H2 & H3 & _ & H5 & H6).
  repeat split; try assumption.
  apply Forall_forall. intros c Hc.
  unfold only_path_chars in H6. rewrite forallb_forall in H6.
  apply H6 in Hc. unfold is_path_char in Hc.
  rewrite !orb_true_iff, !N.eqb_eq in Hc. tauto.
Qed.

(** C9.  Every path in the output of [parseFileChanges] contains a dot
    or a slash.  So although [isValidFilePath] accepts [README],
    [Dockerfile] and [Makefile], no returned element has one of these
    names as its path. *)
Theorem C9_paths_have_dot_or_slash :
  (forall response,
    exists files,
      parseFileChanges response = Ok files /\
      Forall (fun f => In DOT (path f) \/ In SLASH (path f)) files /\
      Forall (fun f => path f <> str "README" /\
                       path f <> str "Dockerfile" /\
                       path f <> str "Makefile") files) /\
  isValidFilePath (str "README") = true /\
  isValidFilePath (str "Dockerfile") = true /\
  isValidFilePath (str "Makefile") = true.
Proof.
  split; [ | repeat split; vm_compute; reflexivity].
  intros response.
  destruct (parseFileChanges_pushed response) as (files & H & Hp).
  exists files. split; [assumption | ].
  split; (eapply Forall_impl; [ | exact Hp]); intros f (_ & Hds & _).
  - assumption.
  - repeat split; intros Heq; rewrite Heq in Hds; vm_compute in Hds;
      intuition discriminate.
Qed.

(** C5.  On the sample response [parseFileChanges] returns exactly one
    element, with path [src/App.tsx] and the body line as content, and
    [extractExplanation] returns exactly the prose line. *)
Theorem C5_sample_response :
  parseFileChanges sampleResponse =
    Ok [mkFileChange (str "src/App.tsx") create
                     (Some (str "export default function App() {}"))] /\
  extractExplanation sampleResponse = Ok (str "Created the app component.").
Proof. split; vm_compute; reflexivity. Qed.

(** ** determineFileActions *)

Lemma array_includes_iff p l : array_includes p l = true <-> In p l.
Proof.
  unfold array_includes. rewrite existsb_exists. split.
  - intros (q & Hin & Heq). apply eqb_iff in Heq. subst. assumption.
  - intros Hin. exists p. split; [assumption | apply eqb_iff; reflexivity].
Qed.

(** C4.  [determineFileActions] returns a sequence of the same length
    and order; the element at each index keeps path and content of the
    input element at that index, and its action is update when the path
    is among the existing paths and create otherwise, never delete. *)
Theorem C4_determineFileActions_classifies :
  forall changes existingPaths,
    List.length (determineFileActions changes existingPaths)
    = List.length changes /\
    (forall i change,
        nth_error changes i = Some change ->
        exists out,
          nth_error (determineFileActions changes existingPaths) i
          = Some out /\
          path out = path change /\
          content out = content change /\
          (In (path change) existingPaths -> action out = update) /\
          (~ In (path change) existingPaths -> action out = create)) /\
    Forall (fun out => action out <> delete)
           (determineFileActions changes existingPaths).
Proof.
  intros changes existingPaths. unfold determineFileActions.
  split; [apply length_map | split].
  - intros i change Hi. rewrite nth_error_map, Hi. cbn [option_map].
    eexists. split; [reflexivity | ]. cbn [path content action].
    repeat split.
    + intros Hin. apply array_includes_iff in Hin. rewrite Hin. reflexivity.
    + intros Hnin.
      destruct (array_includes (path change) existingPaths) eqn:E;
        [ | reflexivity].
      apply array_includes_iff in E. contradiction.
  - apply Forall_forall. intros out Hin. apply in_map_iff in Hin.
    destruct Hin as (change & <- & _). cbn [action].
    destruct (array_includes (path change) existingPaths); discriminate.
Qed.

Lemma C4_determineFileActions_classifies_witness :
  (exists out,
      nth_error (determineFileActions sampleChanges [str "src/App.tsx"]) 0
      = Some out /\ action out = update) /\
  (exists out,
      nth_error (determineFileActions sampleChanges [str "src/App.tsx"]) 1
      = Some out /\ action out = create).
Proof.
  destruct (C4_determineFileActions_classifies
              sampleChanges [str "src/App.tsx"]) as (_ & Hnth & _).
  split.
  - destruct (Hnth 0 _ eq_refl) as (out & Ho & _ & _ & Hu & _).
    exists out. split; [exact Ho | ]. apply Hu. left. reflexivity.
  - destruct (Hnth 1 _ eq_refl) as (out & Ho & _ & _ & _ & Hc).
    exists out. split; [exact Ho | ]. apply Hc.
    intros [H | []]. vm_compute in H. discriminate H.
Defined.

(** ** scanForSecurityIssues *)

Lemma subsequence_map_filter (A B : Type) (f : A -> B) (sel : A -> bool) l :
  subsequence (map f (filter sel l)) (map f l).
Proof.
  induction l as [ | x l IH]; simpl; [constructor | ].
  destruct (sel x); simpl; constructor; assumption.
Qed.

Lemma subsequence_length (A : Type) (a b : list A) :
  subsequence a b -> List.length a <= List.length b.
Proof. induction 1; simpl; lia. Qed.

Lemma subsequence_In (A : Type) (a b : list A) x :
  subsequence a b -> In x a -> In x b.
Proof.
  induction 1 as [ | y a b _ IH | y a b _ IH]; simpl; [auto | auto | ].
  intros [-> | H]; auto.
Qed.

Lemma subsequence_NoDup (A : Type) (a b : list A) :
  subsequence a b -> NoDup b -> NoDup a.
Proof.
  induction 1 as [ | y a b Hs IH | y a b Hs IH]; intros Hb.
  - constructor.
  - inversion Hb; auto.
  - inversion Hb as [ | ? ? Hnin Hb']; subst. constructor; [ | auto].
    intros Hin. apply Hnin. eapply subsequence_In; eauto.
Qed.

Lemma scan_loop_filter code : forall ps issues,
    scan_loop ps code issues =
    issues ++ map (fun p => finding (snd p))
                  (filter (fun p => test (fst p) code) ps).
Proof.
  induction ps as [ | [pattern name] ps IH]; intros issues; simpl.
  - symmetry. apply app_nil_r.
  - rewrite IH. destruct (test pattern code); simpl.
    + rewrite <- app_assoc. reflexivity.
    + reflexivity.
Qed.

Lemma patterns_names : map snd patterns = categoryNames.
Proof. reflexivity. Qed.

Lemma scan_subsequence code :
  subsequence (scanForSecurityIssues code) (map finding categoryNames).
Proof.
  unfold scanForSecurityIssues. rewrite scan_loop_filter, app_nil_l.
  rewrite <- patterns_names, map_map. apply subsequence_map_filter.
Qed.

Lemma finding_injective a b : finding a = finding b -> a = b.
Proof.
  unfold finding. intros H. apply app_inv_head in H.
  apply app_inv_tail in H. assumption.
Qed.

Lemma findings_distinct : NoDup (map finding categoryNames).
Proof.
  assert (H : NoDup categoryNames).
  { unfold categoryNames.
    repeat (constructor; [simpl; intuition discriminate | ]). constructor. }
  induction H as [ | name l Hnin _ IH]; simpl; constructor; [ | assumption].
  intros Hin. apply in_map_iff in Hin. destruct Hin as (n & Heq & Hin).
  apply finding_injective in Heq. subst. contradiction.
Qed.

(** C10.  Every element of the list [scanForSecurityIssues] returns is
    the text Potential, a category name, detected in generated code, the
    name being one of the seven categories, and the elements appear in
    the order of the categories. *)
Theorem C10_findings_format_and_order :
  forall code,
    Forall (fun issue =>
              exists name,
                In name [str "API key"; str "Secret"; str "Password";
                         str "Stripe key"; str "AWS access key";
                         str "GitHub token"; str "Bearer token"] /\
                issue = str "Potential " ++ name
                        ++ str " detected in generated code")
           (scanForSecurityIssues code) /\
    subsequence
      (scanForSecurityIssues code)
      (map (fun name => str "Potential " ++ name
                        ++ str " detected in generated code")
           [str "API key"; str "Secret"; str "Password";
            str "Stripe key"; str "AWS access key";
            str "GitHub token"; str "Bearer token"]).
Proof.
  intros code. pose proof (scan_subsequence code) as Hs. split.
  - apply Forall_forall. intros issue Hin.
    eapply subsequence_In in Hin; [ | exact Hs].
    apply in_map_iff in Hin. destruct Hin as (name & <- & Hin).
    exists name. split; [exact Hin | reflexivity].
  - exact Hs.
Qed.

(** ** Removing code blocks *)

(** The global replace returns for every pattern: each round either
    ends or leaves less input. *)
Lemma replace_all_returns r : forall fuel i s,
    List.length s < fuel -> exists t, replace_all fuel r i s = Ok t.
Proof.
  induction fuel as [ | fuel IH]; intros i s Hfuel; [lia | ].
  simpl. destruct (search r i s) as [[j y] | ] eqn:Hs; [ | eauto].
  apply search_moves in Hs. destruct Hs as (pre & w & Hs & Hj & Hp).
  assert (Hl : List.length s
               = List.length pre + List.length w + List.length (rest y)).
  { rewrite Hs, !length_app. lia. }
  destruct (Nat.eqb_spec (pos y) j) as [He | Hne].
  - destruct (rest y) as [ | c s'] eqn:Hr; [eauto | ].
    destruct (IH (S j) s') as [t Ht]; [simpl in Hl; lia | ].
    rewrite Ht. simpl. eauto.
  - destruct (IH (pos y) (rest y)) as [t Ht]; [lia | ].
    rewrite Ht. simpl. eauto.
Qed.

(** A literal matches exactly when the input starts with it. *)
Lemma mtch_lit f : forall x k,
    mtch (lit f) x k =
    if Str.startsWith f (rest x)
    then k (MState (pos x + List.length f)
                   (skipn (List.length f) (rest x)) (caps x))
    else None.
Proof.
  induction f as [ | c f IH]; intros x k.
  - simpl. rewrite Nat.add_0_r. destruct x; reflexivity.
  - assert (Hone : forall k',
               mtch (Char (chr c)) x k' =
               match rest x with
               | d :: s => if N.eqb c d
                           then k' (MState (S (pos x)) s (caps x))
                           else None
               | [] => None
               end).
    { intros k'. simpl. unfold advance.
      destruct (rest x) as [ | d s]; [reflexivity | ].
      unfold chr. rewrite N.eqb_sym. reflexivity. }
    destruct f as [ | c' f].
    + change (lit [c]) with (Char (chr c)). rewrite Hone.
      destruct (rest x) as [ | d s]; [reflexivity | ]. simpl.
      rewrite andb_true_r, Nat.add_1_r. reflexivity.
    + change (mtch (lit (c :: c' :: f)) x k)
        with (mtch (Char (chr c)) x (fun y => mtch (lit (c' :: f)) y k)).
      rewrite Hone.
      destruct (rest x) as [ | d s]; [reflexivity | ].
      cbn [Str.startsWith]. destruct (N.eqb c d); [ | reflexivity].
      rewrite IH. cbn [rest pos caps andb].
      replace (S (pos x) + List.length (c' :: f))
        with (pos x + List.length (c :: c' :: f)) by (simpl; lia).
      reflexivity.
Qed.

Lemma closes_first_tail c body : closes_first (c :: body) -> closes_first body.
Proof.
  unfold closes_first, occurs. intros H (a & b & Heq). apply H.
  exists (c :: a), b. simpl. rewrite Heq. reflexivity.
Qed.

Lemma closes_first_no_early body tail :
  closes_first body -> no_early_fence body tail.
Proof.
  induction body as [ | c body IH]; intros H; cbn [no_early_fence];
    [exact I | ].
  split; [ | apply IH; eapply closes_first_tail; eauto].
  destruct (Str.startsWith fence ((c :: body) ++ fence ++ tail)) eqn:E;
    [ | reflexivity].
  exfalso. apply H. exists [].
  change fence with [BACKTICK; BACKTICK; BACKTICK] in *.
  destruct body as [ | c1 [ | c2 body]]; cbn [Str.startsWith app] in E;
    rewrite ?andb_true_iff, ?N.eqb_eq in E.
  - destruct E as (Hc & _). subst c. exists []. reflexivity.
  - destruct E as (Hc & Hc1 & _). subst c c1. exists [BACKTICK].
    reflexivity.
  - destruct E as (Hc & Hc1 & Hc2 & _). subst c c1 c2.
    exists (body ++ str "``"). reflexivity.
Qed.

Lemma mtch_any_cons x c s k :
  rest x = c :: s -> mtch (Char any) x k = k (advance x).
Proof. intros H. simpl. rewrite H. reflexivity. Qed.

(** The non-greedy body stops at the first closing fence. *)
Lemma lazy_body_stops body : forall n x tail,
    rest x = body ++ fence ++ tail ->
    no_early_fence body tail ->
    List.length body <= n ->
    repeat_opt (mtch (Char any)) [] false n x
               (fun y => mtch (lit fence) y (fun z => Some z))
    = Some (MState (pos x + List.length (body ++ fence)) tail (caps x)).
Proof.
  induction body as [ | c body IH]; intros n x tail Hr Hno Hn.
  - assert (Hk : mtch (lit fence) x (fun z => Some z)
                 = Some (MState (pos x + List.length fence) tail (caps x))).
    { rewrite mtch_lit, Hr. reflexivity. }
    destruct n; cbn [repeat_opt orelse]; rewrite Hk; reflexivity.
  - destruct n as [ | n]; [simpl in Hn; lia | ].
    destruct Hno as [Hhere Hno]. cbn [repeat_opt].
    assert (Hk : mtch (lit fence) x (fun z => Some z) = None).
    { rewrite mtch_lit, Hr, Hhere. reflexivity. }
    rewrite Hk. cbn [orelse]. rewrite cleared_nil.
    rewrite (mtch_any_cons x c (body ++ fence ++ tail)) by exact Hr.
    cbv beta. cbn [pos advance].
    assert (Hne : Nat.eqb (S (pos x)) (pos x) = false)
      by (apply Nat.eqb_neq; lia).
    rewrite Hne.
    rewrite (IH n (advance x) tail).
    + cbn [advance pos caps]. f_equal. f_equal. simpl. lia.
    + cbn [advance rest]. rewrite Hr. reflexivity.
    + assumption.
    + simpl in Hn. lia.
Qed.

Lemma search_here r i s y :
  match_at r i s = Some y -> search r i s = Some (i, y).
Proof. intros H. destruct s; simpl; rewrite H; reflexivity. Qed.

Lemma search_skip r i c s :
  match_at r i (c :: s) = None -> search r i (c :: s) = search r (S i) s.
Proof. intros H. simpl. rewrite H. reflexivity. Qed.

Lemma startsWith_app p s : Str.startsWith p (p ++ s) = true.
Proof. apply startsWith_iff. exists s. reflexivity. Qed.

Lemma match_at_block i body tail :
  closes_first body ->
  match_at anyBlockRegex i (fencedBlock body ++ tail)
  = Some (MState (i + List.length (fencedBlock body)) tail []).
Proof.
  intros Hb. unfold match_at, anyBlockRegex, fencedBlock.
  change (str "```") with fence.
  change (mtch (lit fence ~> lazy_star (Char any) ~> lit fence)%re
               ?x ?k)
    with (mtch (lit fence) x
               (fun y => mtch (lazy_star (Char any)) y
                              (fun z => mtch (lit fence) z k))).
  rewrite mtch_lit. cbn [rest pos caps].
  rewrite <- !app_assoc, startsWith_app, skipn_app, Nat.sub_diag.
  rewrite skipn_all, skipn_O, app_nil_l.
  change (mtch (lazy_star (Char any)) ?x ?k)
    with (repeat_opt (mtch (Char any)) [] false (List.length (rest x)) x k).
  rewrite (lazy_body_stops body _ _ tail).
  - cbn [pos caps]. rewrite !length_app. f_equal. f_equal. lia.
  - reflexivity.
  - apply closes_first_no_early. assumption.
  - cbn [rest]. rewrite length_app. lia.
Qed.

Lemma match_at_no_backtick i c s :
  c <> BACKTICK -> match_at anyBlockRegex i (c :: s) = None.
Proof.
  intros Hc. unfold match_at, anyBlockRegex.
  change (mtch (lit (str "```") ~> ?r)%re ?x ?k)
    with (mtch (lit fence) x (fun y => mtch r y k)).
  rewrite mtch_lit. cbn [rest].
  change fence with [BACKTICK; BACKTICK; BACKTICK]. cbn [Str.startsWith].
  destruct (N.eqb_spec BACKTICK c); [congruence | reflexivity].
Qed.

Lemma replace_all_skip r c s : forall fuel i,
    match_at r i (c :: s) = None ->
    replace_all fuel r i (c :: s) =
    (t <- replace_all fuel r (S i) s ;; Ok (c :: t)).
Proof.
  intros [ | fuel] i Hm; [reflexivity | ].
  cbn [replace_all]. rewrite (search_skip _ _ _ _ Hm).
  destruct (search r (S i) s) as [[j y] | ] eqn:Hs; [ | reflexivity].
  apply search_moves in Hs. destruct Hs as (pre & w & _ & Hj & _).
  replace (j - i) with (S (j - S i)) by lia. cbn [firstn].
  destruct (Nat.eqb (pos y) j).
  - destruct (rest y) as [ | c' s']; [reflexivity | ].
    destruct (replace_all fuel r (S j) s'); reflexivity.
  - destruct (replace_all fuel r (pos y) (rest y)); reflexivity.
Qed.

Lemma replace_all_onlyBlocks s :
  onlyBlocks s ->
  forall fuel i,
    List.length s < fuel ->
    exists t, replace_all fuel anyBlockRegex i s = Ok t /\ blank t.
Proof.
  induction 1 as [ | c s Hc _ IH | body s Hb _ IH]; intros fuel i Hfuel.
  - destruct fuel as [ | fuel]; [simpl in Hfuel; lia | ].
    exists []. split; reflexivity.
  - rewrite replace_all_skip.
    + destruct (IH fuel (S i)) as (t & -> & Ht); [simpl in Hfuel; lia | ].
      exists (c :: t). split; [reflexivity | ].
      unfold blank in *. simpl. rewrite Hc, Ht. reflexivity.
    + apply match_at_no_backtick. intros ->. discriminate.
  - destruct fuel as [ | fuel]; [lia | ].
    cbn [replace_all].
    rewrite (search_here _ _ _ _ (match_at_block i body s Hb)).
    cbn [pos rest]. rewrite length_app in Hfuel.
    assert (Hlen : 6 <= List.length (fencedBlock body)).
    { unfold fencedBlock. rewrite !length_app. simpl. lia. }
    destruct (Nat.eqb_spec (i + List.length (fencedBlock body)) i); [lia | ].
    destruct (IH fuel (i + List.length (fencedBlock body)))
      as (t & -> & Ht); [lia | ].
    exists t. rewrite Nat.sub_diag. split; [reflexivity | assumption].
Qed.

Lemma replace_all_more_fuel r extra : forall fuel i s v,
    replace_all fuel r i s = Ok v ->
    replace_all (fuel + extra) r i s = Ok v.
Proof.
  induction fuel as [ | fuel IH]; intros i s v; [discriminate | ].
  simpl. destruct (search r i s) as [[j y] | ]; [ | auto].
  destruct (Nat.eqb (pos y) j).
  - destruct (rest y) as [ | c s']; [auto | ].
    destruct (replace_all fuel r (S j) s') as [t | | ] eqn:E;
      [ | discriminate | discriminate].
    rewrite (IH _ _ _ E). auto.
  - destruct (replace_all fuel r (pos y) (rest y)) as [t | | ] eqn:E;
      [ | discriminate | discriminate].
    rewrite (IH _ _ _ E). auto.
Qed.

(** *** Cleaning up *)

Lemma trimStart_blank s : blank s -> Str.trimStart s = [].
Proof.
  unfold blank. induction s as [ | c s IH]; simpl; [reflexivity | ].
  intros H. apply andb_prop in H. destruct H as [-> H]. auto.
Qed.

Lemma trim_blank s : blank s -> Str.trim s = [].
Proof.
  intros H. unfold Str.trim. rewrite (trimStart_blank _ H). reflexivity.
Qed.

Lemma split_lines_blank s :
  blank s -> Forall blank (Str.split_lines s).
Proof.
  unfold blank. induction s as [ | c s IH]; simpl.
  - intros _. repeat constructor.
  - intros H. apply andb_prop in H. destruct H as [Hc H].
    specialize (IH H). destruct (N.eqb c LF).
    + constructor; [reflexivity | assumption].
    + destruct (Str.split_lines s) as [ | l ls]; constructor.
      * simpl. rewrite Hc. reflexivity.
      * constructor.
      * inversion IH; subst. simpl. rewrite Hc. assumption.
      * inversion IH; assumption.
Qed.

Lemma cleanUp_blank s : blank s -> cleanUp s = [].
Proof.
  intros H. unfold cleanUp. apply split_lines_blank in H.
  induction H as [ | l ls Hl _ IH]; [reflexivity | ].
  simpl. rewrite (trim_blank _ Hl). exact IH.
Qed.

Lemma split_lines_has c s :
  c <> LF -> In c s -> exists l, In l (Str.split_lines s) /\ In c l.
Proof.
  intros Hc. induction s as [ | d s IH]; simpl; [intros [] | ].
  intros [-> | Hin].
  - destruct (N.eqb_spec c LF); [contradiction | ].
    destruct (Str.split_lines s) as [ | l ls]; eexists; split;
      try (left; reflexivity); left; reflexivity.
  - destruct (IH Hin) as (l & Hl & Hcl).
    destruct (N.eqb d LF).
    + exists l. split; [right; assumption | assumption].
    + destruct (Str.split_lines s) as [ | l0 ls]; [destruct Hl | ].
      destruct Hl as [-> | Hl].
      * exists (d :: l). split; [left; reflexivity | right; assumption].
      * exists l. split; [right; assumption | assumption].
Qed.

Lemma join_lines_has c l ls :
  In l ls -> In c l -> In c (Str.join_lines ls).
Proof.
  intros Hl Hc. induction ls as [ | l0 ls IH]; [destruct Hl | ].
  cbn [Str.join_lines]. destruct ls as [ | l1 ls].
  - destruct Hl as [-> | []]. assumption.
  - apply in_or_app. destruct Hl as [-> | Hl]; [left; assumption | ].
    right. right. apply IH. assumption.
Qed.

(** Cleaning up keeps every code unit that is not white space. *)
Lemma cleanUp_keeps c s :
  is_space c = false -> In c s -> In c (cleanUp s).
Proof.
  intros Hc Hin. unfold cleanUp. apply trim_keeps; [assumption | ].
  destruct (split_lines_has c s) as (l & Hl & Hcl);
    [intros ->; discriminate | assumption | ].
  apply join_lines_has with (l := l); [ | assumption].
  apply filter_In. split; [assumption | ].
  pose proof (trim_keeps c l Hc Hcl) as Ht.
  destruct (Str.trim l); [destruct Ht | reflexivity].
Qed.

(** ** Claims about [extractExplanation] *)

Lemma extractExplanation_returns response :
  exists text,
    replace_all (S (List.length response)) anyBlockRegex 0 response = Ok text
    /\ extractExplanation response
       = Ok (if Str.truthy (cleanUp text) then cleanUp text
             else fallbackExplanation).
Proof.
  destruct (replace_all_returns anyBlockRegex (S (List.length response))
                                0 response) as [text H]; [lia | ].
  exists text. split; [assumption | ].
  unfold extractExplanation. rewrite H. reflexivity.
Qed.

Example twoFencedBlocks_onlyBlocks :
  onlyBlocks twoFencedBlocks /\
  extractExplanation twoFencedBlocks = Ok fallbackExplanation.
Proof.
  split; [ | vm_compute; reflexivity].
  unfold twoFencedBlocks. apply onlyBlocks_block.
  - apply includes_false_iff. vm_compute. reflexivity.
  - apply onlyBlocks_space; [reflexivity | ].
    rewrite <- (app_nil_r (fencedBlock _)). apply onlyBlocks_block.
    + apply includes_false_iff. vm_compute. reflexivity.
    + constructor.
Qed.

Lemma after_first_fence_eq s :
  after_first_fence s =
  if Str.startsWith fence s then Some (skipn 3 s)
  else match s with
       | [] => None
       | _ :: s' => after_first_fence s'
       end.
Proof. destruct s; reflexivity. Qed.

Lemma occurs_suffix p a b : occurs p b -> occurs p (a ++ b).
Proof.
  intros (x & y & ->). exists (a ++ x), y. apply app_assoc.
Qed.

Lemma closed_fence_found pre b :
  occurs fence b -> has_closed_fence (pre ++ fence ++ b) = true.
Proof.
  intros Hb. unfold has_closed_fence.
  induction pre as [ | c pre IH].
  - rewrite after_first_fence_eq, app_nil_l, startsWith_app.
    change (skipn 3 (fence ++ b)) with b. apply includes_iff. assumption.
  - rewrite after_first_fence_eq.
    destruct (Str.startsWith fence ((c :: pre) ++ fence ++ b)).
    + apply includes_iff. rewrite app_assoc, skipn_app.
      apply occurs_suffix.
      assert (Hf : List.length fence = 3) by reflexivity.
      replace (3 - List.length ((c :: pre) ++ fence)) with 0
        by (rewrite length_app, Hf; cbn [List.length]; lia).
      assumption.
    + exact IH.
Qed.

Lemma anyBlock_match x y :
  den anyBlockRegex x y ->
  exists body tail, rest x = fence ++ body ++ fence ++ tail.
Proof.
  unfold anyBlockRegex. cbn [den]. intros (x1 & H1 & x2 & H2 & H3).
  apply den_lit in H1. apply den_lazy_star in H2. apply den_lit in H3.
  destruct H1 as [[H1 _] _]. destruct H2 as (w & _ & [H2 _] & _).
  destruct H3 as [[H3 _] _].
  exists w, (rest y). rewrite H1, H2, H3. reflexivity.
Qed.

(** Without a closing fence no block is found. *)
Lemma search_unclosed s i :
  has_closed_fence s = false -> search anyBlockRegex i s = None.
Proof.
  intros Hc. destruct (search anyBlockRegex i s) as [[j y] | ] eqn:Hs;
    [ | reflexivity].
  apply search_sound in Hs. destruct Hs as (pre & suf & -> & _ & Hd).
  apply anyBlock_match in Hd. destruct Hd as (body & tail & Hr).
  cbn [rest] in Hr. subst suf.
  rewrite closed_fence_found in Hc; [discriminate | ].
  exists body, tail. reflexivity.
Qed.

(** C7, the claim as stated fails: the text after a fence that never
    closes is still part of the explanation. *)
Lemma C7_unclosed_block_text_stays :
  extractExplanation unclosedResponse
  = Ok (str "Done." ++ LF :: str "```js" ++ LF :: str "let x = 1;") /\
  Str.includes (str "let x = 1;")
               (str "Done." ++ LF :: str "```js" ++ LF :: str "let x = 1;")
  = true.
Proof. split; vm_compute; reflexivity. Qed.

(** C7, amended.  [extractExplanation] tolerates a fence that does not
    close: it returns, and as the removal needs a closing fence, an
    input whose first fence is followed by no other fence loses nothing
    to the removal.  The explanation is then the cleaned-up input (or
    the fallback), and holds every code unit of the input that is not
    white space, those after the open fence included. *)
Theorem C7_unclosed_block_is_kept :
  forall response,
    has_closed_fence response = false ->
    exists explanation,
      extractExplanation response = Ok explanation /\
      explanation = (if Str.truthy (cleanUp response) then cleanUp response
                     else fallbackExplanation) /\
      (forall c, In c response -> is_space c = false -> In c explanation).
Proof.
  intros response Hc. unfold extractExplanation. cbn [replace_all].
  rewrite (search_unclosed response 0 Hc). cbn [bind].
  eexists. split; [reflexivity | split; [reflexivity | ]].
  intros c Hin Hsp. pose proof (cleanUp_keeps c response Hsp Hin) as Hk.
  destruct (cleanUp response); [destruct Hk | exact Hk].
Qed.

Lemma C7_unclosed_block_is_kept_witness :
  has_closed_fence unclosedResponse = false /\
  exists explanation,
    extractExplanation unclosedResponse = Ok explanation /\
    explanation = (if Str.truthy (cleanUp unclosedResponse)
                   then cleanUp unclosedResponse
                   else fallbackExplanation) /\
    (forall c, In c unclosedResponse -> is_space c = false ->
               In c explanation).
Proof.
  split; [reflexivity | ].
  apply (C7_unclosed_block_is_kept unclosedResponse). reflexivity.
Defined.

(** ** No call raises *)

(** C8.  For every input string [parseFileChanges] and
    [extractExplanation] return a value, neither throwing nor running
    on, and [scanForSecurityIssues] returns a list of at most seven
    findings in which no finding occurs twice. *)
Theorem C8_pipeline_returns :
  forall input,
    (exists files, parseFileChanges input = Ok files) /\
    (exists explanation, extractExplanation input = Ok explanation) /\
    List.length (scanForSecurityIssues input) <= 7 /\
    (forall issue,
        count_occ jsstring_eq_dec (scanForSecurityIssues input) issue <= 1).
Proof.
  intros input. split; [ | split; [ | split]].
  - destruct (parseFileChanges_returns input) as (_ & files & _ & H & _).
    eauto.
  - destruct (extractExplanation_returns input) as (text & _ & H). eauto.
  - apply (subsequence_length _ _ _ (scan_subsequence input)).
  - apply NoDup_count_occ.
    apply (subsequence_NoDup _ _ _ (scan_subsequence input)).
    apply findings_distinct.
Qed.

(** * Further properties *)

(** ** Trimming *)

Lemma trimStart_idem s : Str.trimStart (Str.trimStart s) = Str.trimStart s.
Proof.
  induction s as [ | c s IH]; simpl; [reflexivity | ].
  destruct (is_space c) eqn:Hc; [exact IH | ]. simpl. rewrite Hc. reflexivity.
Qed.

Lemma trimStart_snoc a c :
  is_space c = false -> exists u, Str.trimStart (a ++ [c]) = u ++ [c].
Proof.
  intros Hc. induction a as [ | d a IH]; simpl.
  - rewrite Hc. exists []. reflexivity.
  - destruct (is_space d); [exact IH | ]. exists (d :: a). reflexivity.
Qed.

Lemma trimEnd_keeps_head c s :
  is_space c = false -> exists u, Str.trimEnd (c :: s) = c :: u.
Proof.
  intros Hc. unfold Str.trimEnd. simpl rev.
  destruct (trimStart_snoc (rev s) c Hc) as [u ->].
  exists (rev u). rewrite rev_app_distr. reflexivity.
Qed.

Lemma trimStart_fixed s :
  Str.trimStart s = s <-> match s with [] => True | c :: _ => is_space c = false end.
Proof.
  destruct s as [ | c s]; simpl; [tauto | ].
  destruct (is_space c) eqn:Hc; split; try tauto; try discriminate.
  intros H. exfalso.
  assert (Hl : List.length (Str.trimStart s) <= List.length s).
  { clear. induction s as [ | d s IH]; simpl; [lia | ].
    destruct (is_space d); simpl; lia. }
  rewrite H in Hl. simpl in Hl. lia.
Qed.

Lemma trim_idem s : Str.trim (Str.trim s) = Str.trim s.
Proof.
  unfold Str.trim.
  assert (Hstart : Str.trimStart (Str.trimEnd (Str.trimStart s))
                   = Str.trimEnd (Str.trimStart s)).
  { destruct (Str.trimStart s) as [ | c t] eqn:Ht; [reflexivity | ].
    assert (Hc : is_space c = false).
    { pose proof (trimStart_idem s) as Hi. rewrite Ht in Hi.
      apply trimStart_fixed in Hi. exact Hi. }
    destruct (trimEnd_keeps_head c t Hc) as [u ->].
    simpl. rewrite Hc. reflexivity. }
  rewrite Hstart. unfold Str.trimEnd at 1 2.
  rewrite rev_involutive, trimStart_idem. reflexivity.
Qed.

Lemma trim_clean_edges s : clean_edges (Str.trim s).
Proof.
  unfold clean_edges. destruct (Str.trim s) as [ | c t] eqn:Ht; [exact I | ].
  pose proof (trim_idem s) as Hi. rewrite Ht in Hi.
  unfold Str.trim in Hi. split.
  - destruct (is_space c) eqn:Hc; [ | reflexivity]. exfalso.
    assert (Hl : forall u, List.length (Str.trimStart u) <= List.length u).
    { induction u as [ | d u IH]; simpl; [lia | ].
      destruct (is_space d); simpl; lia. }
    assert (Hl' : forall u, List.length (Str.trimEnd u) <= List.length u).
    { intros u. unfold Str.trimEnd. rewrite length_rev.
      rewrite <- (length_rev u). apply Hl. }
    pose proof (Hl' (Str.trimStart (c :: t))) as H1.
    rewrite Hi in H1. simpl in H1. rewrite Hc in H1.
    pose proof (Hl t). simpl in H1. lia.
  - assert (He : Str.trimEnd (c :: t) = c :: t).
    { destruct (is_space c) eqn:Hc.
      - exfalso.
        assert (Hl : forall u, List.length (Str.trimStart u) <= List.length u).
        { induction u as [ | d u IH]; simpl; [lia | ].
          destruct (is_space d); simpl; lia. }
        assert (Hl' : forall u, List.length (Str.trimEnd u) <= List.length u).
        { intros u. unfold Str.trimEnd. rewrite length_rev.
          rewrite <- (length_rev u). apply Hl. }
        pose proof (Hl' (Str.trimStart (c :: t))) as H1.
        rewrite Hi in H1. simpl in H1. rewrite Hc in H1.
        pose proof (Hl t). simpl in H1. lia.
      - simpl in Hi. rewrite Hc in Hi. exact Hi. }
    unfold Str.trimEnd in He.
    apply (f_equal (@rev cu)) in He. rewrite rev_involutive in He.
    apply trimStart_fixed in He.
    destruct (rev (c :: t)) as [ | d r] eqn:Hr.
    + apply (f_equal (@List.length cu)) in Hr. rewrite length_rev in Hr.
      discriminate.
    + assert (Hlast : last (c :: t) c = d).
      { apply (f_equal (@rev cu)) in Hr. rewrite rev_involutive in Hr.
        rewrite Hr. simpl rev. apply last_last. }
      rewrite Hlast. exact He.
Qed.

(** ** The shape of what [parseFileChanges] returns *)

Lemma explicitBlock_pushes_trimmed m files :
  (exists header body, group 1 m = Some header /\ group 2 m = Some body) ->
  exists files',
    explicitBlock m files = Ok files' /\
    (files' = files \/
     exists f, files' = files ++ [f] /\ pushed_trimmed f).
Proof.
  intros (header & body & H1 & H2). unfold explicitBlock.
  rewrite H1, H2. cbn [trim_of bind].
  destruct (negb (Str.truthy (Str.trim header))
            || Str.includes (str " ") (Str.trim header)
               && negb (Str.startsWith (str "filepath:") (Str.trim header)));
    [eauto | ].
  set (filePath :=
         Str.trim
           (replace_first languageRegex
              (if Str.startsWith (str "filepath:") (Str.trim header)
               then Str.trim (Str.substring_from 9 (Str.trim header))
               else Str.trim header))).
  destruct (negb (Str.truthy filePath)
            || negb (Str.includes (str ".") filePath)
               && negb (Str.includes (str "/") filePath));
    [eauto | ].
  destruct (isValidFilePath filePath) eqn:Hvalid; [ | eauto].
  eexists. split; [reflexivity | ]. right. eexists. split; [reflexivity | ].
  exists body. cbn [path]. split; [reflexivity | assumption].
Qed.

Lemma simpleBlock_pushes_trimmed m files :
  (exists line body,
      group 3 m = Some line /\ In DOT line /\ group 4 m = Some body) ->
  exists files',
    simpleBlock m files = Ok files' /\
    (files' = files \/
     exists f, files' = files ++ [f] /\ pushed_trimmed f).
Proof.
  intros (line & body & H3 & _ & H4). unfold simpleBlock.
  rewrite H3, H4. cbn [trim_of bind].
  destruct (existsb (fun f => Str.eqb (path f) (Str.trim line)) files);
    [eauto | ].
  destruct (isValidFilePath (Str.trim line)) eqn:Hvalid; [ | eauto].
  eexists. split; [reflexivity | ]. right. eexists. split; [reflexivity | ].
  exists body. cbn [path]. split; [reflexivity | assumption].
Qed.

Lemma parseFileChanges_pushed_trimmed response :
  exists files,
    parseFileChanges response = Ok files /\ Forall pushed_trimmed files.
Proof.
  destruct (exec_loop_grows (fun _ f => pushed_trimmed f)
              codeBlockRegex explicitBlock
              (fun m => exists header body,
                   group 1 m = Some header /\ group 2 m = Some body)
              codeBlock_match
              (fun m files H => explicitBlock_pushes_trimmed m files H)
              (S (List.length response)) 0 response [])
    as (first & H1 & G1); [lia | ].
  destruct (exec_loop_grows (fun _ f => pushed_trimmed f)
              simpleBlockRegex simpleBlock
              (fun m => exists line body,
                   group 3 m = Some line /\ In DOT line
                   /\ group 4 m = Some body)
              simpleBlock_match
              (fun m files H => simpleBlock_pushes_trimmed m files H)
              (S (List.length response)) 0 response first)
    as (files & H2 & G2); [lia | ].
  exists files. split.
  - unfold parseFileChanges, parseFileChanges_fuel. rewrite H1. exact H2.
  - eapply grown_Forall; [ | exact G2 | ].
    + intros fs f H. exact H.
    + eapply grown_Forall; [ | exact G1 | constructor].
      intros fs f H. exact H.
Qed.

(** X1.  Every element [parseFileChanges] returns carries the action
    create and a content, and the content is trimmed: trimming it again
    changes nothing, and it neither starts nor ends with white space. *)
Theorem X1_returned_contents_are_trimmed :
  forall response,
  exists files,
    parseFileChanges response = Ok files /\
    Forall (fun f =>
              action f = create /\
              exists c,
                content f = Some c /\
                Str.trim c = c /\
                clean_edges c)
           files.
Proof.
  intros response.
  destruct (parseFileChanges_pushed_trimmed response) as (files & H & Hp).
  exists files. split; [assumption | ].
  eapply Forall_impl; [ | exact Hp].
  intros f (body & Hf & _). rewrite Hf. cbn [action content].
  split; [reflexivity | ]. exists (Str.trim body).
  split; [reflexivity | split; [apply trim_idem | apply trim_clean_edges]].
Qed.

(** X2.  The explanation [extractExplanation] returns is trimmed as
    well: it is not empty, and its first and last code units are not
    white space. *)
Theorem X2_explanation_is_trimmed :
  forall response,
  exists explanation,
    extractExplanation response = Ok explanation /\
    explanation <> [] /\
    Str.trim explanation = explanation /\
    clean_edges explanation.
Proof.
  intros response.
  destruct (extractExplanation_returns response) as (text & _ & He).
  eexists. split; [exact He | ].
  unfold cleanUp.
  set (t := Str.join_lines
              (filter (fun line => Str.truthy (Str.trim line))
                      (Str.split_lines text))).
  destruct (Str.trim t) as [ | c u] eqn:Ht; cbn [Str.truthy].
  - split; [discriminate | split; vm_compute; auto].
  - split; [discriminate | ]. rewrite <- Ht.
    split; [apply trim_idem | apply trim_clean_edges].
Qed.

(** ** Classifying again *)

Lemma determineFileActions_all_create files :
  Forall (fun f => action f = create) files ->
  determineFileActions files [] = files.
Proof.
  unfold determineFileActions. induction 1 as [ | f files Hf _ IH].
  - reflexivity.
  - cbn [map]. rewrite IH. destruct f as [p a c]. simpl in Hf. subst a.
    reflexivity.
Qed.

(** X3.  Only the last classification counts: classifying a classified
    sequence against other paths gives what classifying the original
    against those paths gives.  Against no existing path at all, what
    [parseFileChanges] returned comes back unchanged. *)
Theorem X3_classification_composes :
  (forall changes paths1 paths2,
      determineFileActions (determineFileActions changes paths1) paths2
      = determineFileActions changes paths2) /\
  (forall response,
      exists files,
        parseFileChanges response = Ok files /\
        determineFileActions files [] = files).
Proof.
  split.
  - intros changes paths1 paths2. unfold determineFileActions.
    rewrite map_map. reflexivity.
  - intros response.
    destruct (parseFileChanges_pushed_trimmed response) as (files & H & Hp).
    exists files. split; [assumption | ].
    apply determineFileActions_all_create.
    eapply Forall_impl; [ | exact Hp].
    intros f (body & Hf & _). rewrite Hf. reflexivity.
Qed.

(** ** Patterns without anchors

    For a pattern without [^] and [$], [test] asks whether some part of
    the input is a word of the pattern. *)

Lemma lang_moves_min a gs n : forall x y,
    (forall x y, den a x y -> exists w, moved w x y /\ lang a w) ->
    iter_min (den a) gs n x y ->
    exists ws, moved (List.concat ws) x y /\ Forall (lang a) ws
               /\ List.length ws = n.
Proof.
  intros x y Ha. induction 1 as [x | n x y z HR _ (ws & Hm & Hf & Hl)].
  - exists []. simpl. auto using moved_refl.
  - destruct (Ha _ _ HR) as (w & Hw & Hlw). exists (w :: ws). simpl.
    split; [ | split; [constructor; assumption | lia]].
    eapply moved_trans; [ | exact Hm]. exact Hw.
Qed.

Lemma lang_moves_opt a gs b : forall x y,
    (forall x y, den a x y -> exists w, moved w x y /\ lang a w) ->
    iter_opt (den a) gs b x y ->
    exists ws, moved (List.concat ws) x y /\ Forall (lang a) ws
               /\ match b with
                  | Some k => List.length ws <= k
                  | None => True
                  end.
Proof.
  intros x y Ha. induction 1 as [b x | b x y z Hb HR _ _ (ws & Hm & Hf & Hl)].
  - exists []. simpl. split; [apply moved_refl | split; [constructor | ]].
    destruct b; [lia | exact I].
  - destruct (Ha _ _ HR) as (w & Hw & Hlw). exists (w :: ws). simpl.
    split; [eapply moved_trans; [exact Hw | exact Hm] | ].
    split; [constructor; assumption | ].
    destruct b as [k | ]; [ | exact I]. simpl in Hl.
    destruct k; [congruence | simpl in Hl; lia].
Qed.

Lemma den_lang r : forall x y,
    anchor_free r = true -> den r x y -> exists w, moved w x y /\ lang r w.
Proof.
  induction r as [ | p | a IHa b IHb | a IHa b IHb | g mn mx a IHa
                 | i a IHa | | ]; cbn [den lang anchor_free];
    intros x y Hfree H; try discriminate.
  - subst. exists []. split; [apply moved_refl | reflexivity].
  - destruct H as (c & s & Hr & Hp & ->). exists [c]. split; [ | eauto].
    split; simpl; [rewrite Hr; reflexivity | lia].
  - apply andb_prop in Hfree. destruct Hfree as [Fa Fb].
    destruct H as (y0 & H1 & H2).
    destruct (IHa _ _ Fa H1) as (u & Mu & Lu).
    destruct (IHb _ _ Fb H2) as (v & Mv & Lv).
    exists (u ++ v). split; [eapply moved_trans; eauto | eauto].
  - apply andb_prop in Hfree. destruct Hfree as [Fa Fb].
    destruct H as [H | H].
    + destruct (IHa _ _ Fa H) as (w & Mw & Lw). eauto.
    + destruct (IHb _ _ Fb H) as (w & Mw & Lw). eauto.
  - destruct H as (y0 & H1 & H2).
    destruct (lang_moves_min a (groups_of a) mn x y0
                (fun x y => IHa x y Hfree) H1) as (ws1 & M1 & F1 & L1).
    destruct (lang_moves_opt a (groups_of a) _ y0 y
                (fun x y => IHa x y Hfree) H2) as (ws2 & M2 & F2 & L2).
    exists (List.concat ws1 ++ List.concat ws2).
    split; [eapply moved_trans; eauto | ].
    exists (ws1 ++ ws2). rewrite concat_app, length_app.
    split; [reflexivity | split; [apply Forall_app; auto | ]].
    split; [lia | ]. destruct mx as [b | ]; simpl in *; [lia | exact I].
  - destruct H as (y0 & H1 & ->).
    destruct (IHa _ _ Hfree H1) as (w & Mw & Lw). exists w. auto.
Qed.

Lemma lang_den_min a gs :
  (forall w x s', rest x = w ++ s' -> lang a w ->
                  exists y, den a x y /\ reaches w s' x y) ->
  forall ws x s',
    rest x = List.concat ws ++ s' -> Forall (lang a) ws ->
    exists y, iter_min (den a) gs (List.length ws) x y
              /\ reaches (List.concat ws) s' x y.
Proof.
  intros Ha. induction ws as [ | w ws IH]; intros x s' Hr Hf.
  - exists x. split; [constructor | ]. split; simpl in *; [assumption | lia].
  - inversion Hf as [ | ? ? Hw Hws]; subst. simpl in Hr.
    rewrite <- app_assoc in Hr.
    destruct (Ha w (cleared gs x) (List.concat ws ++ s') Hr Hw)
      as (y1 & Hd & Hr1 & Hp1).
    destruct (IH y1 s' Hr1 Hws) as (y & Hi & Hr2 & Hp2).
    exists y. split; [econstructor; eauto | ].
    split; [assumption | ]. simpl in *. rewrite length_app. lia.
Qed.

Lemma lang_den_opt a gs :
  (forall w x s', rest x = w ++ s' -> lang a w ->
                  exists y, den a x y /\ reaches w s' x y) ->
  forall ws b x s',
    rest x = List.concat ws ++ s' -> Forall (lang a) ws ->
    match b with Some k => List.length ws <= k | None => True end ->
    exists y, iter_opt (den a) gs b x y /\ reaches (List.concat ws) s' x y.
Proof.
  intros Ha. induction ws as [ | w ws IH]; intros b x s' Hr Hf Hb.
  - exists x. split; [constructor | ]. split; simpl in *; [assumption | lia].
  - inversion Hf as [ | ? ? Hw Hws]; subst. simpl in Hr.
    destruct w as [ | c w].
    + destruct (IH b x s' Hr Hws) as (y & Hi & Hy).
      * destruct b; simpl in *; [lia | exact I].
      * exists y. split; assumption.
    + rewrite <- app_assoc in Hr.
      destruct (Ha (c :: w) (cleared gs x) (List.concat ws ++ s') Hr Hw)
        as (y1 & Hd & Hr1 & Hp1).
      destruct (IH (option_map pred b) y1 s' Hr1 Hws) as (y & Hi & Hr2 & Hp2).
      * destruct b as [k | ]; simpl in *; [lia | exact I].
      * exists y. split.
        -- eapply iter_opt_step; eauto.
           ++ destruct b as [k | ]; [ | discriminate]. simpl in Hb.
              intros [= ->]. lia.
           ++ simpl in Hp1. lia.
        -- split; [assumption | ]. simpl in *. rewrite length_app.
           simpl. lia.
Qed.

Lemma lang_den r : forall w x s',
    rest x = w ++ s' -> lang r w ->
    exists y, den r x y /\ reaches w s' x y.
Proof.
  unfold reaches.
  induction r as [ | p | a IHa b IHb | a IHa b IHb | g mn mx a IHa
                 | i a IHa | | ]; cbn [den lang]; intros w x s' Hr H;
    try contradiction.
  - subst w. exists x. simpl in *. repeat split; auto.
  - destruct H as (c & -> & Hp). exists (advance x). simpl in Hr.
    split; [exists c, s'; auto | ].
    simpl. rewrite Hr. split; [reflexivity | lia].
  - destruct H as (u & v & -> & Hu & Hv). rewrite <- app_assoc in Hr.
    destruct (IHa u x (v ++ s') Hr Hu) as (y1 & H1 & Hr1 & Hp1).
    destruct (IHb v y1 s' Hr1 Hv) as (y & H2 & Hr2 & Hp2).
    exists y. split; [eauto | ]. split; [assumption | ].
    rewrite length_app. lia.
  - destruct H as [H | H].
    + destruct (IHa w x s' Hr H) as (y & Hd & Hy). eauto.
    + destruct (IHb w x s' Hr H) as (y & Hd & Hy). eauto.
  - destruct H as (ws & -> & Hf & Hmn & Hmx).
    rewrite <- (firstn_skipn mn ws) in Hr, Hf |- *.
    rewrite concat_app in Hr |- *. rewrite <- app_assoc in Hr.
    apply Forall_app in Hf. destruct Hf as [F1 F2].
    destruct (lang_den_min a (groups_of a) IHa (firstn mn ws) x _ Hr F1)
      as (y1 & Hi1 & Hr1 & Hp1).
    rewrite length_firstn, Nat.min_l in Hi1 by assumption.
    destruct (lang_den_opt a (groups_of a) IHa (skipn mn ws)
                (option_map (fun b => b - mn) mx) y1 s' Hr1 F2)
      as (y & Hi2 & Hr2 & Hp2).
    { destruct mx as [b | ]; simpl; [ | exact I].
      rewrite length_skipn. lia. }
    exists y. split; [eauto | ]. split; [assumption | ].
    rewrite length_app. lia.
  - destruct (IHa w x s' Hr H) as (y & Hd & Hr1 & Hp1).
    exists (close_group i x y). split; [eauto | ]. simpl. auto.
Qed.

Lemma test_has_word r s :
  anchor_free r = true -> (test r s = true <-> has_word r s).
Proof.
  intros Hfree. rewrite test_true_iff. unfold has_word. split.
  - intros (pre & suf & y & -> & Hd).
    destruct (den_lang r _ _ Hfree Hd) as (w & [Hr _] & Hw).
    simpl in Hr. exists pre, w, (rest y). rewrite Hr. auto.
  - intros (pre & w & post & -> & Hw).
    destruct (lang_den r w (MState (List.length pre) (w ++ post) [])
                       post eq_refl Hw) as (y & Hd & _).
    exists pre, (w ++ post), y. auto.
Qed.

Lemma has_word_inside r a s b : has_word r s -> has_word r (a ++ s ++ b).
Proof.
  intros (pre & w & post & -> & Hw).
  exists (a ++ pre), w, (post ++ b). split; [ | assumption].
  rewrite <- !app_assoc. reflexivity.
Qed.

Lemma lang_lit s : forall w, lang (lit s) w <-> w = s.
Proof.
  induction s as [ | c s IH]; intros w; [simpl; tauto | ].
  assert (Hone : forall w, lang (Char (chr c)) w <-> w = [c]).
  { intros u. simpl. unfold chr. split.
    - intros (d & -> & Hd). apply N.eqb_eq in Hd. subst. reflexivity.
    - intros ->. exists c. split; [reflexivity | apply N.eqb_refl]. }
  destruct s as [ | c' s]; [apply Hone | ].
  change (lang (lit (c :: c' :: s)) w)
    with (exists u v, w = u ++ v /\ lang (Char (chr c)) u
                      /\ lang (lit (c' :: s)) v).
  split.
  - intros (u & v & -> & Hu & Hv). apply Hone in Hu. apply IH in Hv.
    subst. reflexivity.
  - intros ->. exists [c], (c' :: s). split; [reflexivity | ].
    split; [apply Hone | apply IH]; reflexivity.
Qed.

Lemma lang_lit_ci s : forall w, lang (lit_ci s) w <-> same_ci w s.
Proof.
  unfold same_ci.
  induction s as [ | c s IH]; intros w.
  - simpl. split; [intros ->; reflexivity | ].
    destruct w; [reflexivity | discriminate].
  - assert (Hone : forall w, lang (Char (chr_ci c)) w
                             <-> map upcase w = [upcase c]).
    { intros u. simpl. unfold chr_ci. split.
      - intros (d & -> & Hd). apply N.eqb_eq in Hd. simpl. congruence.
      - destruct u as [ | d [ | ? ?]]; try discriminate.
        intros [= Hd]. exists d. split; [reflexivity | ].
        apply N.eqb_eq. assumption. }
    destruct s as [ | c' s]; [apply Hone | ].
    change (lang (lit_ci (c :: c' :: s)) w)
      with (exists u v, w = u ++ v /\ lang (Char (chr_ci c)) u
                        /\ lang (lit_ci (c' :: s)) v).
    split.
    + intros (u & v & -> & Hu & Hv). apply Hone in Hu. apply IH in Hv.
      rewrite map_app, Hu, Hv. reflexivity.
    + intros H. destruct w as [ | d w]; [discriminate | ].
      change (map upcase (d :: w)) with (upcase d :: map upcase w) in H.
      change (map upcase (c :: c' :: s))
        with (upcase c :: map upcase (c' :: s)) in H.
      injection H as Hd Hw.
      exists [d], w. split; [reflexivity | ].
      split; [apply Hone; simpl; congruence | apply IH; assumption].
Qed.

Lemma singletons_concat (w : jsstring) :
  List.concat (map (fun c => [c]) w) = w.
Proof. induction w as [ | c w IH]; simpl; congruence. Qed.

(** A repeated character class. *)
Lemma lang_rep_class g mn mx p w :
  lang (Rep g mn mx (Char p)) w <->
  forallb p w = true /\ mn <= List.length w /\
  match mx with
  | Some b => List.length w <= mn + (b - mn)
  | None => True
  end.
Proof.
  cbn [lang]. split.
  - intros (ws & -> & Hf & Hmn & Hmx).
    assert (H : forallb p (List.concat ws) = true
                /\ List.length (List.concat ws) = List.length ws).
    { clear Hmn Hmx. induction Hf as [ | u ws (c & -> & Hc) _ [IH1 IH2]].
      - split; reflexivity.
      - simpl. rewrite Hc, IH1, IH2. split; reflexivity. }
    destruct H as [H1 H2]. rewrite H2. auto.
  - intros (Hp & Hmn & Hmx). exists (map (fun c => [c]) w).
    rewrite singletons_concat, length_map.
    split; [reflexivity | split; [ | split; assumption]].
    apply Forall_forall. intros u Hu. apply in_map_iff in Hu.
    destruct Hu as (c & <- & Hc). exists c. split; [reflexivity | ].
    rewrite forallb_forall in Hp. auto.
Qed.

Lemma lang_plus p w :
  lang (plus (Char p)) w <-> w <> [] /\ forallb p w = true.
Proof.
  unfold plus. rewrite lang_rep_class. split.
  - intros (Hp & Hl & _). split; [ | assumption].
    intros ->. simpl in Hl. lia.
  - intros [Hne Hp]. split; [assumption | split; [ | exact I]].
    destruct w; [congruence | simpl; lia].
Qed.

Lemma lang_star p w : lang (star (Char p)) w <-> forallb p w = true.
Proof.
  unfold star. rewrite lang_rep_class. split.
  - intros (Hp & _). assumption.
  - intros Hp. split; [assumption | split; [lia | exact I]].
Qed.

Lemma lang_exactly n p w :
  lang (exactly n (Char p)) w <->
  List.length w = n /\ forallb p w = true.
Proof.
  unfold exactly. rewrite lang_rep_class. split.
  - intros (Hp & H1 & H2). split; [lia | assumption].
  - intros [Hl Hp]. split; [assumption | lia].
Qed.

Lemma one_of_two a b c : one_of [a; b] c = true <-> c = a \/ c = b.
Proof.
  unfold one_of. simpl. rewrite !orb_true_iff, !N.eqb_eq.
  intuition discriminate.
Qed.

(** ** What the scanner reports *)

Lemma categories_distinct : NoDup categoryNames.
Proof.
  unfold categoryNames.
  repeat (constructor; [simpl; intuition discriminate | ]). constructor.
Qed.

Lemma same_name_same_pattern (l : list (regex * jsstring)) r1 r2 name :
  NoDup (map snd l) -> In (r1, name) l -> In (r2, name) l -> r1 = r2.
Proof.
  induction l as [ | [r n] l IH]; simpl; intros Hnd H1 H2; [contradiction | ].
  inversion Hnd as [ | ? ? Hnin Hnd']; subst.
  destruct H1 as [[= -> ->] | H1]; destruct H2 as [[= -> ] | H2].
  - reflexivity.
  - exfalso. apply Hnin. apply in_map_iff. exists (r2, name). auto.
  - subst. exfalso. apply Hnin. apply in_map_iff. exists (r1, name). auto.
  - auto.
Qed.

(** A category is reported exactly when its pattern matches. *)
Lemma finding_reported r name code :
  In (r, name) patterns ->
  (In (finding name) (scanForSecurityIssues code) <-> test r code = true).
Proof.
  intros Hin. unfold scanForSecurityIssues.
  rewrite scan_loop_filter, app_nil_l, in_map_iff. split.
  - intros ([r' n'] & Hf & Hp). apply filter_In in Hp.
    destruct Hp as [Hp Ht]. cbn [fst snd] in *.
    apply finding_injective in Hf. subst n'.
    assert (r' = r).
    { apply (same_name_same_pattern patterns r' r name); try assumption.
      rewrite patterns_names. apply categories_distinct. }
    subst. assumption.
  - intros Ht. exists (r, name). split; [reflexivity | ].
    apply filter_In. auto.
Qed.

Lemma subsequence_filter_weaker (A B : Type) (f : A -> B)
      (sel1 sel2 : A -> bool) l :
  (forall x, In x l -> sel1 x = true -> sel2 x = true) ->
  subsequence (map f (filter sel1 l)) (map f (filter sel2 l)).
Proof.
  induction l as [ | x l IH]; intros H; simpl; [constructor | ].
  assert (IH' : subsequence (map f (filter sel1 l)) (map f (filter sel2 l))).
  { apply IH. intros y Hy. apply H. right. assumption. }
  destruct (sel1 x) eqn:E1.
  - rewrite (H x (or_introl eq_refl) E1). simpl.
    apply subsequence_keep. assumption.
  - destruct (sel2 x); simpl; [apply subsequence_skip | ]; assumption.
Qed.

Lemma patterns_anchor_free :
  forallb (fun p => anchor_free (fst p)) patterns = true.
Proof. vm_compute. reflexivity. Qed.

Lemma scan_monotone before code after :
  subsequence (scanForSecurityIssues code)
              (scanForSecurityIssues (before ++ code ++ after)).
Proof.
  unfold scanForSecurityIssues.
  rewrite !scan_loop_filter, !app_nil_l.
  apply subsequence_filter_weaker. intros [r n] Hin Ht. cbn [fst snd] in *.
  pose proof patterns_anchor_free as Hfree.
  rewrite forallb_forall in Hfree. specialize (Hfree _ Hin).
  cbn [fst] in Hfree.
  apply (test_has_word r _ Hfree). apply has_word_inside.
  apply (test_has_word r _ Hfree). assumption.
Qed.

(** X4.  Scanning is monotone in the text: whatever is reported for a
    piece of code is reported, in the same order, for every text that
    contains the piece. *)
Theorem X4_scan_is_monotone :
  forall before code after,
    subsequence (scanForSecurityIssues code)
                (scanForSecurityIssues (before ++ code ++ after)).
Proof. exact scan_monotone. Qed.

Lemma stripe_in_patterns : In (stripeKeyRegex, str "Stripe key") patterns.
Proof. do 3 right. left. reflexivity. Qed.

Lemma aws_in_patterns : In (awsKeyRegex, str "AWS access key") patterns.
Proof. do 4 right. left. reflexivity. Qed.

Lemma github_in_patterns : In (githubTokenRegex, str "GitHub token") patterns.
Proof. do 5 right. left. reflexivity. Qed.

Lemma password_in_patterns : In (passwordRegex, str "Password") patterns.
Proof. do 2 right. left. reflexivity. Qed.

Lemma lang_stripe w :
  lang stripeKeyRegex w <->
  exists s1 env s2 v,
    w = str "sk" ++ s1 :: env ++ s2 :: v /\
    (s1 = DASH \/ s1 = UNDERSCORE) /\
    (env = str "live" \/ env = str "test") /\
    (s2 = DASH \/ s2 = UNDERSCORE) /\
    v <> [] /\ forallb is_alnum v = true.
Proof.
  unfold stripeKeyRegex. cbn [lang]. split.
  - intros (u1 & r1 & -> & H1 & u2 & r2 & -> & (s1 & -> & Hs1)
            & u3 & r3 & -> & H3 & u4 & v & -> & (s2 & -> & Hs2) & Hv).
    apply lang_lit in H1. subst u1.
    apply one_of_two in Hs1. apply one_of_two in Hs2.
    apply lang_plus in Hv. destruct Hv as [Hne Hv].
    exists s1, u3, s2, v. rewrite !lang_lit in H3.
    repeat split; auto.
  - intros (s1 & env & s2 & v & -> & Hs1 & Henv & Hs2 & Hne & Hv).
    exists (str "sk"), (s1 :: env ++ s2 :: v).
    split; [reflexivity | split; [apply lang_lit; reflexivity | ]].
    exists [s1], (env ++ s2 :: v).
    split; [reflexivity | split; [exists s1; split; [reflexivity | ] | ]].
    { apply one_of_two. assumption. }
    exists env, (s2 :: v).
    split; [reflexivity | split; [rewrite !lang_lit; assumption | ]].
    exists [s2], v.
    split; [reflexivity | split; [exists s2; split; [reflexivity | ] | ]].
    { apply one_of_two. assumption. }
    apply lang_plus. auto.
Qed.

Lemma lang_prefixed_token prefix n p w :
  lang (lit prefix ~> exactly n (Char p))%re w <->
  exists v, w = prefix ++ v /\ List.length v = n /\ forallb p v = true.
Proof.
  cbn [lang]. split.
  - intros (u & v & -> & Hu & Hv). apply lang_lit in Hu.
    apply lang_exactly in Hv. subst u. eauto.
  - intros (v & -> & Hv). exists prefix, v.
    split; [reflexivity | split; [apply lang_lit; reflexivity | ]].
    apply lang_exactly. assumption.
Qed.

(** X5.  The three token categories are exact.  A Stripe key is
    reported exactly when the code holds [sk], a dash or underscore,
    [live] or [test], a dash or underscore and an alphanumeric character
    in a row; an AWS access key exactly when it holds [AKIA] followed by
    16 digits or capital letters; a GitHub token exactly when it holds
    [ghp_] followed by 36 alphanumeric characters. *)
Theorem X5_token_categories_are_exact :
  forall code,
    (In (finding (str "Stripe key")) (scanForSecurityIssues code) <->
     exists pre s1 env s2 c post,
       code = pre ++ str "sk" ++ s1 :: env ++ s2 :: c :: post /\
       (s1 = DASH \/ s1 = UNDERSCORE) /\
       (env = str "live" \/ env = str "test") /\
       (s2 = DASH \/ s2 = UNDERSCORE) /\
       is_alnum c = true) /\
    (In (finding (str "AWS access key")) (scanForSecurityIssues code) <->
     exists pre key post,
       code = pre ++ str "AKIA" ++ key ++ post /\
       List.length key = 16 /\
       forallb (fun c => is_digit c || is_upper c) key = true) /\
    (In (finding (str "GitHub token")) (scanForSecurityIssues code) <->
     exists pre token post,
       code = pre ++ str "ghp_" ++ token ++ post /\
       List.length token = 36 /\
       forallb is_alnum token = true).
Proof.
  intros code. split; [ | split].
  - rewrite (finding_reported _ _ code stripe_in_patterns).
    rewrite test_has_word by reflexivity. unfold has_word. split.
    + intros (pre & w & post & -> & Hw). apply lang_stripe in Hw.
      destruct Hw as (s1 & env & s2 & v & -> & Hs1 & Henv & Hs2 & Hne & Hv).
      destruct v as [ | c v]; [congruence | ].
      simpl in Hv. apply andb_prop in Hv. destruct Hv as [Hc _].
      exists pre, s1, env, s2, c, (v ++ post).
      split; [ | auto].
      rewrite <- !app_assoc. simpl. rewrite <- !app_assoc. reflexivity.
    + intros (pre & s1 & env & s2 & c & post & -> & Hs1 & Henv & Hs2 & Hc).
      exists pre, (str "sk" ++ s1 :: env ++ s2 :: [c]), post. split.
      * rewrite <- !app_assoc. simpl. rewrite <- !app_assoc. reflexivity.
      * apply lang_stripe. exists s1, env, s2, [c].
        repeat split; auto; [discriminate | simpl; rewrite Hc; reflexivity].
  - rewrite (finding_reported _ _ code aws_in_patterns).
    rewrite test_has_word by reflexivity. unfold has_word, awsKeyRegex.
    split.
    + intros (pre & w & post & -> & Hw). apply lang_prefixed_token in Hw.
      destruct Hw as (v & -> & Hl & Hv). exists pre, v, post.
      rewrite <- !app_assoc. auto.
    + intros (pre & v & post & -> & Hl & Hv).
      exists pre, (str "AKIA" ++ v), post.
      split; [rewrite <- !app_assoc; reflexivity | ].
      apply lang_prefixed_token. eauto.
  - rewrite (finding_reported _ _ code github_in_patterns).
    rewrite test_has_word by reflexivity. unfold has_word, githubTokenRegex.
    split.
    + intros (pre & w & post & -> & Hw). apply lang_prefixed_token in Hw.
      destruct Hw as (v & -> & Hl & Hv). exists pre, v, post.
      rewrite <- !app_assoc. auto.
    + intros (pre & v & post & -> & Hl & Hv).
      exists pre, (str "ghp_" ++ v), post.
      split; [rewrite <- !app_assoc; reflexivity | ].
      apply lang_prefixed_token. eauto.
Qed.

Lemma lang_password w :
  lang passwordRegex w <->
  exists word ws1 sep ws2 q1 v q2,
    w = word ++ ws1 ++ sep :: ws2 ++ q1 :: v ++ [q2] /\
    same_ci word (str "password") /\
    blank ws1 /\ (sep = COLON \/ sep = EQUALS) /\ blank ws2 /\
    (q1 = SQUOTE \/ q1 = DQUOTE) /\
    v <> [] /\ forallb not_quote v = true /\
    (q2 = SQUOTE \/ q2 = DQUOTE).
Proof.
  unfold passwordRegex, blank, quote, colon_or_equals. cbn [lang]. split.
  - intros (word & r1 & -> & Hword & ws1 & r2 & -> & Hws1
            & u3 & r3 & -> & (sep & -> & Hsep) & ws2 & r4 & -> & Hws2
            & u5 & r5 & -> & (q1 & -> & Hq1) & v & u7 & -> & Hv
            & (q2 & -> & Hq2)).
    apply lang_lit_ci in Hword. apply lang_star in Hws1.
    apply lang_star in Hws2. apply lang_plus in Hv. destruct Hv as [Hne Hv].
    apply one_of_two in Hsep. apply one_of_two in Hq1.
    apply one_of_two in Hq2.
    exists word, ws1, sep, ws2, q1, v, q2. repeat split; auto.
  - intros (word & ws1 & sep & ws2 & q1 & v & q2 & -> & Hword & Hws1 & Hsep
            & Hws2 & Hq1 & Hne & Hv & Hq2).
    exists word, (ws1 ++ sep :: ws2 ++ q1 :: v ++ [q2]).
    split; [reflexivity | split; [apply lang_lit_ci; assumption | ]].
    exists ws1, (sep :: ws2 ++ q1 :: v ++ [q2]).
    split; [reflexivity | split; [apply lang_star; assumption | ]].
    exists [sep], (ws2 ++ q1 :: v ++ [q2]).
    split; [reflexivity | split; [exists sep; split; [reflexivity | ] | ]].
    { apply one_of_two. assumption. }
    exists ws2, (q1 :: v ++ [q2]).
    split; [reflexivity | split; [apply lang_star; assumption | ]].
    exists [q1], (v ++ [q2]).
    split; [reflexivity | split; [exists q1; split; [reflexivity | ] | ]].
    { apply one_of_two. assumption. }
    exists v, [q2].
    split; [reflexivity | split; [apply lang_plus; auto | ]].
    exists q2. split; [reflexivity | apply one_of_two; assumption].
Qed.

(** X6.  A password is reported exactly when the code holds the word
    password in any mix of cases, optional white space, a colon or an
    equals sign, optional white space, and a non-empty run of characters
    other than quotes between two quote characters; the opening and the
    closing quote need not be of the same kind. *)
Theorem X6_password_category_is_exact :
  forall code,
    In (finding (str "Password")) (scanForSecurityIssues code) <->
    exists pre word ws1 sep ws2 q1 v q2 post,
      code = pre ++ word ++ ws1 ++ sep :: ws2 ++ q1 :: v ++ q2 :: post /\
      same_ci word (str "password") /\
      blank ws1 /\ (sep = COLON \/ sep = EQUALS) /\ blank ws2 /\
      (q1 = SQUOTE \/ q1 = DQUOTE) /\
      v <> [] /\ forallb not_quote v = true /\
      (q2 = SQUOTE \/ q2 = DQUOTE).
Proof.
  intros code.
  rewrite (finding_reported _ _ code password_in_patterns).
  rewrite test_has_word by reflexivity. unfold has_word. split.
  - intros (pre & w & post & -> & Hw). apply lang_password in Hw.
    destruct Hw as (word & ws1 & sep & ws2 & q1 & v & q2 & -> & H).
    exists pre, word, ws1, sep, ws2, q1, v, q2, post. split; [ | exact H].
    repeat (rewrite <- ?app_assoc; simpl). reflexivity.
  - intros (pre & word & ws1 & sep & ws2 & q1 & v & q2 & post & -> & H).
    exists pre, (word ++ ws1 ++ sep :: ws2 ++ q1 :: v ++ [q2]), post. split.
    + repeat (rewrite <- ?app_assoc; simpl). reflexivity.
    + apply lang_password. exists word, ws1, sep, ws2, q1, v, q2.
      split; [reflexivity | exact H].
Qed.

(** ** The providers *)

(** What the loop over the chunks does: it calls [onToken] with the
    tokens, in order, up to the first call that throws. *)
Lemma consume_spec cb chunks : forall fullResponse calls,
    exists tokens,
      is_prefix_of tokens (deltas chunks) /\
      snd (fst (consume cb chunks fullResponse calls))
      = calls ++ map onToken tokens /\
      (snd (consume cb chunks fullResponse calls) = None ->
       fst (fst (consume cb chunks fullResponse calls))
       = fullResponse ++ List.concat (deltas chunks) /\
       (has_onToken cb = true -> tokens = deltas chunks)) /\
      (has_onToken cb = false -> tokens = []) /\
      (quiet cb -> snd (consume cb chunks fullResponse calls) = None).
Proof.
  induction chunks as [ | [content | ] chunks IH]; intros fullResponse calls;
    cbn [consume deltas].
  - exists []. cbn [fst snd map List.concat]. rewrite !app_nil_r.
    repeat split; auto. exists []. reflexivity.
  - destruct (Str.truthy content); [ | apply IH].
    destruct (has_onToken cb) eqn:Ht.
    + destruct (throws cb (calls ++ [onToken content])) as [e | ] eqn:He.
      * exists [content]. cbn [fst snd map].
        repeat split; try discriminate.
        -- exists (deltas chunks). reflexivity.
        -- intros Hq. rewrite Hq in He. discriminate.
      * destruct (IH (fullResponse ++ content) (calls ++ [onToken content]))
          as (tokens & [rst Hp] & Hc & Hn & Hf & Hq).
        exists (content :: tokens). repeat split.
        -- exists rst. rewrite Hp. reflexivity.
        -- rewrite Hc, <- app_assoc. reflexivity.
        -- destruct (Hn H) as [Hn1 _]. rewrite Hn1.
           cbn [List.concat]. rewrite <- app_assoc. reflexivity.
        -- intros _. destruct (Hn H) as [_ Hn2]. rewrite Hn2; reflexivity.
        -- discriminate.
        -- exact Hq.
    + destruct (IH (fullResponse ++ content) calls)
        as (tokens & [rst Hp] & Hc & Hn & Hf & Hq).
      exists []. rewrite (Hf eq_refl) in Hc. repeat split.
      * exists (content :: deltas chunks). reflexivity.
      * exact Hc.
      * destruct (Hn H) as [Hn1 _]. rewrite Hn1.
        cbn [List.concat]. rewrite <- app_assoc. reflexivity.
      * discriminate.
      * exact Hq.
  - apply IH.
Qed.

Lemma generated_returns model responseText tokens :
  exists files explanation,
    parseFileChanges responseText = Ok files /\
    extractExplanation responseText = Ok explanation /\
    generated model responseText tokens
    = Ok (mkGenerationResult
            true responseText files
            (if 0 <? List.length (scanForSecurityIssues (allCode files))
             then explanation ++ LF :: LF :: str "Warning: "
                  ++ join_with (str ", ")
                               (scanForSecurityIssues (allCode files))
             else explanation)
            tokens model None).
Proof.
  destruct (parseFileChanges_returns responseText)
    as (_ & files & _ & Hf & _).
  destruct (extractExplanation_returns responseText) as (text & _ & He).
  exists files. eexists. split; [exact Hf | split; [exact He | ]].
  unfold generated. rewrite Hf. cbn [bind]. rewrite He. reflexivity.
Qed.

(** X7.  Once the response text is there, [generate] never takes its
    [catch] branch: it returns a result with [success] set and no
    error, holding the text, the files [parseFileChanges] extracts from
    it, and an explanation that starts with what [extractExplanation]
    returns and is exactly that when the scan of the extracted contents
    reports nothing. *)
Theorem X7_generate_succeeds :
  forall model message responseText tokens,
  exists r files explanation,
    generate model message responseText tokens = Ok r /\
    r_success r = true /\ r_error r = None /\
    r_response r = responseText /\
    parseFileChanges responseText = Ok files /\ r_files r = files /\
    extractExplanation responseText = Ok explanation /\
    is_prefix explanation (r_explanation r) /\
    (scanForSecurityIssues (allCode files) = [] ->
     r_explanation r = explanation).
Proof.
  intros model message responseText tokens.
  destruct (generated_returns model responseText tokens)
    as (files & explanation & Hf & He & Hg).
  eexists. exists files, explanation. unfold generate. rewrite Hg.
  split; [reflexivity | ]. cbn [r_success r_error r_response r_files
                                r_explanation].
  repeat split; try assumption.
  - destruct (0 <? List.length (scanForSecurityIssues (allCode files))).
    + eexists. reflexivity.
    + exists []. symmetry. apply app_nil_r.
  - intros ->. reflexivity.
Qed.

Lemma X7_generate_succeeds_witness :
  scanForSecurityIssues (allCode []) = [] /\
  exists r,
    generate (str "gpt-4-turbo-preview") (str "failed") (str "Done.")
             (mkTokensUsed 1 2 3) = Ok r /\
    r_explanation r = str "Done.".
Proof.
  split; [vm_compute; reflexivity | ].
  destruct (X7_generate_succeeds (str "gpt-4-turbo-preview") (str "failed")
                                 (str "Done.") (mkTokensUsed 1 2 3))
    as (r & files & explanation & Hg & _ & _ & _ & Hp & _ & He & _ & Hs).
  exists r. split; [exact Hg | ].
  vm_compute in Hp. injection Hp as <-.
  vm_compute in He. injection He as <-.
  rewrite Hs; vm_compute; reflexivity.
Defined.

Lemma app_eq_self (A : Type) (l t : list A) : l ++ t = l -> t = [].
Proof.
  intros H. apply (f_equal (@List.length A)) in H.
  rewrite length_app in H. destruct t; [reflexivity | simpl in H; lia].
Qed.

Lemma streamed_returns model messages text :
  exists files explanation,
    parseFileChanges text = Ok files /\
    extractExplanation text = Ok explanation /\
    streamed model messages text
    = Ok (streamedResult model messages text files explanation).
Proof.
  destruct (parseFileChanges_returns text) as (_ & files & _ & Hf & _).
  destruct (extractExplanation_returns text) as (t & _ & He).
  exists files. eexists. split; [exact Hf | split; [exact He | ]].
  unfold streamed. rewrite Hf. cbn [bind]. rewrite He. reflexivity.
Qed.

(** When the stream ends and no call throws, [onComplete] gets the
    result for the tokens put together. *)
Lemma generateStream_quiet model message messages chunks cb :
  quiet cb -> has_onComplete cb = true ->
  exists files explanation,
    parseFileChanges (List.concat (deltas chunks)) = Ok files /\
    extractExplanation (List.concat (deltas chunks)) = Ok explanation /\
    generateStream model message messages (Streams chunks None) cb
    = Ok (map onToken (if has_onToken cb then deltas chunks else [])
          ++ [onComplete
                (streamedResult model messages (List.concat (deltas chunks))
                                files explanation)],
          None).
Proof.
  intros Hquiet Hcomp.
  destruct (streamed_returns model messages (List.concat (deltas chunks)))
    as (files & explanation & Hf & He & Hs).
  exists files, explanation. split; [exact Hf | split; [exact He | ]].
  unfold generateStream, tryStream.
  destruct (consume_spec cb chunks [] [])
    as (tokens & _ & Hc & Hn & Hno & Hq).
  destruct (consume cb chunks [] []) as [[full calls] thrown].
  cbn [fst snd app] in *. rewrite (Hq Hquiet) in *.
  destruct (Hn eq_refl) as [-> Htok]. subst calls.
  rewrite Hs, Hcomp, Hquiet.
  destruct (has_onToken cb).
  - rewrite (Htok eq_refl). reflexivity.
  - rewrite (Hno eq_refl). reflexivity.
Qed.

Lemma listening_quiet : quiet listening.
Proof. intros calls. reflexivity. Qed.





(** X9.  For the same text [generate] and [generateStream] complete
    with the same files, and with the same explanation exactly when the
    scan of the extracted contents reports nothing: the streamed result
    never carries the warning.  The stream is one that ends without a
    failure, with callbacks that do not throw. *)
Theorem X9_stream_drops_the_warning :
  forall model message messages chunks tokens cb,
    quiet cb -> has_onComplete cb = true ->
    exists r r' files,
      generate model message (List.concat (deltas chunks)) tokens = Ok r /\
      generateStream model message messages (Streams chunks None) cb
      = Ok (map onToken (if has_onToken cb then deltas chunks else [])
            ++ [onComplete r'], None) /\
      r_files r = files /\ r_files r' = files /\
      extractExplanation (List.concat (deltas chunks))
      = Ok (r_explanation r') /\
      (r_explanation r = r_explanation r' <->
       scanForSecurityIssues (allCode files) = []).
Proof.
  intros model message messages chunks tokens cb Hquiet Hcomp.
  destruct (generated_returns model (List.concat (deltas chunks)) tokens)
    as (files & explanation & Hf & He & Hg).
  destruct (generateStream_quiet model message messages chunks cb
                                 Hquiet Hcomp)
    as (files' & explanation' & Hf' & He' & Hg').
  assert (files' = files) by congruence.
  assert (explanation' = explanation) by congruence. subst.
  eexists. eexists. exists files. unfold generate. rewrite Hg.
  split; [reflexivity | split; [exact Hg' | ]].
  cbn [streamedResult r_files r_explanation].
  split; [reflexivity | split; [reflexivity | split; [exact He | ]]].
  destruct (scanForSecurityIssues (allCode files)) as [ | issue issues];
    cbn [List.length Nat.ltb Nat.leb].
  - tauto.
  - split; [ | discriminate]. intros H. apply app_eq_self in H.
    discriminate.
Qed.

Lemma X9_stream_drops_the_warning_witness :
  quiet listening /\ has_onComplete listening = true /\
  exists r r',
    generate (str "gpt-4-turbo-preview") (str "failed") (str "Done.")
             (mkTokensUsed 1 2 3) = Ok r /\
    generateStream (str "gpt-4-turbo-preview") (str "failed") []
                   (Streams [Some (str "Do"); Some (str "ne.")] None)
                   listening
    = Ok ([onToken (str "Do"); onToken (str "ne."); onComplete r'], None) /\
    r_files r = r_files r'.
Proof.
  split; [exact listening_quiet | split; [reflexivity | ]].
  destruct (X9_stream_drops_the_warning
              (str "gpt-4-turbo-preview") (str "failed") []
              [Some (str "Do"); Some (str "ne.")] (mkTokensUsed 1 2 3)
              listening listening_quiet eq_refl)
    as (r & r' & files & Hg & Hs & Hf & Hf' & _).
  exists r, r'. split; [exact Hg | split; [exact Hs | congruence]].
Defined.

Lemma ceilQuarter_bounds n :
  n <= 4 * ceilQuarter n /\ 4 * ceilQuarter n < n + 4.
Proof.
  unfold ceilQuarter.
  pose proof (Nat.div_mod_eq (n + 3) 4) as H.
  pose proof (Nat.mod_upper_bound (n + 3) 4). lia.
Qed.

(** X10.  The token counts [generateStream] of the OpenAI provider
    reports are a quarter of the lengths, rounded up: four times the
    completion count is at least the length of the response and exceeds
    it by less than four, the prompt count stands likewise to the total
    length of the messages, and the total is their sum.  The stream is
    one that ends without a failure, with callbacks that do not
    throw. *)
Theorem X10_estimated_tokens :
  forall model message messages chunks cb,
    quiet cb -> has_onComplete cb = true ->
    exists r,
      generateStream model message messages (Streams chunks None) cb
      = Ok (map onToken (if has_onToken cb then deltas chunks else [])
            ++ [onComplete r], None) /\
      let promptLength :=
        list_sum (map (fun m => List.length (msg_content m)) messages) in
      let responseLength := List.length (r_response r) in
      responseLength <= 4 * tokens_completion (r_tokensUsed r) /\
      4 * tokens_completion (r_tokensUsed r) < responseLength + 4 /\
      promptLength <= 4 * tokens_prompt (r_tokensUsed r) /\
      4 * tokens_prompt (r_tokensUsed r) < promptLength + 4 /\
      tokens_total (r_tokensUsed r)
      = tokens_prompt (r_tokensUsed r) + tokens_completion (r_tokensUsed r).
Proof.
  intros model message messages chunks cb Hquiet Hcomp.
  destruct (generateStream_quiet model message messages chunks cb
                                 Hquiet Hcomp)
    as (files & explanation & _ & _ & Hg).
  eexists. split; [exact Hg | ].
  cbn [streamedResult r_response r_tokensUsed tokens_completion
                      tokens_prompt tokens_total].
  assert (Hsum : forall ms acc,
             fold_left (fun acc m => acc + List.length (msg_content m)) ms acc
             = acc + list_sum (map (fun m => List.length (msg_content m)) ms)).
  { induction ms as [ | m ms IH]; intros acc; simpl; [lia | ].
    rewrite IH. lia. }
  rewrite Hsum. simpl.
  pose proof (ceilQuarter_bounds
                (List.length (List.concat (deltas chunks)))) as [H1 H2].
  pose proof (ceilQuarter_bounds
                (list_sum (map (fun m => List.length (msg_content m))
                               messages))) as [H3 H4].
  repeat split; assumption.
Qed.

Lemma X10_estimated_tokens_witness :
  quiet listening /\ has_onComplete listening = true /\
  exists r,
    generateStream (str "gpt-4-turbo-preview") (str "failed")
                   [mkMessage user (str "Hello")]
                   (Streams [Some (str "Do"); Some (str "ne.")] None)
                   listening
    = Ok ([onToken (str "Do"); onToken (str "ne."); onComplete r], None) /\
    tokens_total (r_tokensUsed r)
    = tokens_prompt (r_tokensUsed r) + tokens_completion (r_tokensUsed r).
Proof.
  split; [exact listening_quiet | split; [reflexivity | ]].
  destruct (X10_estimated_tokens
              (str "gpt-4-turbo-preview") (str "failed")
              [mkMessage user (str "Hello")]
              [Some (str "Do"); Some (str "ne.")]
              listening listening_quiet eq_refl)
    as (r & Hg & _ & _ & _ & _ & H5).
  exists r. split; [exact Hg | exact H5].
Defined.

(** ** Joining *)

Lemma join_with_cons sep p ps :
  ps <> [] -> join_with sep (p :: ps) = p ++ sep ++ join_with sep ps.
Proof. destruct ps; [congruence | reflexivity]. Qed.

(** An element of a joined list stands between separators. *)
Lemma join_with_In sep x parts :
  In x parts ->
  exists a b,
    join_with sep parts = a ++ x ++ b /\
    (a = [] \/ is_suffix sep a) /\ (b = [] \/ is_prefix sep b).
Proof.
  induction parts as [ | p ps IH]; intros Hin; [destruct Hin | ].
  destruct ps as [ | p' ps].
  - destruct Hin as [-> | []]. exists [], []. simpl.
    rewrite app_nil_r. auto.
  - rewrite join_with_cons by discriminate.
    destruct Hin as [-> | Hin].
    + exists [], (sep ++ join_with sep (p' :: ps)).
      split; [reflexivity | split; [left; reflexivity | right]].
      eexists. reflexivity.
    + destruct (IH Hin) as (a & b & Heq & Ha & Hb). rewrite Heq.
      exists (p ++ sep ++ a), b.
      split; [rewrite <- !app_assoc; reflexivity | split; [right | exact Hb]].
      destruct Ha as [-> | [t ->]].
      * exists p. rewrite app_nil_r. reflexivity.
      * exists (p ++ sep ++ t). rewrite <- !app_assoc. reflexivity.
Qed.

Lemma join_with_length sep parts :
  List.length (join_with sep parts)
  <= list_sum (map (fun p => List.length p + List.length sep) parts).
Proof.
  induction parts as [ | p ps IH]; [simpl; lia | ].
  destruct ps as [ | p' ps].
  - simpl. lia.
  - rewrite join_with_cons by discriminate.
    rewrite !length_app. cbn [map list_sum fold_right] in *. lia.
Qed.

(** X11.  Joining the contents with newlines loses no finding: what the
    scan reports for the content of one extracted file alone, [generate]
    finds in the joined code as well, in the same order. *)
Theorem X11_joined_scan_covers_each_file :
  forall files f c,
    In f files -> content f = Some c ->
    subsequence (scanForSecurityIssues c)
                (scanForSecurityIssues (allCode files)).
Proof.
  intros files f c Hin Hc. unfold allCode.
  destruct (join_with_In [LF] c
              (map (fun f => match content f with
                             | Some c => if Str.truthy c then c else []
                             | None => []
                             end) files))
    as (a & b & -> & _).
  - apply in_map_iff. exists f. split; [ | assumption].
    rewrite Hc. destruct c; reflexivity.
  - apply scan_monotone.
Qed.

Lemma X11_joined_scan_covers_each_file_witness :
  In (mkFileChange (str "a.ts") create (Some (str "AKIA0123456789ABCDEF")))
     sampleSecrets /\
  subsequence (scanForSecurityIssues (str "AKIA0123456789ABCDEF"))
              (scanForSecurityIssues (allCode sampleSecrets)).
Proof.
  split; [left; reflexivity | ].
  apply (X11_joined_scan_covers_each_file
           sampleSecrets
           (mkFileChange (str "a.ts") create
                         (Some (str "AKIA0123456789ABCDEF")))).
  - left. reflexivity.
  - reflexivity.
Defined.

(** ** The prompt *)

Lemma fileSection_length f :
  List.length (fileSection f)
  <= List.length (file_path f) + maxLength + 26.
Proof.
  unfold fileSection.
  destruct (maxLength <? List.length (file_content f)) eqn:E;
    rewrite !length_app; cbn [List.length]; rewrite ?length_app;
    cbn [List.length];
    change (List.length (str "=== ")) with 4;
    change (List.length (str " ===")) with 4;
    change (List.length (str "... (truncated)")) with 15.
  - rewrite length_firstn. lia.
  - apply Nat.ltb_ge in E. lia.
Qed.

Lemma fileSection_starts f :
  exists t,
    fileSection f
    = (str "=== " ++ file_path f ++ str " ===" ++ LF
         :: firstn maxLength (file_content f)) ++ t.
Proof.
  unfold fileSection.
  destruct (maxLength <? List.length (file_content f)) eqn:E.
  - exists (LF :: str "... (truncated)" ++ [LF]).
    repeat (rewrite <- ?app_assoc; cbn [app]). reflexivity.
  - apply Nat.ltb_ge in E. rewrite firstn_all2 by assumption.
    exists [LF]. repeat (rewrite <- ?app_assoc; cbn [app]). reflexivity.
Qed.

Lemma buildFileContext_nil_iff files :
  buildFileContext files = [] <-> files = [].
Proof.
  unfold buildFileContext. destruct files as [ | f files]; [tauto | ].
  cbn [List.length Nat.eqb map]. split; [ | discriminate].
  destruct (fileSection_starts f) as [t Ht]. intros H.
  destruct (map fileSection files); cbn [join_with] in H;
    rewrite Ht in H; discriminate.
Qed.

Lemma list_sum_le (A : Type) (g h : A -> nat) l :
  (forall x, g x <= h x) -> list_sum (map g l) <= list_sum (map h l).
Proof.
  intros H. induction l as [ | x l IH]; [apply Nat.le_refl | ].
  unfold list_sum in *. cbn [map fold_right]. specialize (H x). lia.
Qed.

(** X12.  The file context [buildFileContext] builds is bounded whatever
    the files hold: each file adds at most its path, [maxLength] code
    units of content and 27 more.  Every file is in it, with its header
    and the first [maxLength] code units of its content. *)
Theorem X12_file_context_is_bounded :
  forall files,
    List.length (buildFileContext files)
    <= list_sum (map (fun f => List.length (file_path f) + maxLength + 27)
                     files) /\
    (forall f,
        In f files ->
        occurs (str "=== " ++ file_path f ++ str " ===" ++ LF
                  :: firstn maxLength (file_content f))
               (buildFileContext files)).
Proof.
  intros files. unfold buildFileContext. split.
  - destruct (Nat.eqb (List.length files) 0); [simpl; lia | ].
    eapply Nat.le_trans; [apply join_with_length | ].
    rewrite map_map. apply list_sum_le. intros f.
    pose proof (fileSection_length f). cbn [List.length]. lia.
  - intros f Hin. destruct files as [ | f0 files]; [destruct Hin | ].
    cbn [List.length Nat.eqb].
    destruct (join_with_In [LF] (fileSection f)
                (map fileSection (f0 :: files)))
      as (a & b & -> & _); [apply in_map; assumption | ].
    destruct (fileSection_starts f) as [t ->].
    exists a, (t ++ b). rewrite <- !app_assoc. reflexivity.
Qed.

Lemma X12_file_context_is_bounded_witness :
  In (mkExistingFile (str "src/cart.ts") (str "let x;"))
     (ctx_existingFiles sampleContext) /\
  occurs (str "=== " ++ str "src/cart.ts" ++ str " ===" ++ LF
            :: firstn maxLength (str "let x;"))
         (buildFileContext (ctx_existingFiles sampleContext)).
Proof.
  assert (H : In (mkExistingFile (str "src/cart.ts") (str "let x;"))
                 (ctx_existingFiles sampleContext))
    by (left; reflexivity).
  split; [exact H | ].
  exact (proj2 (X12_file_context_is_bounded
                  (ctx_existingFiles sampleContext)) _ H).
Defined.

(** X13.  The last message always ends with the prompt of the user.  It
    is the bare prompt exactly when the project has no files; otherwise
    the file context stands before it. *)
Theorem X13_current_prompt :
  forall context,
    is_suffix (ctx_prompt context) (currentPrompt context) /\
    (currentPrompt context = ctx_prompt context <->
     ctx_existingFiles context = []) /\
    (ctx_existingFiles context <> [] ->
     occurs (buildFileContext (ctx_existingFiles context))
            (currentPrompt context)).
Proof.
  intros context. unfold currentPrompt.
  destruct (ctx_existingFiles context) as [ | f files] eqn:Hfiles.
  - cbn [buildFileContext List.length Nat.eqb Str.truthy andb].
    split; [exists []; reflexivity | split; [tauto | congruence]].
  - assert (Hne : buildFileContext (f :: files) <> []).
    { intros H. apply buildFileContext_nil_iff in H. discriminate. }
    destruct (buildFileContext (f :: files)) as [ | c t] eqn:Hctx;
      [congruence | ].
    cbn [Str.truthy List.length Nat.ltb Nat.leb andb].
    split; [ | split].
    + exists (str "Here are the current project files for reference:"
                ++ LF :: LF :: (c :: t) ++ LF :: LF :: str "User request: ").
      repeat (rewrite <- ?app_assoc; cbn [app]). reflexivity.
    + split; [ | discriminate]. intros H.
      apply (f_equal (@List.length cu)) in H.
      rewrite !length_app in H. cbn [List.length] in H.
      rewrite !length_app in H. cbn [List.length] in H.
      rewrite !length_app in H. lia.
    + intros _.
      exists (str "Here are the current project files for reference:"
                ++ [LF; LF]),
             (LF :: LF :: str "User request: " ++ ctx_prompt context).
      repeat (rewrite <- ?app_assoc; cbn [app]). reflexivity.
Qed.

Lemma X13_current_prompt_witness :
  ctx_existingFiles sampleContext <> [] /\
  occurs (buildFileContext (ctx_existingFiles sampleContext))
         (currentPrompt sampleContext).
Proof.
  assert (H : ctx_existingFiles sampleContext <> []) by discriminate.
  split; [exact H | ].
  exact (proj2 (proj2 (X13_current_prompt sampleContext)) H).
Defined.

(** ** The messages *)

Lemma message_eta (m : Message) : mkMessage (msg_role m) (msg_content m) = m.
Proof. destruct m; reflexivity. Qed.

(** X14.  Both providers send the same conversation: the messages of the
    Claude provider are those of the OpenAI provider without the ones of
    role system, and both end with the current prompt as a user
    message. *)
Theorem X14_providers_send_the_same_messages :
  forall context,
    claudeMessages context = filter not_system (openaiMessages context) /\
    List.length (openaiMessages context)
    = List.length (ctx_conversationHistory context) + 2 /\
    last (claudeMessages context) (mkMessage system [])
    = mkMessage user (currentPrompt context) /\
    last (openaiMessages context) (mkMessage system [])
    = mkMessage user (currentPrompt context).
Proof.
  intros context. unfold claudeMessages, openaiMessages.
  repeat split.
  - cbn [app filter not_system msg_role]. rewrite filter_app.
    cbn [filter not_system msg_role]. f_equal.
    induction (ctx_conversationHistory context) as [ | m l IH];
      [reflexivity | ].
    destruct m as [[ | | ] c];
      cbn [map filter not_system msg_role msg_content];
      rewrite ?IH; reflexivity.
  - cbn [app List.length]. rewrite length_app, length_map.
    cbn [List.length]. lia.
  - apply last_last.
  - rewrite app_assoc. apply last_last.
Qed.

(** ** The system prompt *)

(** X15.  The system prompt names the project between double quotes and
    lists every existing file on a line of its own, a dash and a space
    before the path; for a project without files it says so instead. *)
Theorem X15_system_prompt_lists_the_files :
  forall context,
    occurs (DQUOTE :: ctx_projectName context ++ DQUOTE :: str ".")
           (buildSystemPrompt context) /\
    (forall f,
        In f (ctx_existingFiles context) ->
        occurs (LF :: str "- " ++ file_path f ++ [LF])
               (buildSystemPrompt context)) /\
    (ctx_existingFiles context = [] ->
     occurs (LF :: str "No files yet - this is a new project." ++ [LF])
            (buildSystemPrompt context)).
Proof.
  intros context. unfold buildSystemPrompt.
  set (intro := str "You are an expert software developer building applications. You are working on a project called ").
  set (rules := join_with [LF] systemPromptRules).
  set (frameworkInfo := match ctx_framework context with
                        | Some framework =>
                            if Str.truthy framework
                            then LF :: str "FRAMEWORK: " ++ framework
                            else []
                        | None => []
                        end).
  split; [ | split].
  - exists intro.
    exists (frameworkInfo ++ LF :: LF :: str "CURRENT PROJECT FILES:"
              ++ LF :: (if 0 <? List.length (ctx_existingFiles context)
                        then join_with [LF]
                               (map (fun f => str "- " ++ file_path f)
                                    (ctx_existingFiles context))
                        else str "No files yet - this is a new project.")
              ++ LF :: rules).
    repeat (rewrite <- ?app_assoc; cbn [app]). reflexivity.
  - intros f Hin.
    destruct (ctx_existingFiles context) as [ | f0 files] eqn:Hfiles;
      [destruct Hin | ].
    cbn [List.length Nat.ltb Nat.leb].
    destruct (join_with_In [LF] (str "- " ++ file_path f)
                (map (fun f => str "- " ++ file_path f) (f0 :: files)))
      as (a & b & -> & Ha & Hb).
    { apply (in_map (fun f => str "- " ++ file_path f)). assumption. }
    destruct Ha as [-> | [a' ->]]; destruct Hb as [-> | [b' ->]].
    + exists (intro ++ DQUOTE :: ctx_projectName context ++ DQUOTE :: str "."
                ++ frameworkInfo
                ++ LF :: LF :: str "CURRENT PROJECT FILES:"), rules.
      repeat (rewrite <- ?app_assoc; cbn [app]). reflexivity.
    + exists (intro ++ DQUOTE :: ctx_projectName context ++ DQUOTE :: str "."
                ++ frameworkInfo
                ++ LF :: LF :: str "CURRENT PROJECT FILES:"),
             (b' ++ LF :: rules).
      repeat (rewrite <- ?app_assoc; cbn [app]). reflexivity.
    + exists (intro ++ DQUOTE :: ctx_projectName context ++ DQUOTE :: str "."
                ++ frameworkInfo
                ++ LF :: LF :: str "CURRENT PROJECT FILES:" ++ LF :: a'),
             rules.
      repeat (rewrite <- ?app_assoc; cbn [app]). reflexivity.
    + exists (intro ++ DQUOTE :: ctx_projectName context ++ DQUOTE :: str "."
                ++ frameworkInfo
                ++ LF :: LF :: str "CURRENT PROJECT FILES:" ++ LF :: a'),
             (b' ++ LF :: rules).
      repeat (rewrite <- ?app_assoc; cbn [app]). reflexivity.
  - intros ->. cbn [List.length Nat.ltb Nat.leb].
    exists (intro ++ DQUOTE :: ctx_projectName context ++ DQUOTE :: str "."
              ++ frameworkInfo
              ++ LF :: LF :: str "CURRENT PROJECT FILES:"), rules.
    repeat (rewrite <- ?app_assoc; cbn [app]). reflexivity.
Qed.

Lemma X15_system_prompt_lists_the_files_witness :
  (In (mkExistingFile (str "src/cart.ts") (str "let x;"))
      (ctx_existingFiles sampleContext) /\
   occurs (LF :: str "- " ++ str "src/cart.ts" ++ [LF])
          (buildSystemPrompt sampleContext)) /\
  (ctx_existingFiles newContext = [] /\
   occurs (LF :: str "No files yet - this is a new project." ++ [LF])
          (buildSystemPrompt newContext)).
Proof.
  assert (H : In (mkExistingFile (str "src/cart.ts") (str "let x;"))
                 (ctx_existingFiles sampleContext))
    by (left; reflexivity).
  split; split.
  - exact H.
  - exact (proj1 (proj2 (X15_system_prompt_lists_the_files sampleContext))
                 _ H).
  - reflexivity.
  - exact (proj2 (proj2 (X15_system_prompt_lists_the_files newContext))
                 eq_refl).
Defined.

(** ** Saving the files *)

Lemma Str_eqb_refl p : Str.eqb p p = true.
Proof. apply eqb_iff. reflexivity. Qed.

Lemma Str_eqb_neq a b : Str.eqb a b = false <-> a <> b.
Proof.
  split.
  - intros H E. apply eqb_iff in E. congruence.
  - intros H. destruct (Str.eqb a b) eqn:E; [ | reflexivity].
    apply eqb_iff in E. contradiction.
Qed.

Lemma findUnique_app p rows rows' :
  findUnique p (rows ++ rows')
  = match findUnique p rows with
    | Some row => Some row
    | None => findUnique p rows'
    end.
Proof.
  induction rows as [ | [q row] rows IH]; [reflexivity | ].
  cbn [app findUnique]. destruct (Str.eqb q p); [reflexivity | exact IH].
Qed.

Lemma findUnique_updateRow p q row rows :
  findUnique p (updateRow q row rows)
  = if Str.eqb q p
    then match findUnique q rows with
         | Some _ => Some row
         | None => None
         end
    else findUnique p rows.
Proof.
  induction rows as [ | [k old] rows IH].
  - cbn [updateRow findUnique]. destruct (Str.eqb q p); reflexivity.
  - cbn [updateRow findUnique].
    destruct (Str.eqb k q) eqn:Ekq.
    + apply eqb_iff in Ekq. subst k. cbn [findUnique].
      destruct (Str.eqb q p); reflexivity.
    + cbn [findUnique]. rewrite IH.
      apply Str_eqb_neq in Ekq.
      destruct (Str.eqb q p) eqn:Eqp.
      * apply eqb_iff in Eqp. subst p.
        assert (E : Str.eqb k q = false) by (apply Str_eqb_neq; assumption).
        rewrite E. reflexivity.
      * reflexivity.
Qed.

Lemma findUnique_None p rows :
  findUnique p rows = None <-> ~ In p (map fst rows).
Proof.
  induction rows as [ | [q row] rows IH]; [cbn; tauto | ].
  cbn [findUnique map fst In].
  destruct (Str.eqb q p) eqn:E.
  - apply eqb_iff in E. split; [discriminate | tauto].
  - apply Str_eqb_neq in E. tauto.
Qed.

Lemma updateRow_keys p row rows :
  map fst (updateRow p row rows) = map fst rows.
Proof.
  induction rows as [ | [q old] rows IH]; [reflexivity | ].
  cbn [updateRow]. destruct (Str.eqb q p); cbn [map fst];
    [ | rewrite IH]; reflexivity.
Qed.

(** Only the path and the content of a change that is not a deletion
    count. *)
Lemma saveFile_ext dV dV' dM dM' st f g :
  dV = dV' ->
  action f <> delete -> action g <> delete ->
  path f = path g -> content f = content g ->
  saveFile dV dM st f = saveFile dV' dM' st g.
Proof.
  intros <- Hf Hg Hp Hc. unfold saveFile. rewrite <- Hp, <- Hc.
  destruct (action f), (action g); try congruence; reflexivity.
Qed.

Lemma determineFileActions_cons change changes existingPaths :
  determineFileActions (change :: changes) existingPaths
  = mkFileChange (path change)
                 (if array_includes (path change) existingPaths
                  then update else create)
                 (content change)
    :: determineFileActions changes existingPaths.
Proof. reflexivity. Qed.

Lemma saveResult_cons dV dM files f resultFiles st :
  saveResult dV dM files (f :: resultFiles) st
  = saveResult dV dM files resultFiles
               (saveFile dV dM st (mkFileChange (path f) create (content f))).
Proof.
  unfold saveResult, saveFiles. rewrite determineFileActions_cons.
  cbn [fold_left]. f_equal.
  apply saveFile_ext; cbn [action path content]; try reflexivity;
    try discriminate.
  destruct (array_includes _ _); discriminate.
Qed.

Lemma saveResult_nil dV dM files st : saveResult dV dM files [] st = st.
Proof. reflexivity. Qed.

(** X16.  What is saved depends on the paths and the contents of the
    extracted files alone: neither the files the project had when the
    request came in, from which the actions are computed, nor what a
    deletion would do has any influence, since after
    [determineFileActions] no change is a deletion and both other actions
    are saved in the same way. *)
Theorem X16_save_ignores_the_actions :
  forall defaultVersion deleteMany deleteMany' files files' resultFiles st,
    saveResult defaultVersion deleteMany files resultFiles st
    = saveResult defaultVersion deleteMany' files' resultFiles st.
Proof.
  intros dV dM dM' files files' resultFiles.
  induction resultFiles as [ | f resultFiles IH]; intros st;
    [reflexivity | ].
  rewrite !saveResult_cons. rewrite IH. f_equal.
Qed.

(** One round, seen from the path [p]. *)
Lemma saveFile_row dV dM st f p :
  action f <> delete ->
  findUnique p (projectFile (saveFile dV dM st f))
  = match writes p [f] with
    | c :: _ =>
        Some (mkFileRow c (byteLength c)
                        match findUnique p (projectFile st) with
                        | Some row => row_version row + 1
                        | None => dV
                        end)
    | [] => findUnique p (projectFile st)
    end.
Proof.
  intros Hf. unfold saveFile, writes. cbn [flat_map]. rewrite app_nil_r.
  destruct (action f); [ | | congruence];
    (destruct (content f) as [c | ]; [ | reflexivity];
     destruct (Str.truthy c); cbn [andb]; [ | reflexivity];
     destruct (findUnique (path f) (projectFile st)) as [old | ] eqn:Eold;
     cbn [projectFile];
     [ rewrite findUnique_updateRow, Eold;
       destruct (Str.eqb (path f) p) eqn:E; [ | reflexivity];
       apply eqb_iff in E; rewrite <- E, Eold; reflexivity
     | rewrite findUnique_app; cbn [findUnique];
       destruct (Str.eqb (path f) p) eqn:E;
       [ apply eqb_iff in E; rewrite <- E, Eold; reflexivity
       | destruct (findUnique p (projectFile st)); reflexivity ] ]).
Qed.

Lemma writes_cons p f files : writes p (f :: files) = writes p [f] ++ writes p files.
Proof. unfold writes. cbn [flat_map]. rewrite app_nil_r. reflexivity. Qed.

Lemma writes_single p f :
  writes p [f] = [] \/ exists c, writes p [f] = [c].
Proof.
  unfold writes. cbn [flat_map]. rewrite app_nil_r.
  destruct (content f) as [c | ]; [ | left; reflexivity].
  destruct (Str.truthy c && Str.eqb (path f) p);
    [right; exists c | left]; reflexivity.
Qed.

Lemma rowAfter_cons dV old c ws :
  rowAfter dV old (c :: ws)
  = rowAfter dV (Some (mkFileRow c (byteLength c)
                                 match old with
                                 | Some row => row_version row + 1
                                 | None => dV
                                 end)) ws.
Proof.
  unfold rowAfter.
  destruct ws as [ | d ws] using rev_ind.
  - cbn [rev app List.length]. destruct old; do 2 f_equal; lia.
  - clear IHws. rewrite app_comm_cons, !rev_unit.
    cbn [row_version]. rewrite !length_app. cbn [List.length].
    rewrite length_rev. cbn [List.length].
    destruct old; do 2 f_equal; lia.
Qed.

(** X17.  The row of every path after the files are saved: a path no
    change writes keeps its row; a path that is written holds the content
    of the last change that writes it, with the byte length of that
    content as size, and its version has grown by one for each write, a
    row that is new starting at the default. *)
Theorem X17_row_after_save :
  forall defaultVersion deleteMany files resultFiles st p,
    findUnique p (projectFile
                    (saveResult defaultVersion deleteMany files
                                resultFiles st))
    = rowAfter defaultVersion (findUnique p (projectFile st))
               (writes p resultFiles).
Proof.
  intros dV dM files resultFiles.
  induction resultFiles as [ | f resultFiles IH]; intros st p;
    [reflexivity | ].
  rewrite saveResult_cons, IH, writes_cons.
  rewrite saveFile_row by (cbn [action]; discriminate).
  assert (Hw : writes p [mkFileChange (path f) create (content f)]
               = writes p [f]) by reflexivity.
  rewrite Hw.
  destruct (writes_single p f) as [-> | [c ->]]; [reflexivity | ].
  cbn [app]. rewrite rowAfter_cons. reflexivity.
Qed.

Lemma saveFile_history dV dM st f p :
  action f <> delete ->
  history p (saveFile dV dM st f) = history p st ++ writes p [f].
Proof.
  intros Hf. unfold history. rewrite (saveFile_row dV dM st f p Hf).
  unfold saveFile, writes. cbn [flat_map]. rewrite app_nil_r.
  destruct (action f); [ | | congruence];
    (destruct (content f) as [c | ]; [ | rewrite app_nil_r; reflexivity];
     destruct (Str.truthy c); cbn [andb];
     [ | rewrite app_nil_r; reflexivity];
     destruct (findUnique (path f) (projectFile st)) as [old | ] eqn:Eold;
     cbn [fileVersion];
     [ rewrite filter_app, map_app; cbn [filter ver_file];
       destruct (Str.eqb (path f) p) eqn:E;
       [ apply eqb_iff in E; rewrite <- E, Eold;
         cbn [map ver_content row_content];
         rewrite <- !app_assoc; reflexivity
       | cbn [map]; rewrite !app_nil_r; reflexivity ]
     | destruct (Str.eqb (path f) p) eqn:E;
       [ apply eqb_iff in E; rewrite <- E, Eold;
         cbn [row_content]; rewrite app_nil_r; reflexivity
       | rewrite app_nil_r; reflexivity ] ]).
Qed.

(** X18.  Saving loses no content: for every path, the contents kept as
    versions followed by the content of its row are, after the files are
    saved, what they were before followed by the contents written under
    that path, in order. *)
Theorem X18_history_grows_by_the_writes :
  forall defaultVersion deleteMany files resultFiles st p,
    history p (saveResult defaultVersion deleteMany files resultFiles st)
    = history p st ++ writes p resultFiles.
Proof.
  intros dV dM files resultFiles.
  induction resultFiles as [ | f resultFiles IH]; intros st p.
  - rewrite saveResult_nil. cbn [writes flat_map]. rewrite app_nil_r.
    reflexivity.
  - rewrite saveResult_cons, IH, writes_cons.
    rewrite saveFile_history by (cbn [action]; discriminate).
    rewrite <- app_assoc. reflexivity.
Qed.

Lemma saveFile_keys dV dM st f :
  action f <> delete ->
  (exists l, keys (saveFile dV dM st f) = keys st ++ l) /\
  (NoDup (keys st) -> NoDup (keys (saveFile dV dM st f))) /\
  (exists l, fileVersion (saveFile dV dM st f) = fileVersion st ++ l).
Proof.
  intros Hf. unfold saveFile, keys.
  assert (Hsame : (exists l, map fst (projectFile st)
                             = map fst (projectFile st) ++ l) /\
                  (NoDup (map fst (projectFile st)) ->
                   NoDup (map fst (projectFile st))) /\
                  (exists l, fileVersion st = fileVersion st ++ l)).
  { split; [ | split]; try (exists []; rewrite app_nil_r; reflexivity).
    tauto. }
  destruct (action f); [ | | congruence];
    (destruct (content f) as [c | ]; [ | exact Hsame];
     destruct (Str.truthy c); [ | exact Hsame];
     destruct (findUnique (path f) (projectFile st)) as [old | ] eqn:Eold;
     cbn [projectFile fileVersion];
     [ rewrite updateRow_keys;
       split; [exists []; rewrite app_nil_r; reflexivity | ];
       split; [tauto | eexists; reflexivity]
     | rewrite map_app; cbn [map fst];
       split; [eexists; reflexivity | ];
       split; [ | exists []; rewrite app_nil_r; reflexivity];
       intros Hnd; apply findUnique_None in Eold;
       apply NoDup_app;
       [ assumption
       | constructor; [intros [] | constructor]
       | intros x Hx [<- | []]; contradiction ] ]).
Qed.

(** X19.  Saving only adds: the rows of the project keep their places and
    new rows come after them, the versions kept so far stay and new ones
    come after them, and when no two rows had the same path before, no
    two have afterwards. *)
Theorem X19_save_only_adds :
  forall defaultVersion deleteMany files resultFiles st,
    let st' := saveResult defaultVersion deleteMany files resultFiles st in
    is_prefix_of (keys st) (keys st') /\
    is_prefix_of (fileVersion st) (fileVersion st') /\
    (NoDup (keys st) -> NoDup (keys st')).
Proof.
  intros dV dM files resultFiles.
  induction resultFiles as [ | f resultFiles IH]; intros st; cbv zeta.
  - rewrite saveResult_nil.
    repeat split; try (exists []; rewrite app_nil_r; reflexivity). tauto.
  - rewrite saveResult_cons.
    set (st1 := saveFile dV dM st (mkFileChange (path f) create (content f))).
    destruct (saveFile_keys dV dM st
                (mkFileChange (path f) create (content f)))
      as ([l1 H1] & H2 & [l3 H3]); [cbn [action]; discriminate | ].
    fold st1 in H1, H2, H3.
    destruct (IH st1) as ([m1 I1] & [m3 I3] & I2).
    split; [ | split].
    + exists (l1 ++ m1). rewrite I1, H1, <- app_assoc. reflexivity.
    + exists (l3 ++ m3). rewrite I3, H3, <- app_assoc. reflexivity.
    + intros Hnd. apply I2, H2, Hnd.
Qed.

Lemma X19_save_only_adds_witness :
  NoDup (keys sampleStore) /\
  NoDup (keys (saveResult 1 (fun _ st => st) [] sampleRewrite sampleStore)).
Proof.
  assert (H : NoDup (keys sampleStore)).
  { unfold keys, sampleStore. cbn [projectFile map fst].
    constructor; [intros [] | constructor]. }
  split; [exact H | ].
  apply (X19_save_only_adds 1 (fun _ st => st) [] sampleRewrite sampleStore).
  exact H.
Defined.

(** ** The documented format *)

(** *** Runs of the matcher *)

Lemma mtch_Char_cons p x c s k :
  rest x = c :: s -> mtch (Char p) x k = if p c then k (advance x) else None.
Proof. intros H. cbn [mtch]. rewrite H. reflexivity. Qed.

Lemma mtch_Char_nil p x k : rest x = [] -> mtch (Char p) x k = None.
Proof. intros H. cbn [mtch]. rewrite H. reflexivity. Qed.

Lemma mtch_Char_stops p x k :
  match rest x with [] => True | c :: _ => p c = false end ->
  mtch (Char p) x k = None.
Proof.
  intros H. destruct (rest x) as [ | c s] eqn:Hr.
  - apply mtch_Char_nil. assumption.
  - rewrite (mtch_Char_cons p x c s) by assumption. rewrite H. reflexivity.
Qed.

(** A greedy run of a class takes all there is when what follows then
    matches. *)
Lemma greedy_run p w : forall n x rst k z,
    rest x = w ++ rst ->
    forallb p w = true ->
    match rst with [] => True | c :: _ => p c = false end ->
    List.length w <= n ->
    k (MState (pos x + List.length w) rst (caps x)) = Some z ->
    repeat_opt (mtch (Char p)) [] true n x k = Some z.
Proof.
  induction w as [ | c w IH]; intros n x rst k z Hr Hp Htl Hn Hk.
  - cbn [app List.length] in *.
    assert (Hx : MState (pos x + 0) rst (caps x) = x).
    { destruct x as [i s cs]; cbn [pos rest caps] in *. subst.
      rewrite Nat.add_0_r. reflexivity. }
    rewrite Hx in Hk.
    destruct n; cbn [repeat_opt]; [exact Hk | ].
    rewrite cleared_nil. rewrite mtch_Char_stops by (rewrite Hr; exact Htl).
    cbn [orelse]. exact Hk.
  - destruct n as [ | n]; [cbn [List.length] in Hn; lia | ].
    cbn [forallb] in Hp. apply andb_prop in Hp. destruct Hp as [Hc Hp].
    cbn [repeat_opt]. rewrite cleared_nil.
    rewrite (mtch_Char_cons p x c (w ++ rst)) by exact Hr.
    rewrite Hc. cbv beta. cbn [pos advance].
    assert (Hne : Nat.eqb (S (pos x)) (pos x) = false)
      by (apply Nat.eqb_neq; lia).
    rewrite Hne.
    rewrite (IH n (advance x) rst k z); [reflexivity | | | | | ].
    + cbn [advance rest]. rewrite Hr. reflexivity.
    + exact Hp.
    + exact Htl.
    + cbn [List.length] in Hn. lia.
    + cbn [advance pos caps]. cbn [List.length] in Hk.
      replace (S (pos x) + List.length w)
        with (pos x + S (List.length w)) by lia.
      exact Hk.
Qed.

Lemma plus_unfold p x k :
  mtch (plus (Char p)) x k
  = mtch (Char p) (cleared [] x)
         (fun y => repeat_opt (mtch (Char p)) [] true
                              (List.length (rest y)) y k).
Proof. reflexivity. Qed.

Lemma plus_run p w x rst k z :
  w <> [] ->
  rest x = w ++ rst ->
  forallb p w = true ->
  match rst with [] => True | c :: _ => p c = false end ->
  k (MState (pos x + List.length w) rst (caps x)) = Some z ->
  mtch (plus (Char p)) x k = Some z.
Proof.
  intros Hne Hr Hp Htl Hk. destruct w as [ | c w]; [congruence | ].
  cbn [forallb] in Hp. apply andb_prop in Hp. destruct Hp as [Hc Hp].
  rewrite plus_unfold, cleared_nil.
  rewrite (mtch_Char_cons p x c (w ++ rst)) by exact Hr.
  rewrite Hc.
  apply (greedy_run p w _ (advance x) rst k z).
  - cbn [advance rest]. rewrite Hr. reflexivity.
  - exact Hp.
  - exact Htl.
  - cbn [advance rest]. rewrite Hr. cbn [tl app]. rewrite length_app. lia.
  - cbn [advance pos caps]. cbn [List.length] in Hk.
    replace (S (pos x) + List.length w)
      with (pos x + S (List.length w)) by lia.
    exact Hk.
Qed.

Lemma plus_fail p x k :
  match rest x with [] => True | c :: _ => p c = false end ->
  mtch (plus (Char p)) x k = None.
Proof.
  intros H. rewrite plus_unfold, cleared_nil. apply mtch_Char_stops.
  exact H.
Qed.

(** A non-greedy run stops where what follows first matches. *)
Lemma lazy_run body : forall n x tail k z,
    rest x = body ++ fence ++ tail ->
    no_early_fence body tail ->
    List.length body <= n ->
    (forall y, Str.startsWith fence (rest y) = false -> k y = None) ->
    k (MState (pos x + List.length body) (fence ++ tail) (caps x)) = Some z ->
    repeat_opt (mtch (Char any)) [] false n x k = Some z.
Proof.
  induction body as [ | c body IH]; intros n x tail k z Hr Hno Hn Hfail Hk.
  - cbn [app List.length] in *.
    assert (Hx : MState (pos x + 0) (fence ++ tail) (caps x) = x).
    { destruct x as [i s cs]; cbn [pos rest caps] in *. subst.
      rewrite Nat.add_0_r. reflexivity. }
    rewrite Hx in Hk.
    destruct n; cbn [repeat_opt orelse]; rewrite Hk; reflexivity.
  - destruct n as [ | n]; [cbn [List.length] in Hn; lia | ].
    destruct Hno as [Hhere Hno]. cbn [repeat_opt].
    rewrite (Hfail x) by (rewrite Hr; exact Hhere).
    cbn [orelse]. rewrite cleared_nil.
    rewrite (mtch_any_cons x c (body ++ fence ++ tail)) by exact Hr.
    cbv beta. cbn [pos advance].
    assert (Hne : Nat.eqb (S (pos x)) (pos x) = false)
      by (apply Nat.eqb_neq; lia).
    rewrite Hne.
    apply (IH n (advance x) tail k z).
    + cbn [advance rest]. rewrite Hr. reflexivity.
    + exact Hno.
    + cbn [List.length] in Hn. lia.
    + exact Hfail.
    + cbn [advance pos caps]. cbn [List.length] in Hk.
      replace (S (pos x) + List.length body)
        with (pos x + S (List.length body)) by lia.
      exact Hk.
Qed.

Lemma opt_unfold r x k :
  groups_of r = [] ->
  mtch (opt r) x k
  = orelse (mtch r x (fun y => if Nat.eqb (pos y) (pos x) then None else k y))
           (fun _ => k x).
Proof.
  intros Hg. unfold opt. cbn [mtch]. unfold repeat.
  cbn [repeat_min Nat.sub repeat_opt]. rewrite Hg, cleared_nil. reflexivity.
Qed.

Lemma firstn_exact (w r : jsstring) a :
  firstn (a + List.length w - a) (w ++ r) = w.
Proof.
  replace (a + List.length w - a) with (List.length w) by lia.
  rewrite firstn_app, Nat.sub_diag, firstn_all. cbn [firstn].
  apply app_nil_r.
Qed.

(** *** Path characters *)

Lemma path_char_cases c :
  is_path_char c = true ->
  (48 <= c <= 57 \/ 65 <= c <= 90 \/ 97 <= c <= 122
   \/ c = 95 \/ c = 45 \/ c = 46 \/ c = 47)%N.
Proof.
  unfold is_path_char, is_word, is_alnum, is_alpha, is_upper, is_lower,
    is_digit, between, DASH, DOT, SLASH, UNDERSCORE.
  rewrite !orb_true_iff, !andb_true_iff, !N.leb_le, !N.eqb_eq. lia.
Qed.

Lemma path_char_not c d :
  is_path_char c = true -> is_path_char d = false -> c <> d.
Proof. intros Hc Hd ->. congruence. Qed.

Lemma path_char_not_space c : is_path_char c = true -> is_space c = false.
Proof.
  intros H. apply path_char_cases in H.
  destruct (is_space c) eqn:E; [exfalso | reflexivity].
  unfold is_space, between in E.
  rewrite !orb_true_iff, !andb_true_iff, !N.leb_le, !N.eqb_eq in E. lia.
Qed.

Lemma only_path_chars_not_In c p :
  only_path_chars p -> is_path_char c = false -> ~ In c p.
Proof.
  unfold only_path_chars. intros Hp Hc Hin.
  rewrite forallb_forall in Hp. apply Hp in Hin. congruence.
Qed.

Lemma trimStart_head s :
  match s with [] => True | c :: _ => is_space c = false end ->
  Str.trimStart s = s.
Proof. destruct s as [ | c s]; cbn; [reflexivity | ]. intros ->. reflexivity. Qed.

Lemma trim_no_space s :
  forallb (fun c => negb (is_space c)) s = true -> Str.trim s = s.
Proof.
  intros H. rewrite forallb_forall in H.
  assert (Hhead : forall t, (forall c, In c t -> In c s) ->
                            Str.trimStart t = t).
  { intros t Ht. apply trimStart_head. destruct t as [ | c t]; [exact I | ].
    specialize (H c (Ht c (or_introl eq_refl))).
    apply negb_true_iff in H. exact H. }
  unfold Str.trim, Str.trimEnd. rewrite (Hhead s) by auto.
  rewrite (Hhead (rev s)).
  - apply rev_involutive.
  - intros c Hc. apply in_rev. assumption.
Qed.

Lemma trim_path p : only_path_chars p -> Str.trim p = p.
Proof.
  unfold only_path_chars. intros H. apply trim_no_space.
  rewrite forallb_forall in *. intros c Hc.
  rewrite (path_char_not_space c); [reflexivity | auto].
Qed.

(** *** Where no match starts *)

Lemma search_past r a : forall b i,
    skipped r a b -> search r i (a ++ b) = search r (i + List.length a) b.
Proof.
  induction a as [ | c a IH]; intros b i H.
  - cbn [app List.length]. rewrite Nat.add_0_r. reflexivity.
  - cbn [app]. rewrite search_skip.
    + rewrite IH.
      * f_equal. cbn [List.length]. lia.
      * intros a1 a2 j Ha Hne. apply (H (c :: a1) a2 j); [ | assumption].
        rewrite Ha. reflexivity.
    + apply (H [] (c :: a) i); [reflexivity | discriminate].
Qed.

Lemma skipped_app r a b c :
  skipped r a (b ++ c) -> skipped r b c -> skipped r (a ++ b) c.
Proof.
  intros Ha Hb a1 a2 j Heq Hne.
  apply app_eq_app in Heq.
  destruct Heq as [l [[-> ->] | [-> ->]]].
  - destruct l as [ | d l].
    + cbn [app] in *. apply (Hb [] b j); [reflexivity | assumption].
    + rewrite <- app_assoc. apply (Ha a1 (d :: l) j); [reflexivity | ].
      discriminate.
  - apply (Hb l a2 j); [reflexivity | assumption].
Qed.

Lemma fence_needed r j s :
  Str.startsWith fence s = false -> match_at (lit fence ~> r)%re j s = None.
Proof.
  intros H. unfold match_at.
  change (mtch (lit fence ~> r)%re ?x ?k)
    with (mtch (lit fence) x (fun y => mtch r y k)).
  rewrite mtch_lit. cbn [rest]. rewrite H. reflexivity.
Qed.

Lemma no_fence_at_plain c s :
  c <> BACKTICK -> Str.startsWith fence (c :: s) = false.
Proof.
  intros Hc. change fence with [BACKTICK; BACKTICK; BACKTICK].
  cbn [Str.startsWith].
  destruct (N.eqb_spec BACKTICK c); [congruence | reflexivity].
Qed.

Lemma plain_cons c s :
  plain (c :: s) = true <-> c <> BACKTICK /\ plain s = true.
Proof.
  unfold plain. cbn [forallb].
  rewrite andb_true_iff, negb_true_iff, N.eqb_neq. tauto.
Qed.

Lemma plain_app a b : plain (a ++ b) = plain a && plain b.
Proof. apply forallb_app. Qed.

Lemma skipped_plain r a b :
  plain a = true -> skipped (lit fence ~> r)%re a b.
Proof.
  intros Ha a1 a2 j -> Hne. rewrite plain_app in Ha.
  apply andb_prop in Ha. destruct Ha as [_ Ha].
  destruct a2 as [ | c a2]; [congruence | ].
  apply plain_cons in Ha. destruct Ha as [Hc _].
  apply fence_needed. cbn [app]. apply no_fence_at_plain. assumption.
Qed.

Lemma closes_first_suffix a b : closes_first (a ++ b) -> closes_first b.
Proof.
  induction a as [ | c a IH]; [auto | ].
  intros H. apply IH. eapply closes_first_tail. exact H.
Qed.

Lemma skipped_body r body tail :
  closes_first body -> skipped (lit fence ~> r)%re body (fence ++ tail).
Proof.
  intros Hb a1 a2 j -> Hne. apply closes_first_suffix in Hb.
  apply (closes_first_no_early _ tail) in Hb.
  destruct a2 as [ | c a2]; [congruence | ].
  destruct Hb as [Hb _]. apply fence_needed. exact Hb.
Qed.

Lemma search_plain_end r i s :
  plain s = true -> search (lit fence ~> r)%re i s = None.
Proof.
  intros H. rewrite <- (app_nil_r s).
  rewrite search_past by (apply skipped_plain; assumption).
  cbn [search]. rewrite fence_needed; reflexivity.
Qed.

(** *** The first pattern at a block *)

Lemma startsWith_before_LF f : forall p t,
    ~ In LF f -> Str.startsWith f (p ++ LF :: t) = true -> is_prefix f p.
Proof.
  induction f as [ | c f IH]; intros p t Hf H.
  - exists p. reflexivity.
  - destruct p as [ | d p]; cbn [app Str.startsWith] in H;
      apply andb_prop in H; destruct H as [Hc H]; apply N.eqb_eq in Hc.
    + exfalso. apply Hf. left. assumption.
    + subst d. destruct (IH p t) as [u ->]; [ | assumption | ].
      * intros Hin. apply Hf. right. assumption.
      * exists u. reflexivity.
Qed.

Section AtBlock.
Variables (P body tail : jsstring).
Hypothesis P_chars : only_path_chars P.
Hypothesis P_not_empty : P <> [].
Hypothesis body_closes : closes_first body.

Lemma path_class : forallb (none_of [LF; BACKTICK]) P = true.
Proof.
  unfold only_path_chars in P_chars. rewrite forallb_forall in *.
  intros c Hc. apply P_chars in Hc. apply path_char_cases in Hc.
  unfold none_of. cbn [existsb]. rewrite orb_false_r.
  apply negb_true_iff, orb_false_iff. unfold LF, BACKTICK.
  rewrite !N.eqb_neq. lia.
Qed.

(** From the path on. *)
Lemma codeBlock_core x :
  rest x = P ++ LF :: body ++ fence ++ tail ->
  mtch (plus (Char (none_of [LF; BACKTICK]))) x
       (fun y3 =>
          mtch (Char (chr LF)) (close_group 1 x y3)
               (fun y4 =>
                  mtch (lazy_star (Char any)) y4
                       (fun y5 =>
                          mtch (lit fence) (close_group 2 y4 y5)
                               (fun z => Some z))))
  = Some (MState (pos x + List.length P + 1 + List.length body + 3) tail
                 ((2, body) :: (1, P) :: caps x)).
Proof.
  intros Hr.
  apply (plus_run _ P x (LF :: body ++ fence ++ tail));
    [exact P_not_empty | exact Hr | exact path_class | reflexivity | ].
  unfold close_group at 1. cbn [pos rest caps].
  rewrite (mtch_Char_cons _ _ LF (body ++ fence ++ tail)) by reflexivity.
  change (chr LF LF) with true. cbv iota. cbn [advance pos rest caps tl].
  change (mtch (lazy_star (Char any)) ?y ?k)
    with (repeat_opt (mtch (Char any)) [] false (List.length (rest y)) y k).
  apply (lazy_run body _ _ tail).
  - reflexivity.
  - apply closes_first_no_early. exact body_closes.
  - cbn [advance rest tl]. rewrite length_app. lia.
  - intros y Hy. rewrite mtch_lit. unfold close_group. cbn [rest].
    rewrite Hy. reflexivity.
  - rewrite mtch_lit. unfold close_group. cbn [advance pos rest caps tl].
    rewrite startsWith_app, skipn_app, Nat.sub_diag, skipn_all, skipn_O.
    cbn [app]. rewrite Hr, !firstn_exact. unfold set_cap.
    f_equal. f_equal. change (List.length fence) with 3. lia.
Qed.

Lemma codeBlock_at i (tagged : bool) :
  match_at codeBlockRegex i
           (fence ++ ((if tagged then str "filepath:" else []) ++ P)
                  ++ LF :: body ++ fence ++ tail)
  = Some (MState (i + 3 + (if tagged then 9 else 0) + List.length P + 1
                  + List.length body + 3)
                 tail [(2, body); (1, P)]).
Proof.
  unfold match_at, codeBlockRegex. change (str "```") with fence.
  change (mtch (lit fence ~> ?o ~> Group 1 ?g ~> ?l ~> Group 2 ?b
                ~> lit fence)%re ?x ?k)
    with (mtch (lit fence) x
            (fun y1 =>
               mtch o y1
                 (fun y2 =>
                    mtch g y2
                      (fun y3 =>
                         mtch l (close_group 1 y2 y3)
                           (fun y4 =>
                              mtch b y4
                                (fun y5 =>
                                   mtch (lit fence) (close_group 2 y4 y5)
                                        k)))))).
  rewrite mtch_lit. cbn [rest pos caps].
  rewrite startsWith_app, skipn_app, Nat.sub_diag, skipn_all, skipn_O.
  cbn [app]. change (List.length fence) with 3.
  rewrite opt_unfold by reflexivity. rewrite mtch_lit. cbn [rest pos caps].
  destruct tagged.
  - rewrite <- app_assoc, startsWith_app.
    rewrite skipn_app, Nat.sub_diag, skipn_all, skipn_O. cbn [app].
    change (List.length (str "filepath:")) with 9.
    assert (Hne : Nat.eqb (i + 3 + 9) (i + 3) = false)
      by (apply Nat.eqb_neq; lia).
    rewrite Hne. rewrite codeBlock_core by reflexivity.
    cbn [orelse pos caps]. reflexivity.
  - cbn [app].
    destruct (Str.startsWith (str "filepath:")
                             (P ++ LF :: body ++ fence ++ tail)) eqn:E.
    + exfalso. apply startsWith_before_LF in E.
      * destruct E as [u Hu].
        apply (only_path_chars_not_In COLON P P_chars); [reflexivity | ].
        rewrite Hu. apply in_or_app. left.
        right; right; right; right; right; right; right; right; left.
        reflexivity.
      * cbn. intuition discriminate.
    + cbn [orelse]. rewrite codeBlock_core by reflexivity.
      cbn [pos caps]. f_equal. f_equal. lia.
Qed.
End AtBlock.

(** *** The body of the first loop at a block *)

Lemma language_names_plain name :
  In name languageNames -> ~ In DOT (map upcase name) /\ ~ In SLASH (map upcase name).
Proof.
  unfold languageNames. intros H.
  repeat (destruct H as [<- | H];
          [split; vm_compute; intuition discriminate | ]).
  destruct H.
Qed.

Lemma replace_first_language p :
  In DOT p \/ In SLASH p -> replace_first languageRegex p = p.
Proof.
  intros Hp. unfold replace_first.
  destruct (search languageRegex 0 p) as [[i y] | ] eqn:E; [ | reflexivity].
  exfalso.
  assert (Ht : test languageRegex p = true) by (unfold test; rewrite E; reflexivity).
  apply anchored_names in Ht; [ | discriminate].
  destruct Ht as (name & Hin & Hci).
  apply language_names_plain in Hin. destruct Hin as [Hd Hs].
  unfold same_ci in Hci. rewrite <- Hci in Hd, Hs.
  destruct Hp as [Hp | Hp].
  - apply Hd. change DOT with (upcase DOT). apply in_map. assumption.
  - apply Hs. change SLASH with (upcase SLASH). apply in_map. assumption.
Qed.

Lemma valid_path_chars p :
  isValidFilePath p = true -> p <> [] /\ only_path_chars p.
Proof.
  rewrite isValidFilePath_rules, !andb_true_iff.
  intros (_ & H). apply test_allowedChars. assumption.
Qed.

Lemma dot_or_slash p :
  Str.includes (str ".") p || Str.includes (str "/") p = true ->
  In DOT p \/ In SLASH p.
Proof.
  change (str ".") with [DOT]. change (str "/") with [SLASH].
  rewrite orb_true_iff, !includes_char. tauto.
Qed.

Lemma explicitBlock_block m files p body :
  group 1 m = Some p -> group 2 m = Some body ->
  isValidFilePath p = true ->
  Str.includes (str ".") p || Str.includes (str "/") p = true ->
  explicitBlock m files
  = Ok (files ++ [mkFileChange p create (Some (Str.trim body))]).
Proof.
  intros H1 H2 Hvalid Hdot.
  destruct (valid_path_chars p Hvalid) as [Hne Hchars].
  assert (Htrim : Str.trim p = p) by (apply trim_path; assumption).
  assert (Htruthy : Str.truthy p = true) by (destruct p; [congruence | reflexivity]).
  assert (Hspace : Str.includes (str " ") p = false).
  { apply includes_false_iff. intros Ho.
    apply (only_path_chars_not_In 32%N p Hchars); [reflexivity | ].
    apply includes_char. apply includes_iff. exact Ho. }
  assert (Htag : Str.startsWith (str "filepath:") p = false).
  { destruct (Str.startsWith (str "filepath:") p) eqn:E; [ | reflexivity].
    exfalso. apply startsWith_iff in E. destruct E as [u Hu].
    apply (only_path_chars_not_In COLON p Hchars); [reflexivity | ].
    rewrite Hu. apply in_or_app. left.
    right; right; right; right; right; right; right; right; left.
    reflexivity. }
  unfold explicitBlock. rewrite H1, H2. cbn [trim_of bind].
  rewrite Htrim, Htruthy, Hspace, Htag. cbn [negb orb andb].
  rewrite (replace_first_language p (dot_or_slash p Hdot)).
  rewrite Htrim, Htruthy. cbn [negb orb].
  apply orb_true_iff in Hdot.
  assert (Hskip : negb (Str.includes (str ".") p)
                  && negb (Str.includes (str "/") p) = false).
  { destruct Hdot as [-> | ->]; cbn [negb andb];
      [reflexivity | apply andb_false_r]. }
  rewrite Hskip, Hvalid. reflexivity.
Qed.

(** *** The first loop on a response in the format *)

Lemma well_formed_parts b :
  well_formed b = true ->
  isValidFilePath (blk_path b) = true /\
  (Str.includes (str ".") (blk_path b)
   || Str.includes (str "/") (blk_path b) = true) /\
  closes_first (blk_body b) /\
  plain (blk_after b) = true /\
  match blk_after b with [] => True | c :: _ => is_word c = false end.
Proof.
  unfold well_formed. rewrite !andb_true_iff.
  intros ((((H1 & H2) & H3) & H4) & H5).
  repeat split; try assumption.
  - apply negb_true_iff in H3. apply includes_false_iff in H3. exact H3.
  - destruct (blk_after b); [exact I | ].
    apply negb_true_iff in H5. exact H5.
Qed.

Lemma firstLoop_render : forall blocks fuel i intro files,
    plain intro = true ->
    forallb well_formed blocks = true ->
    List.length blocks < fuel ->
    exec_loop fuel codeBlockRegex explicitBlock i (intro ++ render blocks)
              files
    = Ok (files ++ map fileOf blocks).
Proof.
  induction blocks as [ | b bs IH]; intros fuel i intro files Hi Hb Hfuel;
    (destruct fuel as [ | fuel]; [cbn [List.length] in Hfuel; lia | ]).
  - cbn [render map exec_loop]. rewrite !app_nil_r.
    unfold codeBlockRegex. change (str "```") with fence.
    rewrite search_plain_end by assumption. reflexivity.
  - cbn [forallb] in Hb. apply andb_prop in Hb. destruct Hb as [Hwf Hb].
    destruct (well_formed_parts b Hwf) as (Hvalid & Hdot & Hclose & Hafter & _).
    destruct (valid_path_chars _ Hvalid) as [Hne Hchars].
    cbn [render exec_loop]. unfold headerOf.
    assert (Hs : search codeBlockRegex i
                   (intro ++ fence
                      ++ ((if blk_tagged b then str "filepath:" else [])
                            ++ blk_path b)
                      ++ LF :: blk_body b ++ fence
                      ++ blk_after b ++ render bs)
                 = Some (i + List.length intro,
                         MState (i + List.length intro + 3
                                 + (if blk_tagged b then 9 else 0)
                                 + List.length (blk_path b) + 1
                                 + List.length (blk_body b) + 3)
                                (blk_after b ++ render bs)
                                [(2, blk_body b); (1, blk_path b)])).
    { unfold codeBlockRegex at 1. change (str "```") with fence.
      rewrite search_past by (apply skipped_plain; assumption).
      apply search_here. apply codeBlock_at; assumption. }
    rewrite Hs.
    rewrite (explicitBlock_block _ files (blk_path b) (blk_body b));
      [ | reflexivity | reflexivity | assumption | assumption].
    cbn [bind pos rest]. rewrite IH; [ | assumption | assumption | ].
    + cbn [map]. rewrite <- app_assoc. reflexivity.
    + cbn [List.length] in Hfuel. lia.
Qed.

(** *** The second pattern finds nothing *)

Lemma first_LF_unique a : forall a' b b',
    a ++ LF :: b = a' ++ LF :: b' -> ~ In LF a -> ~ In LF a' -> a = a'.
Proof.
  induction a as [ | c a IH]; intros a' b b' H Ha Ha'.
  - destruct a' as [ | c' a']; [reflexivity | ].
    cbn [app] in H. injection H as <- _. exfalso. apply Ha'. left. reflexivity.
  - destruct a' as [ | c' a'].
    + cbn [app] in H. injection H as -> _. exfalso. apply Ha. left. reflexivity.
    + cbn [app] in H. injection H as <- H. f_equal.
      apply (IH a' b b' H).
      * intros Hin. apply Ha. right. assumption.
      * intros Hin. apply Ha'. right. assumption.
Qed.

Lemma simpleBlock_unfold x k :
  mtch simpleBlockRegex x k
  = mtch (lit fence) x
         (fun y => mtch (plus (Char is_word)) y
                        (fun y' =>
                           mtch (Char (chr LF)
                                 ~> opt (Group 2 (lit (str "//")
                                                  ~> star (Char is_space)))
                                 ~> Group 3 (plus (Char (none_of [LF]))
                                             ~> Char (chr DOT)
                                             ~> plus (Char is_lower))
                                 ~> Char (chr LF)
                                 ~> Group 4 (lazy_star (Char any))
                                 ~> lit (str "```"))%re
                                (close_group 1 y y') k)).
Proof. reflexivity. Qed.

(** After the opening fence the second pattern wants a word character. *)
Lemma simple_needs_word j s :
  match skipn 3 s with c :: _ => is_word c | [] => false end = false ->
  match_at simpleBlockRegex j s = None.
Proof.
  intros H. unfold match_at. rewrite simpleBlock_unfold, mtch_lit.
  destruct (Str.startsWith fence _); [ | reflexivity].
  apply plus_fail. cbn [rest]. change (List.length fence) with 3.
  destruct (skipn 3 s); [exact I | assumption].
Qed.

(** A header that is not a word is not taken for a language. *)
Lemma simple_not_at_header j h r :
  ~ In LF h -> (exists c, In c h /\ is_word c = false) ->
  match_at simpleBlockRegex j (fence ++ h ++ LF :: r) = None.
Proof.
  intros HLF (c & Hc & Hw).
  destruct (match_at simpleBlockRegex j (fence ++ h ++ LF :: r))
    as [y | ] eqn:E; [exfalso | reflexivity].
  apply match_at_sound in E. unfold simpleBlockRegex in E.
  cbn [den] in E.
  destruct E as (x1 & H1 & x2 & (x2' & H2 & ->) & x3 & H3 & _).
  apply den_lit in H1. apply scanned_from in H1.
  destruct H1 as (t & Ht & ->).
  apply den_plus in H2. destruct H2 as (w & _ & Hpw & Hs).
  apply scanned_from in Hs. destruct Hs as (t' & Ht' & ->).
  apply den_chr in H3. apply scanned_one in H3.
  destruct H3 as [[s Hs] _]. unfold close_group in Hs. cbn [rest] in Hs.
  change (str "```") with fence in Ht. apply app_inv_head in Ht.
  subst t t'.
  assert (Hw' : ~ In LF w).
  { intros Hin. rewrite forallb_forall in Hpw. apply Hpw in Hin.
    discriminate. }
  apply first_LF_unique in Ht'; [ | assumption | assumption].
  subst w. rewrite forallb_forall in Hpw. apply Hpw in Hc. congruence.
Qed.

Lemma fence_suffixes a1 a2 :
  fence = a1 ++ a2 -> a2 <> [] ->
  a2 = fence \/ a2 = [BACKTICK; BACKTICK] \/ a2 = [BACKTICK].
Proof.
  change fence with [BACKTICK; BACKTICK; BACKTICK].
  destruct a1 as [ | x [ | y [ | z a1]]]; cbn [app]; intros H Hne.
  - left. congruence.
  - right. left. congruence.
  - right. right. congruence.
  - exfalso. injection H as _ _ _ H. symmetry in H.
    apply app_eq_nil in H. tauto.
Qed.

Lemma skipped_fence r rst :
  (forall j, match_at r j (fence ++ rst) = None) ->
  (forall j, match_at r j ([BACKTICK; BACKTICK] ++ rst) = None) ->
  (forall j, match_at r j ([BACKTICK] ++ rst) = None) ->
  skipped r fence rst.
Proof.
  intros H3 H2 H1 a1 a2 j Heq Hne.
  destruct (fence_suffixes a1 a2 Heq Hne) as [-> | [-> | ->]]; auto.
Qed.

Lemma simple_needs_fence j s :
  Str.startsWith fence s = false -> match_at simpleBlockRegex j s = None.
Proof. exact (fence_needed _ j s). Qed.

Lemma skipped_plain_simple a b :
  plain a = true -> skipped simpleBlockRegex a b.
Proof. exact (skipped_plain _ a b). Qed.

Lemma skipped_body_simple body rst :
  closes_first body -> skipped simpleBlockRegex body (fence ++ rst).
Proof. exact (skipped_body _ body rst). Qed.

(** The second pattern starts nowhere in a block. *)
Lemma skipped_block h body rst :
  plain h = true -> ~ In LF h ->
  (exists c, In c h /\ is_word c = false) ->
  closes_first body ->
  rst = [] \/
  (exists c t, rst = c :: t /\ is_word c = false /\ c <> BACKTICK) \/
  (exists t, rst = fence ++ t) ->
  skipped simpleBlockRegex (fence ++ h ++ LF :: body ++ fence) rst.
Proof.
  intros Hplain HLF Hword Hclose Hrst.
  replace (fence ++ h ++ LF :: body ++ fence)
    with (fence ++ (h ++ [LF]) ++ body ++ fence)
    by (rewrite <- (app_assoc h); reflexivity).
  apply skipped_app; [ | apply skipped_app; [ | apply skipped_app]].
  - destruct h as [ | c0 h].
    { destruct Hword as (c & [] & _). }
    apply plain_cons in Hplain. destruct Hplain as [Hc0 Hplain].
    apply skipped_fence; intros j.
    + rewrite <- !app_assoc. cbn [app]. rewrite app_comm_cons.
      apply simple_not_at_header; assumption.
    + apply simple_needs_fence. cbn [app].
      change fence with [BACKTICK; BACKTICK; BACKTICK].
      cbn [Str.startsWith]. rewrite !N.eqb_refl.
      destruct (N.eqb_spec BACKTICK c0); [congruence | reflexivity].
    + apply simple_needs_fence. cbn [app].
      change fence with [BACKTICK; BACKTICK; BACKTICK].
      cbn [Str.startsWith]. rewrite !N.eqb_refl.
      destruct (N.eqb_spec BACKTICK c0); [congruence | reflexivity].
  - apply skipped_plain_simple. rewrite plain_app, Hplain. reflexivity.
  - apply skipped_body_simple. assumption.
  - destruct Hrst as [-> | [(c & t & -> & Hc & Hb) | (t & ->)]];
      apply skipped_fence; intros j;
      try (apply simple_needs_word; reflexivity);
      try (apply simple_needs_word; cbn [app skipn]; exact Hc);
      apply simple_needs_fence; cbn [app];
      change fence with [BACKTICK; BACKTICK; BACKTICK];
      cbn [Str.startsWith]; rewrite ?N.eqb_refl;
      (destruct (N.eqb_spec BACKTICK c); [congruence | reflexivity]).
Qed.

Lemma header_facts b :
  only_path_chars (blk_path b) ->
  In DOT (blk_path b) \/ In SLASH (blk_path b) ->
  plain (headerOf b) = true /\ ~ In LF (headerOf b) /\
  exists c, In c (headerOf b) /\ is_word c = false.
Proof.
  intros Hchars Hdot. unfold headerOf.
  assert (Hp : plain (blk_path b) = true).
  { unfold plain. unfold only_path_chars in Hchars.
    rewrite forallb_forall in *. intros c Hc. apply Hchars in Hc.
    apply path_char_cases in Hc. apply negb_true_iff, N.eqb_neq.
    unfold BACKTICK. lia. }
  assert (Hl : ~ In LF (blk_path b)).
  { apply only_path_chars_not_In; [assumption | reflexivity]. }
  assert (Hw : exists c, In c (blk_path b) /\ is_word c = false).
  { destruct Hdot as [H | H]; eexists; (split; [exact H | reflexivity]). }
  split; [ | split].
  - rewrite plain_app, Hp. destruct (blk_tagged b); reflexivity.
  - intros Hin. apply in_app_or in Hin. destruct Hin as [Hin | Hin];
      [ | contradiction].
    destruct (blk_tagged b); [ | destruct Hin].
    vm_compute in Hin. intuition discriminate.
  - destruct Hw as (c & Hc & Hw). exists c.
    split; [apply in_or_app; right; assumption | assumption].
Qed.

Lemma after_block b bs :
  plain (blk_after b) = true ->
  match blk_after b with [] => True | c :: _ => is_word c = false end ->
  blk_after b ++ render bs = [] \/
  (exists c t, blk_after b ++ render bs = c :: t
               /\ is_word c = false /\ c <> BACKTICK) \/
  (exists t, blk_after b ++ render bs = fence ++ t).
Proof.
  intros Hplain Hhead. destruct (blk_after b) as [ | c t].
  - destruct bs as [ | b' bs]; [left; reflexivity | ].
    right. right. cbn [app render]. eexists. reflexivity.
  - right. left. apply plain_cons in Hplain. destruct Hplain as [Hc _].
    exists c, (t ++ render bs). auto.
Qed.

Lemma secondLoop_render : forall blocks intro i,
    plain intro = true ->
    forallb well_formed blocks = true ->
    search simpleBlockRegex i (intro ++ render blocks) = None.
Proof.
  induction blocks as [ | b bs IH]; intros intro i Hi Hb.
  - cbn [render]. rewrite app_nil_r.
    exact (search_plain_end _ i intro Hi).
  - cbn [forallb] in Hb. apply andb_prop in Hb. destruct Hb as [Hwf Hb].
    destruct (well_formed_parts b Hwf)
      as (Hvalid & Hdot & Hclose & Hafter & Hhead).
    destruct (valid_path_chars _ Hvalid) as [Hne Hchars].
    destruct (header_facts b Hchars (dot_or_slash _ Hdot))
      as (Hplain & HLF & Hword).
    cbn [render].
    replace (fence ++ headerOf b ++ LF :: blk_body b ++ fence
               ++ blk_after b ++ render bs)
      with ((fence ++ headerOf b ++ LF :: blk_body b ++ fence)
              ++ blk_after b ++ render bs).
    + rewrite search_past by (apply skipped_plain_simple; assumption).
      rewrite search_past.
      * apply IH; assumption.
      * apply skipped_block; try assumption.
        apply after_block; assumption.
    + rewrite <- !app_assoc. cbn [app]. rewrite <- !app_assoc.
      reflexivity.
Qed.

Lemma render_length blocks : List.length blocks <= List.length (render blocks).
Proof.
  induction blocks as [ | b bs IH]; [apply Nat.le_refl | ].
  cbn [render List.length].
  repeat (rewrite ?length_app; cbn [List.length]). lia.
Qed.

(** X20.  The documented format round-trips: a response made of text
    without backticks and blocks, each a fence, a path that
    [isValidFilePath] accepts and that holds a dot or a slash, with or
    without the tag filepath: before it, a newline, a body up to the next
    fence, and text that has no backtick and does not start with a word
    character, yields exactly one file for each block, in order, with the
    path of the block, the action create and the trimmed body as
    content. *)
Theorem X20_documented_format_round_trip :
  forall intro blocks,
    plain intro = true ->
    forallb well_formed blocks = true ->
    parseFileChanges (intro ++ render blocks) = Ok (map fileOf blocks).
Proof.
  intros intro blocks Hi Hb. unfold parseFileChanges, parseFileChanges_fuel.
  rewrite (firstLoop_render blocks _ 0 intro []); try assumption.
  - cbn [bind app exec_loop]. rewrite secondLoop_render by assumption.
    reflexivity.
  - pose proof (render_length blocks). rewrite length_app. lia.
Qed.

Lemma X20_documented_format_round_trip_witness :
  plain sampleIntro = true /\
  forallb well_formed sampleBlocks = true /\
  parseFileChanges (sampleIntro ++ render sampleBlocks)
  = Ok (map fileOf sampleBlocks).
Proof.
  split; [reflexivity | split; [vm_compute; reflexivity | ]].
  apply (X20_documented_format_round_trip sampleIntro sampleBlocks).
  - reflexivity.
  - vm_compute. reflexivity.
Defined.

(** *** The explanation of a response in the format *)

Lemma closes_first_cons c s :
  c <> BACKTICK -> closes_first s -> closes_first (c :: s).
Proof.
  unfold closes_first, occurs. intros Hc Hs (a & b & H).
  destruct a as [ | d a].
  - change fence with [BACKTICK; BACKTICK; BACKTICK] in H.
    cbn [app] in H. congruence.
  - cbn [app] in H. injection H as _ H. apply Hs. exists a, b. exact H.
Qed.

Lemma closes_first_plain a s :
  plain a = true -> closes_first s -> closes_first (a ++ s).
Proof.
  induction a as [ | c a IH]; intros Ha Hs; [exact Hs | ].
  apply plain_cons in Ha. destruct Ha as [Hc Ha].
  cbn [app]. apply closes_first_cons; auto.
Qed.

Lemma replace_all_plain r a : forall fuel i s,
    plain a = true ->
    replace_all fuel (lit fence ~> r)%re i (a ++ s)
    = (t <- replace_all fuel (lit fence ~> r)%re (i + List.length a) s ;;
       Ok (a ++ t)).
Proof.
  induction a as [ | c a IH]; intros fuel i s Ha.
  - cbn [app List.length]. rewrite Nat.add_0_r.
    destruct (replace_all fuel _ i s); reflexivity.
  - apply plain_cons in Ha. destruct Ha as [Hc Ha].
    cbn [app]. rewrite replace_all_skip.
    + rewrite IH by assumption.
      replace (S i + List.length a) with (i + List.length (c :: a))
        by (cbn [List.length]; lia).
      destruct (replace_all fuel _ _ s); reflexivity.
    + apply fence_needed. apply no_fence_at_plain. assumption.
Qed.

Lemma replace_all_render : forall blocks fuel i intro,
    plain intro = true ->
    forallb well_formed blocks = true ->
    List.length blocks < fuel ->
    replace_all fuel anyBlockRegex i (intro ++ render blocks)
    = Ok (intro ++ List.concat (map blk_after blocks)).
Proof.
  induction blocks as [ | b bs IH]; intros fuel i intro Hi Hb Hfuel;
    (destruct fuel as [ | fuel]; [cbn [List.length] in Hfuel; lia | ]);
    unfold anyBlockRegex; change (str "```") with fence;
    rewrite replace_all_plain by assumption.
  - cbn [render map List.concat replace_all search].
    rewrite fence_needed by reflexivity. reflexivity.
  - cbn [forallb] in Hb. apply andb_prop in Hb. destruct Hb as [Hwf Hb].
    destruct (well_formed_parts b Hwf)
      as (Hvalid & Hdot & Hclose & Hafter & _).
    destruct (valid_path_chars _ Hvalid) as [Hne Hchars].
    destruct (header_facts b Hchars (dot_or_slash _ Hdot))
      as (Hplain & HLF & _).
    assert (Hbody : closes_first (headerOf b ++ LF :: blk_body b)).
    { apply closes_first_plain; [assumption | ].
      apply closes_first_cons; [discriminate | assumption]. }
    cbn [render map List.concat].
    replace (fence ++ headerOf b ++ LF :: blk_body b ++ fence
               ++ blk_after b ++ render bs)
      with (fencedBlock (headerOf b ++ LF :: blk_body b)
              ++ blk_after b ++ render bs)
      by (unfold fencedBlock; rewrite <- !app_assoc; cbn [app];
          rewrite <- ?app_assoc; reflexivity).
    cbn [replace_all].
    pose proof (match_at_block (i + List.length intro) _
                               (blk_after b ++ render bs) Hbody) as Hm.
    unfold anyBlockRegex in Hm. change (str "```") with fence in Hm.
    rewrite (search_here _ _ _ _ Hm). cbn [pos rest].
    assert (Hlen : 6 <= List.length (fencedBlock (headerOf b ++ LF :: blk_body b))).
    { unfold fencedBlock. rewrite !length_app.
      change (List.length fence) with 3. lia. }
    destruct (Nat.eqb_spec
                (i + List.length intro
                 + List.length (fencedBlock (headerOf b ++ LF :: blk_body b)))
                (i + List.length intro)); [lia | ].
    pose proof (IH fuel
                   (i + List.length intro
                    + List.length (fencedBlock (headerOf b ++ LF :: blk_body b)))
                   (blk_after b) Hafter Hb) as Hrec.
    unfold anyBlockRegex in Hrec. change (str "```") with fence in Hrec.
    rewrite Hrec by (cbn [List.length] in Hfuel; lia).
    cbn [bind]. rewrite Nat.sub_diag. cbn [firstn app].
    rewrite <- ?app_assoc. reflexivity.
Qed.

(** X21.  Of a response in the documented format the explanation is made
    of the text around the blocks alone: it is what the clean-up leaves
    of the text before the first block followed by the texts after each
    block, or the fallback when nothing is left. *)
Theorem X21_explanation_is_the_text_around_the_blocks :
  forall intro blocks,
    plain intro = true ->
    forallb well_formed blocks = true ->
    extractExplanation (intro ++ render blocks)
    = Ok (let text :=
            cleanUp (intro ++ List.concat (map blk_after blocks)) in
          if Str.truthy text then text else fallbackExplanation).
Proof.
  intros intro blocks Hi Hb. unfold extractExplanation.
  rewrite replace_all_render; try assumption; [reflexivity | ].
  pose proof (render_length blocks). rewrite length_app. lia.
Qed.

Lemma X21_explanation_is_the_text_around_the_blocks_witness :
  plain sampleIntro = true /\
  forallb well_formed sampleBlocks = true /\
  extractExplanation (sampleIntro ++ render sampleBlocks)
  = Ok (str "Here is the component:" ++ LF :: str "It renders nothing yet.").
Proof.
  split; [reflexivity | split; [vm_compute; reflexivity | ]].
  rewrite (X21_explanation_is_the_text_around_the_blocks
             sampleIntro sampleBlocks).
  - vm_compute. reflexivity.
  - reflexivity.
  - vm_compute. reflexivity.
Defined.

(** ** The simpler format *)

(** *** Greedy runs that give back *)

Lemma opt_unfold_groups r x k :
  mtch (opt r) x k
  = orelse (mtch r (cleared (groups_of r) x)
                 (fun y => if Nat.eqb (pos y) (pos x) then None else k y))
           (fun _ => k x).
Proof. reflexivity. Qed.

(** Nothing matches when what follows matches nowhere in the run. *)
Lemma greedy_none p v : forall n x rst k,
    rest x = v ++ rst ->
    match rst with [] => True | c :: _ => p c = false end ->
    (forall v1 v2,
        v = v1 ++ v2 ->
        k (MState (pos x + List.length v1) (v2 ++ rst) (caps x)) = None) ->
    repeat_opt (mtch (Char p)) [] true n x k = None.
Proof.
  induction v as [ | c v IH]; intros n x rst k Hr Hrst Hk.
  - assert (Hx : k x = None).
    { specialize (Hk [] [] eq_refl). cbn [app List.length] in Hk, Hr.
      destruct x as [i s cs]; cbn [pos rest caps] in *. subst.
      rewrite Nat.add_0_r in Hk. exact Hk. }
    destruct n; cbn [repeat_opt]; [exact Hx | ].
    rewrite cleared_nil.
    rewrite mtch_Char_stops by (rewrite Hr; exact Hrst).
    cbn [orelse]. exact Hx.
  - assert (Hx : k x = None).
    { specialize (Hk [] (c :: v) eq_refl). cbn [app List.length] in Hk, Hr.
      destruct x as [i s cs]; cbn [pos rest caps] in *. subst.
      rewrite Nat.add_0_r in Hk. exact Hk. }
    destruct n; cbn [repeat_opt]; [exact Hx | ].
    rewrite cleared_nil.
    rewrite (mtch_Char_cons p x c (v ++ rst)) by exact Hr.
    destruct (p c); [ | cbn [orelse]; exact Hx].
    cbv beta. cbn [pos advance].
    assert (Hne : Nat.eqb (S (pos x)) (pos x) = false)
      by (apply Nat.eqb_neq; lia).
    rewrite Hne. rewrite (IH n (advance x) rst k).
    + cbn [orelse]. exact Hx.
    + cbn [advance rest]. rewrite Hr. reflexivity.
    + exact Hrst.
    + intros v1 v2 Hv. cbn [advance pos caps].
      specialize (Hk (c :: v1) v2). cbn [List.length app] in Hk.
      replace (S (pos x) + List.length v1)
        with (pos x + S (List.length v1)) by lia.
      apply Hk. rewrite Hv. reflexivity.
Qed.

(** A greedy run gives back what it must: it stops at the longest prefix
    after which what follows matches. *)
Lemma greedy_backtrack p u : forall v n x rst k z,
    rest x = u ++ v ++ rst ->
    forallb p u = true ->
    match rst with [] => True | c :: _ => p c = false end ->
    List.length u <= n ->
    (forall v1 v2,
        v = v1 ++ v2 -> v1 <> [] ->
        k (MState (pos x + List.length u + List.length v1) (v2 ++ rst)
                  (caps x)) = None) ->
    k (MState (pos x + List.length u) (v ++ rst) (caps x)) = Some z ->
    repeat_opt (mtch (Char p)) [] true n x k = Some z.
Proof.
  induction u as [ | c u IH]; intros v n x rst k z Hr Hp Hrst Hn Hfail Hk.
  - cbn [app List.length] in *.
    assert (Hx : k x = Some z).
    { destruct x as [i s cs]; cbn [pos rest caps] in *. subst.
      rewrite Nat.add_0_r in Hk. exact Hk. }
    destruct n; cbn [repeat_opt]; [exact Hx | ].
    rewrite cleared_nil.
    destruct v as [ | d v].
    + rewrite mtch_Char_stops by (rewrite Hr; exact Hrst).
      cbn [orelse]. exact Hx.
    + rewrite (mtch_Char_cons p x d (v ++ rst)) by exact Hr.
      destruct (p d); [ | cbn [orelse]; exact Hx].
      cbv beta. cbn [pos advance].
      assert (Hne : Nat.eqb (S (pos x)) (pos x) = false)
        by (apply Nat.eqb_neq; lia).
      rewrite Hne. rewrite (greedy_none p v n (advance x) rst k).
      * cbn [orelse]. exact Hx.
      * cbn [advance rest]. rewrite Hr. reflexivity.
      * exact Hrst.
      * intros v1 v2 Hv. cbn [advance pos caps].
        specialize (Hfail (d :: v1) v2). cbn [List.length] in Hfail.
        replace (S (pos x) + List.length v1)
          with (pos x + 0 + S (List.length v1)) by lia.
        apply Hfail; [rewrite Hv; reflexivity | discriminate].
  - destruct n as [ | n]; [cbn [List.length] in Hn; lia | ].
    cbn [forallb] in Hp. apply andb_prop in Hp. destruct Hp as [Hc Hp].
    cbn [repeat_opt]. rewrite cleared_nil.
    rewrite (mtch_Char_cons p x c (u ++ v ++ rst)) by exact Hr.
    rewrite Hc. cbv beta. cbn [pos advance].
    assert (Hne : Nat.eqb (S (pos x)) (pos x) = false)
      by (apply Nat.eqb_neq; lia).
    rewrite Hne.
    rewrite (IH v n (advance x) rst k z); [reflexivity | | | | | | ].
    + cbn [advance rest]. rewrite Hr. reflexivity.
    + exact Hp.
    + exact Hrst.
    + cbn [List.length] in Hn. lia.
    + intros v1 v2 Hv Hne1. cbn [advance pos caps].
      specialize (Hfail v1 v2 Hv Hne1). cbn [List.length] in Hfail.
      replace (S (pos x) + List.length u + List.length v1)
        with (pos x + S (List.length u) + List.length v1) by lia.
      exact Hfail.
    + cbn [advance pos caps]. cbn [List.length] in Hk.
      replace (S (pos x) + List.length u)
        with (pos x + S (List.length u)) by lia.
      exact Hk.
Qed.

Lemma plus_backtrack p u v x rst k z :
  u <> [] ->
  rest x = u ++ v ++ rst ->
  forallb p u = true ->
  match rst with [] => True | c :: _ => p c = false end ->
  (forall v1 v2,
      v = v1 ++ v2 -> v1 <> [] ->
      k (MState (pos x + List.length u + List.length v1) (v2 ++ rst)
                (caps x)) = None) ->
  k (MState (pos x + List.length u) (v ++ rst) (caps x)) = Some z ->
  mtch (plus (Char p)) x k = Some z.
Proof.
  intros Hne Hr Hp Hrst Hfail Hk. destruct u as [ | c u]; [congruence | ].
  cbn [forallb] in Hp. apply andb_prop in Hp. destruct Hp as [Hc Hp].
  rewrite plus_unfold, cleared_nil.
  rewrite (mtch_Char_cons p x c (u ++ v ++ rst)) by exact Hr.
  rewrite Hc.
  apply (greedy_backtrack p u v _ (advance x) rst k z).
  - cbn [advance rest]. rewrite Hr. reflexivity.
  - exact Hp.
  - exact Hrst.
  - cbn [advance rest]. rewrite Hr. cbn [tl app]. rewrite length_app. lia.
  - intros v1 v2 Hv Hne1. cbn [advance pos caps].
    specialize (Hfail v1 v2 Hv Hne1). cbn [List.length] in Hfail.
    replace (S (pos x) + List.length u + List.length v1)
      with (pos x + S (List.length u) + List.length v1) by lia.
    exact Hfail.
  - cbn [advance pos caps]. cbn [List.length] in Hk.
    replace (S (pos x) + List.length u)
      with (pos x + S (List.length u)) by lia.
    exact Hk.
Qed.
(** *** The second pattern at a block of the simpler format *)

Lemma orelse_first a b z : a = Some z -> orelse a b = Some z.
Proof. intros ->. reflexivity. Qed.

Lemma lower_not_dot c : is_lower c = true -> chr DOT c = false.
Proof.
  unfold is_lower, between, chr, DOT.
  rewrite andb_true_iff, !N.leb_le, N.eqb_neq. lia.
Qed.

Section AtSimpleBlock.
Variables (stem ext body tail : jsstring).
Hypothesis stem_not_empty : stem <> [].
Hypothesis stem_line : forallb (none_of [LF]) stem = true.
Hypothesis ext_not_empty : ext <> [].
Hypothesis ext_lower : forallb is_lower ext = true.
Hypothesis body_closes : closes_first body.

(** From the path on. *)
Lemma simple_core x :
  rest x = (stem ++ DOT :: ext) ++ LF :: body ++ fence ++ tail ->
  mtch (plus (Char (none_of [LF]))) x
       (fun z1 =>
          mtch (Char (chr DOT)) z1
               (fun z2 =>
                  mtch (plus (Char is_lower)) z2
                       (fun y3 =>
                          mtch (Char (chr LF)) (close_group 3 x y3)
                               (fun y4 =>
                                  mtch (lazy_star (Char any)) y4
                                       (fun y5 =>
                                          mtch (lit fence)
                                               (close_group 4 y4 y5)
                                               (fun z => Some z))))))
  = Some (MState (pos x + List.length (stem ++ DOT :: ext) + 1
                  + List.length body + 3)
                 tail
                 ((4, body) :: (3, stem ++ DOT :: ext) :: caps x)).
Proof.
  intros Hr.
  apply (plus_backtrack _ stem (DOT :: ext) x (LF :: body ++ fence ++ tail)).
  - exact stem_not_empty.
  - rewrite Hr, <- app_assoc. reflexivity.
  - exact stem_line.
  - reflexivity.
  - intros v1 v2 Hv Hne. destruct v1 as [ | d v1]; [congruence | ].
    cbn [app] in Hv. injection Hv as _ Hext.
    apply mtch_Char_stops. cbn [rest].
    destruct v2 as [ | e v2]; cbn [app]; [reflexivity | ].
    apply lower_not_dot. pose proof ext_lower as He.
    rewrite Hext, forallb_app in He. apply andb_prop in He.
    destruct He as [_ He]. cbn [forallb] in He.
    apply andb_prop in He. tauto.
  - cbn [app].
    rewrite (mtch_Char_cons _ _ DOT (ext ++ LF :: body ++ fence ++ tail))
      by reflexivity.
    change (chr DOT DOT) with true. cbv iota.
    apply (plus_run _ ext _ (LF :: body ++ fence ++ tail));
      [exact ext_not_empty | reflexivity | exact ext_lower | reflexivity | ].
    unfold close_group at 1. cbn [advance pos rest caps tl].
    rewrite (mtch_Char_cons _ _ LF (body ++ fence ++ tail)) by reflexivity.
    change (chr LF LF) with true. cbv iota.
    change (mtch (lazy_star (Char any)) ?y ?k)
      with (repeat_opt (mtch (Char any)) [] false (List.length (rest y)) y k).
    apply (lazy_run body _ _ tail).
    + reflexivity.
    + apply closes_first_no_early. exact body_closes.
    + cbn [advance rest tl]. rewrite length_app. lia.
    + intros y Hy. rewrite mtch_lit. unfold close_group. cbn [rest].
      rewrite Hy. reflexivity.
    + rewrite mtch_lit. unfold close_group. cbn [advance pos rest caps tl].
      rewrite startsWith_app, skipn_app, Nat.sub_diag, skipn_all, skipn_O.
      cbn [app]. rewrite Hr. unfold set_cap.
      replace (S (pos x + List.length stem) + List.length ext - pos x)
        with (pos x + List.length (stem ++ DOT :: ext) - pos x)
        by (rewrite length_app; cbn [List.length]; lia).
      rewrite !firstn_exact.
      f_equal. f_equal. change (List.length fence) with 3.
      rewrite length_app. cbn [List.length]. lia.
Qed.

Hypothesis stem_head :
  match stem with
  | [] => True
  | c :: _ => is_space c = false /\ c <> SLASH
  end.

Lemma simpleBlock_at i lang (comment : option jsstring) :
  lang <> [] -> forallb is_word lang = true ->
  match comment with
  | Some ws => forallb is_space ws = true
  | None => True
  end ->
  exists m,
    match_at simpleBlockRegex i
             (fence ++ lang ++ LF
                :: match comment with
                   | Some ws => str "//" ++ ws
                   | None => []
                   end ++ (stem ++ DOT :: ext)
                   ++ LF :: body ++ fence ++ tail)
    = Some m /\
    group 3 m = Some (stem ++ DOT :: ext) /\
    group 4 m = Some body /\
    rest m = tail.
Proof.
  intros Hlang Hword Hws.
  assert (Hhead : exists s0 stem',
             stem = s0 :: stem' /\ is_space s0 = false /\ s0 <> SLASH).
  { pose proof stem_not_empty as H1. pose proof stem_head as H2.
    revert H1 H2. generalize stem. intros [ | s0 stem'] H1 H2;
      [congruence | ].
    exists s0, stem'. tauto. }
  destruct Hhead as (s0 & stem' & Hstem & Hs0 & Hslash).
  unfold match_at.
  set (K := fun y2 : mstate =>
              mtch (plus (Char (none_of [LF]))) y2
                   (fun z1 =>
                      mtch (Char (chr DOT)) z1
                        (fun z2 =>
                           mtch (plus (Char is_lower)) z2
                             (fun y3 =>
                                mtch (Char (chr LF)) (close_group 3 y2 y3)
                                  (fun y4 =>
                                     mtch (lazy_star (Char any)) y4
                                       (fun y5 =>
                                          mtch (lit fence)
                                               (close_group 4 y4 y5)
                                               (fun z => Some z))))))).
  assert (Hshape : forall x,
             mtch simpleBlockRegex x (fun z => Some z)
             = mtch (lit fence) x
                 (fun y =>
                    mtch (plus (Char is_word)) y
                      (fun y' =>
                         mtch (Char (chr LF)) (close_group 1 y y')
                           (fun y1 =>
                              mtch (opt (Group 2 (lit (str "//")
                                                  ~> star (Char is_space))))
                                   y1 K))))
    by reflexivity.
  assert (HK : forall x,
             rest x = (stem ++ DOT :: ext) ++ LF :: body ++ fence ++ tail ->
             K x = Some (MState (pos x + List.length (stem ++ DOT :: ext) + 1
                                 + List.length body + 3)
                                tail
                                ((4, body) :: (3, stem ++ DOT :: ext)
                                   :: caps x)))
    by (intros x Hx; apply simple_core; exact Hx).
  clearbody K.
  destruct comment as [ws | ]; eexists; split.
  - rewrite Hshape, mtch_lit. cbn [rest pos caps].
    rewrite startsWith_app, skipn_app, Nat.sub_diag, skipn_all, skipn_O.
    cbn [app]. change (List.length fence) with 3.
    apply (plus_run _ lang _
             (LF :: str "//" ++ ws ++ (stem ++ DOT :: ext)
                    ++ LF :: body ++ fence ++ tail));
      [exact Hlang | reflexivity | exact Hword | reflexivity | ].
    unfold close_group at 1. cbn [pos rest caps].
    rewrite (mtch_Char_cons _ _ LF
               (str "//" ++ ws ++ (stem ++ DOT :: ext)
                  ++ LF :: body ++ fence ++ tail)) by reflexivity.
    change (chr LF LF) with true. cbv iota.
    unfold advance. cbn [pos rest caps tl].
    rewrite opt_unfold_groups.
    change (groups_of (Group 2 (lit (str "//") ~> star (Char is_space))))
      with [2].
    unfold cleared. cbn [pos rest caps].
    change (clear_caps [2] (set_cap 1 ?v [])) with (set_cap 1 v []).
    apply orelse_first.
      change (mtch (Group 2 (lit (str "//") ~> star (Char is_space))) ?x ?k)
        with (mtch (lit (str "//")) x
                (fun y =>
                   mtch (star (Char is_space)) y
                        (fun y' => k (close_group 2 x y')))).
      rewrite mtch_lit. cbn [rest pos caps].
      rewrite <- !app_assoc, startsWith_app.
      rewrite skipn_app, Nat.sub_diag, skipn_all, skipn_O. cbn [app].
      change (List.length (str "//")) with 2.
      change (mtch (star (Char is_space)) ?y ?k)
        with (repeat_opt (mtch (Char is_space)) [] true
                         (List.length (rest y)) y k).
      apply (greedy_run _ ws _ _
               (stem ++ DOT :: ext ++ LF :: body ++ fence ++ tail)).
      * reflexivity.
      * exact Hws.
      * rewrite Hstem. cbn [app]. exact Hs0.
      * cbn [rest]. rewrite length_app. lia.
      * unfold close_group at 1. cbn [pos rest caps].
        match goal with
        | |- (if Nat.eqb ?a ?b then _ else _) = _ =>
            destruct (Nat.eqb_spec a b); [lia | ]
        end.
        rewrite HK by (cbn [rest]; rewrite <- app_assoc; reflexivity).
        reflexivity.
  - unfold group; cbn [caps pos rest]; unfold get_cap, set_cap;
      cbn [find fst snd Nat.eqb]; repeat split; reflexivity.
  - rewrite Hshape, mtch_lit. cbn [rest pos caps].
    rewrite startsWith_app, skipn_app, Nat.sub_diag, skipn_all, skipn_O.
    cbn [app]. change (List.length fence) with 3.
    apply (plus_run _ lang _
             (LF :: [] ++ (stem ++ DOT :: ext)
                    ++ LF :: body ++ fence ++ tail));
      [exact Hlang | reflexivity | exact Hword | reflexivity | ].
    unfold close_group at 1. cbn [pos rest caps].
    rewrite (mtch_Char_cons _ _ LF
               ([] ++ (stem ++ DOT :: ext)
                  ++ LF :: body ++ fence ++ tail)) by reflexivity.
    change (chr LF LF) with true. cbv iota.
    unfold advance. cbn [pos rest caps tl].
    rewrite opt_unfold_groups.
    change (groups_of (Group 2 (lit (str "//") ~> star (Char is_space))))
      with [2].
    unfold cleared. cbn [pos rest caps].
    change (clear_caps [2] (set_cap 1 ?v [])) with (set_cap 1 v []).
    assert (Hno : Str.startsWith
                      (str "//")
                      ([] ++ (stem ++ DOT :: ext)
                          ++ LF :: body ++ fence ++ tail) = false).
      { rewrite Hstem. cbn [app Str.startsWith].
        change (str "//") with [SLASH; SLASH]. cbn [Str.startsWith].
        destruct (N.eqb_spec SLASH s0); [congruence | reflexivity]. }
      change (mtch (Group 2 (lit (str "//") ~> star (Char is_space))) ?x ?k)
        with (mtch (lit (str "//")) x
                (fun y =>
                   mtch (star (Char is_space)) y
                        (fun y' => k (close_group 2 x y')))).
      rewrite mtch_lit. cbn [rest]. rewrite Hno. cbn [orelse].
      rewrite HK by reflexivity. reflexivity.
  - unfold group; cbn [caps pos rest]; unfold get_cap, set_cap;
      cbn [find fst snd Nat.eqb]; repeat split; reflexivity.
Qed.
End AtSimpleBlock.
(** *** The bodies of the two loops at such a block *)

Lemma word_is_path_char c : is_word c = true -> is_path_char c = true.
Proof. unfold is_path_char. intros ->. reflexivity. Qed.

Lemma word_only_path_chars w :
  forallb is_word w = true -> only_path_chars w.
Proof.
  unfold only_path_chars. rewrite !forallb_forall.
  intros H c Hc. apply word_is_path_char. auto.
Qed.

Lemma replace_first_anchored s :
  replace_first languageRegex s = s \/ replace_first languageRegex s = [].
Proof.
  unfold replace_first.
  destruct (search languageRegex 0 s) as [[i y] | ] eqn:E;
    [right | left; reflexivity].
  apply search_sound in E. destruct E as (pre & suf & -> & -> & H).
  unfold languageRegex in H. cbn [den pos] in H.
  destruct H as (x0 & [Hp ->] & y1 & (y0 & _ & ->) & Hr & ->).
  cbn [Nat.add] in Hp. apply length_zero_nil in Hp. subst pre.
  cbn [List.length Nat.add firstn app]. exact Hr.
Qed.

(** The first loop passes over a block whose header is a word. *)
Lemma explicitBlock_word m files lang body :
  group 1 m = Some lang -> group 2 m = Some body ->
  lang <> [] -> forallb is_word lang = true ->
  explicitBlock m files = Ok files.
Proof.
  intros H1 H2 Hne Hword.
  pose proof (word_only_path_chars lang Hword) as Hchars.
  assert (Htrim : Str.trim lang = lang) by (apply trim_path; assumption).
  assert (Htruthy : Str.truthy lang = true)
    by (destruct lang; [congruence | reflexivity]).
  assert (Hnot : forall c, is_path_char c = false \/ is_word c = false ->
                           Str.includes [c] lang = false).
  { intros c Hc. apply includes_false_iff. intros Ho.
    apply includes_iff, includes_char in Ho.
    rewrite forallb_forall in Hword. pose proof (Hword c Ho) as Hw.
    destruct Hc as [Hc | Hc]; [ | congruence].
    apply word_is_path_char in Hw. congruence. }
  assert (Htag : Str.startsWith (str "filepath:") lang = false).
  { destruct (Str.startsWith (str "filepath:") lang) eqn:E; [ | reflexivity].
    exfalso. apply startsWith_iff in E. destruct E as [u Hu].
    apply (only_path_chars_not_In COLON lang Hchars); [reflexivity | ].
    rewrite Hu. apply in_or_app. left.
    right; right; right; right; right; right; right; right; left.
    reflexivity. }
  assert (Hspace : Str.includes (str " ") lang = false)
    by (apply (Hnot 32%N); left; reflexivity).
  assert (Hdot : Str.includes (str ".") lang = false)
    by (apply (Hnot DOT); right; reflexivity).
  assert (Hslash : Str.includes (str "/") lang = false)
    by (apply (Hnot SLASH); right; reflexivity).
  unfold explicitBlock. rewrite H1, H2. cbn [trim_of bind].
  rewrite Htrim, Htruthy, Htag, Hspace. cbn [negb orb andb].
  destruct (replace_first_anchored lang) as [-> | ->].
  - rewrite Htrim, Htruthy, Hdot, Hslash. reflexivity.
  - reflexivity.
Qed.

Lemma simpleBlock_block m files p body :
  group 3 m = Some p -> group 4 m = Some body ->
  isValidFilePath p = true ->
  simpleBlock m files
  = Ok (if existsb (fun f => Str.eqb (path f) p) files then files
        else files ++ [mkFileChange p create (Some (Str.trim body))]).
Proof.
  intros H3 H4 Hvalid.
  destruct (valid_path_chars p Hvalid) as [_ Hchars].
  unfold simpleBlock. rewrite H3, H4. cbn [trim_of bind].
  rewrite (trim_path p Hchars).
  destruct (existsb _ files); [reflexivity | ].
  rewrite Hvalid. reflexivity.
Qed.

(** *** Both loops on a response in the simpler format *)

Lemma well_formed_simple_parts b :
  well_formed_simple b = true ->
  sb_lang b <> [] /\ forallb is_word (sb_lang b) = true /\
  match sb_comment b with
  | Some ws => forallb is_space ws = true
  | None => True
  end /\
  sb_stem b <> [] /\ sb_ext b <> [] /\
  forallb is_lower (sb_ext b) = true /\
  isValidFilePath (sb_path b) = true /\
  closes_first (sb_body b) /\
  plain (sb_after b) = true.
Proof.
  unfold well_formed_simple. rewrite !andb_true_iff.
  intros ((((((((H1 & H2) & H3) & H4) & H5) & H6) & H7) & H8) & H9).
  repeat split; try assumption.
  - destruct (sb_lang b); [discriminate | discriminate].
  - destruct (sb_comment b); [assumption | exact I].
  - destruct (sb_stem b); [discriminate | discriminate].
  - destruct (sb_ext b); [discriminate | discriminate].
  - apply negb_true_iff in H8. apply includes_false_iff in H8. exact H8.
Qed.

Lemma path_facts b :
  sb_stem b <> [] ->
  isValidFilePath (sb_path b) = true ->
  forallb (none_of [LF]) (sb_stem b) = true /\
  match sb_stem b with
  | [] => True
  | c :: _ => is_space c = false /\ c <> SLASH
  end /\
  plain (sb_path b) = true.
Proof.
  intros Hne Hvalid.
  pose proof (proj1 (isValidFilePath_iff _) Hvalid)
    as (_ & _ & Hslash & _ & _ & Hchars).
  unfold only_path_chars, sb_path in *.
  assert (Hall : forall c, In c (sb_stem b ++ DOT :: sb_ext b) ->
                           is_path_char c = true)
    by (apply forallb_forall; assumption).
  split; [ | split].
  - apply forallb_forall. intros c Hc.
    assert (Hp : is_path_char c = true)
      by (apply Hall, in_or_app; left; assumption).
    apply path_char_cases in Hp. unfold none_of. cbn [existsb].
    rewrite orb_false_r. apply negb_true_iff, N.eqb_neq. unfold LF. lia.
  - destruct (sb_stem b) as [ | c s]; [exact I | ].
    split.
    + apply path_char_not_space. apply Hall. left. reflexivity.
    + intros ->. apply Hslash. eexists. reflexivity.
  - unfold plain. apply forallb_forall. intros c Hc.
    apply Hall in Hc. apply path_char_cases in Hc.
    apply negb_true_iff, N.eqb_neq. unfold BACKTICK. lia.
Qed.

Lemma line_plain b :
  match sb_comment b with
  | Some ws => forallb is_space ws = true
  | None => True
  end ->
  plain (sb_path b) = true -> plain (sb_line b) = true.
Proof.
  intros Hws Hp. unfold sb_line. rewrite plain_app, Hp, andb_true_r.
  destruct (sb_comment b) as [ws | ]; [ | reflexivity].
  rewrite plain_app. change (plain (str "//")) with true. cbn [andb].
  unfold plain. rewrite forallb_forall in *. intros c Hc.
  apply Hws in Hc. apply negb_true_iff.
  destruct (N.eqb_spec c BACKTICK) as [-> | ]; [discriminate | reflexivity].
Qed.

Lemma skipped_plain_code a b :
  plain a = true -> skipped codeBlockRegex a b.
Proof. exact (skipped_plain _ a b). Qed.

Lemma firstLoop_simple : forall blocks fuel i intro files,
    plain intro = true ->
    forallb well_formed_simple blocks = true ->
    List.length blocks < fuel ->
    exec_loop fuel codeBlockRegex explicitBlock i
              (intro ++ renderSimple blocks) files
    = Ok files.
Proof.
  induction blocks as [ | b bs IH]; intros fuel i intro files Hi Hb Hfuel;
    (destruct fuel as [ | fuel]; [cbn [List.length] in Hfuel; lia | ]).
  - cbn [renderSimple exec_loop]. rewrite app_nil_r.
    unfold codeBlockRegex. change (str "```") with fence.
    rewrite search_plain_end by assumption. reflexivity.
  - cbn [forallb] in Hb. apply andb_prop in Hb. destruct Hb as [Hwf Hb].
    destruct (well_formed_simple_parts b Hwf)
      as (Hlang & Hword & Hws & Hstem & Hext & Hlower & Hvalid & Hclose
          & Hafter).
    destruct (path_facts b Hstem Hvalid) as (_ & _ & Hplain).
    assert (Hbody : closes_first (sb_line b ++ LF :: sb_body b)).
    { apply closes_first_plain; [apply line_plain; assumption | ].
      apply closes_first_cons; [discriminate | assumption]. }
    pose proof (codeBlock_at (sb_lang b) (sb_line b ++ LF :: sb_body b)
                             (sb_after b ++ renderSimple bs)
                             (word_only_path_chars _ Hword) Hlang Hbody
                             (i + List.length intro) false) as Hm.
    cbn [app] in Hm. rewrite <- (app_assoc (sb_line b)) in Hm.
    cbn [app] in Hm.
    cbn [renderSimple exec_loop].
    rewrite search_past by (apply skipped_plain_code; assumption).
    rewrite (search_here _ _ _ _ Hm).
    rewrite (explicitBlock_word _ files (sb_lang b)
                                (sb_line b ++ LF :: sb_body b));
      [ | reflexivity | reflexivity | assumption | assumption].
    cbn [bind pos rest]. apply IH; [assumption | assumption | ].
    cbn [List.length] in Hfuel. lia.
Qed.

Lemma secondLoop_simple : forall blocks fuel i intro files,
    plain intro = true ->
    forallb well_formed_simple blocks = true ->
    List.length blocks < fuel ->
    exec_loop fuel simpleBlockRegex simpleBlock i
              (intro ++ renderSimple blocks) files
    = Ok (keepFirst files (map simpleFileOf blocks)).
Proof.
  induction blocks as [ | b bs IH]; intros fuel i intro files Hi Hb Hfuel;
    (destruct fuel as [ | fuel]; [cbn [List.length] in Hfuel; lia | ]).
  - cbn [renderSimple exec_loop map keepFirst]. rewrite app_nil_r.
    assert (Hn : search simpleBlockRegex i intro = None)
      by exact (search_plain_end _ i intro Hi).
    rewrite Hn. reflexivity.
  - cbn [forallb] in Hb. apply andb_prop in Hb. destruct Hb as [Hwf Hb].
    destruct (well_formed_simple_parts b Hwf)
      as (Hlang & Hword & Hws & Hstem & Hext & Hlower & Hvalid & Hclose
          & Hafter).
    destruct (path_facts b Hstem Hvalid) as (Hline & Hhead & _).
    destruct (simpleBlock_at (sb_stem b) (sb_ext b) (sb_body b)
                             (sb_after b ++ renderSimple bs)
                             Hstem Hline Hext Hlower Hclose Hhead
                             (i + List.length intro) (sb_lang b)
                             (sb_comment b) Hlang Hword Hws)
      as (m & Hm & H3 & H4 & Hrest).
    cbn [renderSimple exec_loop map keepFirst].
    rewrite search_past by (apply skipped_plain_simple; assumption).
    unfold sb_line. rewrite <- (app_assoc _ (sb_path b)). unfold sb_path.
    rewrite (search_here _ _ _ _ Hm).
    rewrite (simpleBlock_block m files (sb_stem b ++ DOT :: sb_ext b)
                               (sb_body b) H3 H4 Hvalid).
    cbn [bind]. rewrite Hrest.
    rewrite IH; [ | assumption | assumption | ].
    + reflexivity.
    + cbn [List.length] in Hfuel. lia.
Qed.

Lemma renderSimple_length blocks :
  List.length blocks <= List.length (renderSimple blocks).
Proof.
  induction blocks as [ | b bs IH]; [apply Nat.le_refl | ].
  cbn [renderSimple List.length].
  repeat (rewrite ?length_app; cbn [List.length]). lia.
Qed.

Lemma keepFirst_distinct new : forall files,
    NoDup (map path (files ++ new)) -> keepFirst files new = files ++ new.
Proof.
  induction new as [ | f new IH]; intros files Hnd.
  - cbn [keepFirst]. symmetry. apply app_nil_r.
  - cbn [keepFirst].
    assert (Hfresh : existsb (fun g => Str.eqb (path g) (path f)) files
                     = false).
    { destruct (existsb _ files) eqn:E; [ | reflexivity]. exfalso.
      apply existsb_exists in E. destruct E as (g & Hg & Heq).
      apply eqb_iff in Heq. rewrite map_app in Hnd. cbn [map] in Hnd.
      apply NoDup_remove_2 in Hnd. apply Hnd. apply in_or_app. left.
      rewrite <- Heq. apply in_map. assumption. }
    rewrite Hfresh. rewrite IH.
    + rewrite <- app_assoc. reflexivity.
    + rewrite <- app_assoc. exact Hnd.
Qed.

(** X22.  The simpler format: of a response made of text without
    backticks and blocks that each hold a language specifier and, on the
    first line, a path with an extension of small letters, alone or
    after two slashes and white space, the first loop takes nothing and
    the second takes every block whose path it has not taken before,
    with the lines after the first as content; so when the paths differ
    there is one file for each block, in order. *)
Theorem X22_simpler_format_round_trip :
  forall intro blocks,
    plain intro = true ->
    forallb well_formed_simple blocks = true ->
    firstLoop (intro ++ renderSimple blocks) = Ok [] /\
    parseFileChanges (intro ++ renderSimple blocks)
    = Ok (keepFirst [] (map simpleFileOf blocks)) /\
    (NoDup (map sb_path blocks) ->
     parseFileChanges (intro ++ renderSimple blocks)
     = Ok (map simpleFileOf blocks)).
Proof.
  intros intro blocks Hi Hb.
  assert (Hfuel : List.length blocks
                  < S (List.length (intro ++ renderSimple blocks))).
  { pose proof (renderSimple_length blocks). rewrite length_app. lia. }
  assert (H1 : firstLoop (intro ++ renderSimple blocks) = Ok [])
    by (apply firstLoop_simple; assumption).
  assert (H2 : parseFileChanges (intro ++ renderSimple blocks)
               = Ok (keepFirst [] (map simpleFileOf blocks))).
  { unfold parseFileChanges, parseFileChanges_fuel.
    unfold firstLoop in H1. rewrite H1. cbn [bind].
    apply secondLoop_simple; assumption. }
  split; [exact H1 | split; [exact H2 | ]].
  intros Hnd. rewrite H2. f_equal. apply keepFirst_distinct.
  cbn [app]. rewrite map_map. exact Hnd.
Qed.

Lemma X22_simpler_format_round_trip_witness :
  plain sampleIntro = true /\
  forallb well_formed_simple sampleSimpleBlocks = true /\
  parseFileChanges (sampleIntro ++ renderSimple sampleSimpleBlocks)
  = Ok [mkFileChange (str "src/cart.ts") create
                     (Some (str "export const cart = [];"));
        mkFileChange (str "app.css") create
                     (Some (str "body { margin: 0 }"))] /\
  NoDup (map sb_path (firstn 2 sampleSimpleBlocks)) /\
  parseFileChanges (sampleIntro ++ renderSimple (firstn 2 sampleSimpleBlocks))
  = Ok (map simpleFileOf (firstn 2 sampleSimpleBlocks)).
Proof.
  assert (Hnd : NoDup (map sb_path (firstn 2 sampleSimpleBlocks))).
  { vm_compute. repeat constructor; cbn; intuition discriminate. }
  split; [reflexivity | split; [vm_compute; reflexivity | split]].
  - rewrite (proj1 (proj2 (X22_simpler_format_round_trip
                             sampleIntro sampleSimpleBlocks
                             eq_refl ltac:(vm_compute; reflexivity)))).
    vm_compute. reflexivity.
  - split; [exact Hnd | ].
    apply (X22_simpler_format_round_trip
             sampleIntro (firstn 2 sampleSimpleBlocks)).
    + reflexivity.
    + vm_compute. reflexivity.
    + exact Hnd.
Defined.

(** ** A fence that never closes *)

Lemma moved_rest w x y : moved w x y -> rest x = w ++ rest y.
Proof. intros [H _]. exact H. Qed.

(** Both block patterns match from a fence to a later fence. *)
Lemma codeBlock_fenced x y :
  den codeBlockRegex x y ->
  exists body tail, rest x = fence ++ body ++ fence ++ tail.
Proof.
  unfold codeBlockRegex. change (str "```") with fence.
  intros (x1 & H1 & x2 & H2 & x3 & H3 & x4 & H4 & x5 & H5 & H6).
  apply den_lit in H1, H6. destruct H1 as [H1 _]. destruct H6 as [H6 _].
  apply den_moves in H2, H3, H4, H5.
  destruct H2 as (w2 & H2). destruct H3 as (w3 & H3).
  destruct H4 as (w4 & H4). destruct H5 as (w5 & H5).
  apply moved_rest in H1, H2, H3, H4, H5, H6.
  exists (w2 ++ w3 ++ w4 ++ w5), (rest y).
  rewrite H1, H2, H3, H4, H5, H6, <- !app_assoc. reflexivity.
Qed.

Lemma simpleBlock_fenced x y :
  den simpleBlockRegex x y ->
  exists body tail, rest x = fence ++ body ++ fence ++ tail.
Proof.
  unfold simpleBlockRegex. change (str "```") with fence.
  intros (x1 & H1 & x2 & H2 & x3 & H3 & x4 & H4 & x5 & H5 & x6 & H6
          & x7 & H7 & H8).
  apply den_lit in H1, H8. destruct H1 as [H1 _]. destruct H8 as [H8 _].
  apply den_moves in H2, H3, H4, H5, H6, H7.
  destruct H2 as (w2 & H2). destruct H3 as (w3 & H3).
  destruct H4 as (w4 & H4). destruct H5 as (w5 & H5).
  destruct H6 as (w6 & H6). destruct H7 as (w7 & H7).
  apply moved_rest in H1, H2, H3, H4, H5, H6, H7, H8.
  exists (w2 ++ w3 ++ w4 ++ w5 ++ w6 ++ w7), (rest y).
  rewrite H1, H2, H3, H4, H5, H6, H7, H8, <- !app_assoc. reflexivity.
Qed.

(** Without a closing fence neither pattern finds anything. *)
Lemma search_needs_closed_fence r s i :
  (forall x y, den r x y ->
               exists body tail, rest x = fence ++ body ++ fence ++ tail) ->
  has_closed_fence s = false -> search r i s = None.
Proof.
  intros Hr Hc. destruct (search r i s) as [[j y] | ] eqn:Hs;
    [ | reflexivity].
  apply search_sound in Hs. destruct Hs as (pre & suf & -> & _ & Hd).
  apply Hr in Hd. destruct Hd as (body & tail & Hd).
  cbn [rest] in Hd. subst suf.
  rewrite closed_fence_found in Hc; [discriminate | ].
  exists body, tail. reflexivity.
Qed.

(** X23.  A response without a fence, or in which the first fence is
    not followed by another one, as when the reply was cut off inside a
    block, yields no file: both patterns need the closing fence. *)
Theorem X23_unclosed_block_yields_no_file :
  forall response,
    has_closed_fence response = false ->
    parseFileChanges response = Ok [].
Proof.
  intros response Hc. unfold parseFileChanges, parseFileChanges_fuel.
  cbn [exec_loop].
  rewrite (search_needs_closed_fence codeBlockRegex response 0
             codeBlock_fenced Hc).
  cbn [bind].
  rewrite (search_needs_closed_fence simpleBlockRegex response 0
             simpleBlock_fenced Hc).
  reflexivity.
Qed.

Lemma X23_unclosed_block_yields_no_file_witness :
  has_closed_fence unclosedResponse = false /\
  parseFileChanges unclosedResponse = Ok [].
Proof.
  split; [reflexivity | ].
  apply (X23_unclosed_block_yields_no_file unclosedResponse). reflexivity.
Defined.

(** ** The explanation, line by line *)

(** *** Removing the blocks *)

Lemma replace_all_skipped r a : forall fuel i s,
    skipped r a s ->
    replace_all fuel r i (a ++ s)
    = (t <- replace_all fuel r (i + List.length a) s ;; Ok (a ++ t)).
Proof.
  induction a as [ | c a IH]; intros fuel i s Ha.
  - cbn [app List.length]. rewrite Nat.add_0_r.
    destruct (replace_all fuel r i s); reflexivity.
  - cbn [app]. rewrite replace_all_skip.
    + rewrite IH.
      * replace (S i + List.length a) with (i + List.length (c :: a))
          by (cbn [List.length]; lia).
        destruct (replace_all fuel r _ s); reflexivity.
      * intros a1 a2 j Heq Hne. apply (Ha (c :: a1) a2 j); [ | assumption].
        rewrite Heq. reflexivity.
    + apply (Ha [] (c :: a) i); [reflexivity | discriminate].
Qed.

Lemma startsWith_more p : forall x y,
    Str.startsWith p x = true -> Str.startsWith p (x ++ y) = true.
Proof.
  intros x y H. apply startsWith_iff in H. destruct H as [t ->].
  rewrite <- app_assoc. apply startsWith_app.
Qed.

Lemma closes_first_nil : closes_first [].
Proof. apply includes_false_iff. reflexivity. Qed.

Lemma closes_first_step c pre t :
  Str.startsWith fence (c :: pre ++ fence ++ t) = false ->
  closes_first pre -> closes_first (c :: pre).
Proof.
  intros Hs Hp (a & b & H). destruct a as [ | d a].
  - assert (E : Str.startsWith fence ((c :: pre) ++ str "``") = true)
      by (apply startsWith_iff; exists b; exact H).
    apply (startsWith_more _ _ (BACKTICK :: t)) in E.
    rewrite <- app_assoc in E. cbn [app] in E, Hs.
    change (str "``" ++ BACKTICK :: t) with (fence ++ t) in E.
    congruence.
  - cbn [app] in H. injection H as _ H. apply Hp. exists a, b. exact H.
Qed.

(** Up to the first fence. *)
Lemma first_fence t :
  Str.includes fence t = true ->
  exists body rst, t = body ++ fence ++ rst /\ closes_first body.
Proof.
  induction t as [ | c t IH]; cbn [Str.includes]; intros H.
  - discriminate.
  - destruct (Str.startsWith fence (c :: t)) eqn:E.
    + apply startsWith_iff in E. destruct E as [rst E].
      exists [], rst. split; [exact E | exact closes_first_nil].
    + cbn [orb] in H. destruct (IH H) as (body & rst & -> & Hb).
      exists (c :: body), rst. split; [reflexivity | ].
      eapply closes_first_step; eauto.
Qed.

Lemma closed_fence_block s :
  has_closed_fence s = true ->
  exists pre body rst,
    s = pre ++ fencedBlock body ++ rst /\
    closes_first pre /\ closes_first body.
Proof.
  unfold has_closed_fence.
  destruct (after_first_fence s) as [t | ] eqn:E; [ | discriminate].
  intros Ht.
  assert (Hs : Str.includes fence s = true).
  { clear Ht. revert t E. induction s as [ | c s IH]; intros t E.
    - discriminate.
    - rewrite after_first_fence_eq in E. cbn [Str.includes].
      destruct (Str.startsWith fence (c :: s)); [reflexivity | ].
      cbn [orb]. eapply IH. exact E. }
  destruct (first_fence s Hs) as (pre & u & -> & Hpre).
  assert (Hu : after_first_fence (pre ++ fence ++ u) = Some u).
  { clear E Ht Hs. induction pre as [ | c pre IH].
    - rewrite after_first_fence_eq. cbn [app]. rewrite startsWith_app.
      reflexivity.
    - rewrite after_first_fence_eq.
      pose proof (closes_first_no_early _ u Hpre) as [Hno _].
      rewrite Hno. cbn [app]. apply IH.
      eapply closes_first_tail. exact Hpre. }
  rewrite Hu in E. injection E as <-.
  destruct (first_fence u Ht) as (body & rst & -> & Hbody).
  exists pre, body, rst. split; [ | split; assumption].
  unfold fencedBlock. rewrite <- !app_assoc. reflexivity.
Qed.

(** The global replace removes the blocks. *)
Lemma replace_all_without_blocks : forall fuel s i,
    List.length s < fuel ->
    exists t,
      replace_all fuel anyBlockRegex i s = Ok t /\ without_blocks s t.
Proof.
  induction fuel as [ | fuel IH]; intros s i Hfuel; [lia | ].
  destruct (has_closed_fence s) eqn:Hc.
  - destruct (closed_fence_block s Hc) as (pre & body & rst & -> & Hp & Hb).
    assert (Hlen : List.length rst < fuel).
    { rewrite !length_app in Hfuel. unfold fencedBlock in Hfuel.
      rewrite !length_app in Hfuel. change (List.length fence) with 3 in Hfuel.
      lia. }
    destruct (IH rst (i + List.length pre
                      + List.length (fencedBlock body)) Hlen)
      as (t & Ht & Hw).
    exists (pre ++ t). split; [ | constructor; assumption].
    unfold anyBlockRegex. change (str "```") with fence.
    rewrite replace_all_skipped.
    + pose proof (match_at_block (i + List.length pre) body rst Hb) as Hm.
      unfold anyBlockRegex in Hm. change (str "```") with fence in Hm.
      cbn [replace_all]. rewrite (search_here _ _ _ _ Hm). cbn [pos rest].
      assert (H6 : 6 <= List.length (fencedBlock body)).
      { unfold fencedBlock. rewrite !length_app.
        change (List.length fence) with 3. lia. }
      destruct (Nat.eqb_spec
                  (i + List.length pre + List.length (fencedBlock body))
                  (i + List.length pre)); [lia | ].
      assert (Ht' : replace_all fuel (lit fence ~> lazy_star (Char any)
                                      ~> lit fence)%re
                                (i + List.length pre
                                 + List.length (fencedBlock body)) rst
                    = Ok t) by exact Ht.
      rewrite Ht'. cbn [bind]. rewrite Nat.sub_diag. reflexivity.
    + unfold fencedBlock. rewrite <- app_assoc.
      apply skipped_body. assumption.
  - exists s. split; [ | constructor; assumption].
    cbn [replace_all]. rewrite (search_unclosed s i Hc). reflexivity.
Qed.

(** *** Lines *)

Lemma not_blank_has_text l : forallb is_space l = false -> has_text l.
Proof.
  induction l as [ | c l IH]; cbn [forallb]; [discriminate | ].
  destruct (is_space c) eqn:Hc.
  - cbn [andb]. intros H. destruct (IH H) as (d & Hd & Hs).
    exists d. split; [right; assumption | assumption].
  - intros _. exists c. split; [left; reflexivity | assumption].
Qed.

Lemma has_text_not_blank l : has_text l -> forallb is_space l = false.
Proof.
  intros (c & Hc & Hs). destruct (forallb is_space l) eqn:E; [ | reflexivity].
  rewrite forallb_forall in E. apply E in Hc. congruence.
Qed.

Lemma truthy_trim l :
  Str.truthy (Str.trim l) = negb (forallb is_space l).
Proof.
  destruct (forallb is_space l) eqn:E.
  - rewrite (trim_blank l E). reflexivity.
  - apply not_blank_has_text in E. destruct E as (c & Hc & Hs).
    pose proof (trim_keeps c l Hs Hc) as Hin.
    destruct (Str.trim l); [destruct Hin | reflexivity].
Qed.

Lemma cleanUp_kept text :
  cleanUp text = Str.trim (Str.join_lines (kept_lines text)).
Proof.
  unfold cleanUp, kept_lines. do 2 f_equal.
  apply filter_ext. intros l. apply truthy_trim.
Qed.

Lemma kept_lines_have_text text : Forall has_text (kept_lines text).
Proof.
  unfold kept_lines. apply Forall_forall. intros l Hl.
  apply filter_In in Hl. destruct Hl as [_ Hl].
  apply negb_true_iff in Hl. apply not_blank_has_text. exact Hl.
Qed.

Lemma split_lines_no_LF s : Forall (fun l => ~ In LF l) (Str.split_lines s).
Proof.
  induction s as [ | c s IH]; cbn [Str.split_lines].
  - constructor; [intros [] | constructor].
  - destruct (N.eqb_spec c LF) as [-> | Hc].
    + constructor; [intros [] | exact IH].
    + destruct (Str.split_lines s) as [ | l ls].
      * constructor; [ | constructor]. intros [H | []]. congruence.
      * inversion IH as [ | l' ls' Hl Hls]; subst.
        constructor; [ | exact Hls]. intros [H | H]; [congruence | auto].
Qed.

Lemma kept_lines_no_LF text : Forall (fun l => ~ In LF l) (kept_lines text).
Proof.
  unfold kept_lines. apply Forall_forall. intros l Hl.
  apply filter_In in Hl. destruct Hl as [Hl _].
  pose proof (split_lines_no_LF text) as H.
  rewrite Forall_forall in H. auto.
Qed.

Lemma split_lines_line l : ~ In LF l -> Str.split_lines l = [l].
Proof.
  induction l as [ | c l IH]; intros H; cbn [Str.split_lines];
    [reflexivity | ].
  destruct (N.eqb_spec c LF) as [-> | Hc].
  - exfalso. apply H. left. reflexivity.
  - rewrite IH; [reflexivity | ]. intros Hin. apply H. right. assumption.
Qed.

Lemma split_lines_first l s :
  ~ In LF l -> Str.split_lines (l ++ LF :: s) = l :: Str.split_lines s.
Proof.
  induction l as [ | c l IH]; intros H; cbn [app Str.split_lines].
  - rewrite N.eqb_refl. reflexivity.
  - destruct (N.eqb_spec c LF) as [-> | Hc].
    + exfalso. apply H. left. reflexivity.
    + rewrite IH; [reflexivity | ]. intros Hin. apply H. right. assumption.
Qed.

(** *** Trimming at one end *)

Lemma trimStart_sub c s : In c (Str.trimStart s) -> In c s.
Proof.
  induction s as [ | d s IH]; cbn [Str.trimStart]; [auto | ].
  destruct (is_space d); [intros H; right; auto | auto].
Qed.

Lemma trimEnd_sub c s : In c (Str.trimEnd s) -> In c s.
Proof.
  unfold Str.trimEnd. intros H. apply in_rev in H.
  apply trimStart_sub in H. apply in_rev. exact H.
Qed.

Lemma has_text_rev l : has_text l -> has_text (rev l).
Proof.
  intros (c & Hc & Hs). exists c. split; [ | assumption].
  apply in_rev. rewrite rev_involutive. exact Hc.
Qed.

Lemma trimStart_has_text l : has_text l -> has_text (Str.trimStart l).
Proof.
  intros (c & Hc & Hs). exists c. split; [ | assumption].
  apply trimStart_keeps; assumption.
Qed.

Lemma trimStart_app l r :
  has_text l -> Str.trimStart (l ++ r) = Str.trimStart l ++ r.
Proof.
  intros H. apply has_text_not_blank in H.
  induction l as [ | c l IH]; [discriminate | ].
  cbn [forallb] in H. cbn [app Str.trimStart].
  destruct (is_space c); [apply IH; exact H | reflexivity].
Qed.

Lemma trimEnd_app r l :
  has_text l -> Str.trimEnd (r ++ l) = r ++ Str.trimEnd l.
Proof.
  intros H. unfold Str.trimEnd. rewrite rev_app_distr.
  rewrite trimStart_app by (apply has_text_rev; assumption).
  rewrite rev_app_distr, rev_involutive. reflexivity.
Qed.

Lemma trimStart_blank_app a s :
  blank a -> Str.trimStart (a ++ s) = Str.trimStart s.
Proof.
  unfold blank. induction a as [ | c a IH]; [reflexivity | ].
  cbn [forallb app Str.trimStart]. intros H. apply andb_prop in H.
  destruct H as [-> H]. auto.
Qed.

Lemma trimStart_split l : exists a, blank a /\ l = a ++ Str.trimStart l.
Proof.
  unfold blank. induction l as [ | c l IH].
  - exists []. split; reflexivity.
  - cbn [Str.trimStart]. destruct (is_space c) eqn:Hc.
    + destruct IH as (a & Ha & Hl). exists (c :: a). split.
      * cbn [forallb]. rewrite Hc, Ha. reflexivity.
      * cbn [app]. rewrite <- Hl. reflexivity.
    + exists []. split; reflexivity.
Qed.

Lemma trimStart_trim l : Str.trimStart (Str.trim l) = Str.trim l.
Proof.
  apply trimStart_fixed. pose proof (trim_clean_edges l) as H.
  unfold clean_edges in H. destruct (Str.trim l); [exact I | tauto].
Qed.

Lemma trimEnd_idem l : Str.trimEnd (Str.trimEnd l) = Str.trimEnd l.
Proof.
  unfold Str.trimEnd. rewrite rev_involutive, trimStart_idem. reflexivity.
Qed.

(** Trimming one end first makes no difference. *)
Lemma trim_trimStart l : Str.trim (Str.trimStart l) = Str.trim l.
Proof. unfold Str.trim. rewrite trimStart_idem. reflexivity. Qed.

Lemma trim_trimEnd l : has_text l -> Str.trim (Str.trimEnd l) = Str.trim l.
Proof.
  intros H.
  assert (E : Str.trimStart (Str.trimEnd l) = Str.trim l).
  { destruct (trimStart_split l) as (a & Ha & Hl).
    rewrite Hl at 1.
    rewrite trimEnd_app by (apply trimStart_has_text; assumption).
    rewrite trimStart_blank_app by assumption.
    apply trimStart_trim. }
  unfold Str.trim at 1. rewrite E. unfold Str.trim.
  apply trimEnd_idem.
Qed.

(** *** The lines of the trimmed text *)

Lemma join_lines_cons l l' ls :
  Str.join_lines (l :: l' :: ls) = l ++ LF :: Str.join_lines (l' :: ls).
Proof. reflexivity. Qed.

Lemma join_lines_has_text l ls : has_text l -> has_text (Str.join_lines (l :: ls)).
Proof.
  intros (c & Hc & Hs). exists c. split; [ | assumption].
  apply join_lines_has with (l := l); [left; reflexivity | assumption].
Qed.

Lemma lines_of_trimEnd ls :
  ls <> [] -> Forall has_text ls -> Forall (fun l => ~ In LF l) ls ->
  map Str.trim (Str.split_lines (Str.trimEnd (Str.join_lines ls)))
  = map Str.trim ls.
Proof.
  induction ls as [ | l ls IH]; intros Hne Ht Hl; [congruence | ].
  inversion Ht as [ | l0 ls0 Htl Hts]; subst.
  inversion Hl as [ | l0 ls0 Hll Hls]; subst.
  destruct ls as [ | l' ls].
  - cbn [Str.join_lines map].
    rewrite split_lines_line
      by (intros H; apply Hll; apply trimEnd_sub; exact H).
    cbn [map]. rewrite trim_trimEnd by assumption. reflexivity.
  - rewrite join_lines_cons.
    change (l ++ LF :: Str.join_lines (l' :: ls))
      with (l ++ [LF] ++ Str.join_lines (l' :: ls)).
    rewrite app_assoc, trimEnd_app.
    + rewrite <- app_assoc. cbn [app].
      rewrite split_lines_first by assumption.
      cbn [map]. f_equal. apply IH; [discriminate | assumption | assumption].
    + inversion Hts; subst. apply join_lines_has_text. assumption.
Qed.

Lemma lines_of_trim ls :
  ls <> [] -> Forall has_text ls -> Forall (fun l => ~ In LF l) ls ->
  map Str.trim (Str.split_lines (Str.trim (Str.join_lines ls)))
  = map Str.trim ls.
Proof.
  intros Hne Ht Hl. destruct ls as [ | l ls]; [congruence | ].
  inversion Ht as [ | l0 ls0 Htl Hts]; subst.
  inversion Hl as [ | l0 ls0 Hll Hls]; subst.
  assert (E : Str.trimStart (Str.join_lines (l :: ls))
              = Str.join_lines (Str.trimStart l :: ls)).
  { destruct ls as [ | l' ls]; [reflexivity | ].
    rewrite !join_lines_cons. apply trimStart_app. assumption. }
  change (Str.trim (Str.join_lines (l :: ls)))
    with (Str.trimEnd (Str.trimStart (Str.join_lines (l :: ls)))).
  rewrite E.
  rewrite lines_of_trimEnd.
  - cbn [map]. rewrite trim_trimStart. reflexivity.
  - discriminate.
  - constructor; [apply trimStart_has_text; assumption | assumption].
  - constructor; [ | assumption].
    intros H. apply Hll. apply trimStart_sub. exact H.
Qed.

Lemma kept_text_stays text :
  kept_lines text <> [] -> Str.trim (Str.join_lines (kept_lines text)) <> [].
Proof.
  intros Hne. pose proof (kept_lines_have_text text) as Ht.
  destruct (kept_lines text) as [ | l ls]; [congruence | ].
  inversion Ht as [ | l0 ls0 (c & Hc & Hs) _]; subst.
  assert (Hin : In c (Str.trim (Str.join_lines (l :: ls)))).
  { apply trim_keeps; [assumption | ].
    apply join_lines_has with (l := l); [left; reflexivity | assumption]. }
  intros E. rewrite E in Hin. destruct Hin.
Qed.

(** C6, the claim as stated fails: the joined text is trimmed as a
    whole, not line by line, so an inner line keeps the white space at
    its edges. *)
Lemma C6_inner_lines_keep_their_white_space :
  extractExplanation threeLines
  = Ok (str "one" ++ LF :: str " two " ++ LF :: str " three") /\
  statedCleanUp threeLines
  = str "one" ++ LF :: str "two" ++ LF :: str "three" /\
  extractExplanation threeLines <> Ok (statedCleanUp threeLines).
Proof.
  split; [vm_compute; reflexivity | ].
  split; [vm_compute; reflexivity | ].
  vm_compute. discriminate.
Qed.

(** C6, amended.  For every input string [extractExplanation] returns a
    string that is not empty.  It removes every fenced block, drops the
    blank lines, joins the remaining lines with newline and trims the
    joined text as a whole: line by line the result is the remaining
    lines up to white space at the edges of a line, so trimming each of
    its lines gives the text the claim describes.  When no line remains
    it returns the fixed fallback; the empty input and every input made
    only of fenced blocks and white space give the fallback. *)
Theorem C6_explanation_never_empty :
  (forall response,
    exists text explanation,
      replace_all (S (List.length response)) anyBlockRegex 0 response
      = Ok text /\
      without_blocks response text /\
      extractExplanation response = Ok explanation /\
      explanation <> [] /\
      (kept_lines text = [] ->
       explanation = str "Changes applied successfully.") /\
      (kept_lines text <> [] ->
       explanation = Str.trim (Str.join_lines (kept_lines text)) /\
       map Str.trim (Str.split_lines explanation)
       = map Str.trim (kept_lines text) /\
       Str.join_lines (map Str.trim (Str.split_lines explanation))
       = statedCleanUp text)) /\
  extractExplanation [] = Ok (str "Changes applied successfully.") /\
  (forall response,
      onlyBlocks response ->
      extractExplanation response = Ok (str "Changes applied successfully.")).
Proof.
  split; [ | split].
  - intros response.
    destruct (replace_all_without_blocks
                (S (List.length response)) response 0)
      as (text & H & Hw); [lia | ].
    exists text. eexists. split; [exact H | split; [exact Hw | ]].
    unfold extractExplanation. rewrite H. cbn [bind].
    split; [reflexivity | ]. rewrite cleanUp_kept.
    destruct (kept_lines text) as [ | l ls] eqn:Hk.
    + cbn [Str.join_lines]. change (Str.trim []) with (@nil cu).
      cbn [Str.truthy]. split; [discriminate | ].
      split; [reflexivity | congruence].
    + pose proof (kept_text_stays text) as Hne. rewrite Hk in Hne.
      specialize (Hne ltac:(discriminate)).
      destruct (Str.trim (Str.join_lines (l :: ls))) as [ | c t] eqn:Ht;
        [congruence | ].
      cbn [Str.truthy]. split; [discriminate | ].
      split; [discriminate | ]. intros _.
      assert (Hlines : map Str.trim (Str.split_lines (c :: t))
                       = map Str.trim (l :: ls)).
      { rewrite <- Ht, <- Hk. apply lines_of_trim.
        - rewrite Hk. discriminate.
        - apply kept_lines_have_text.
        - apply kept_lines_no_LF. }
      split; [reflexivity | split; [exact Hlines | ]].
      unfold statedCleanUp. rewrite Hk, Hlines. reflexivity.
  - vm_compute. reflexivity.
  - intros response Hb.
    destruct (replace_all_onlyBlocks response Hb
                (S (List.length response)) 0) as (t & H & Ht); [lia | ].
    unfold extractExplanation. rewrite H. cbn [bind].
    rewrite (cleanUp_blank _ Ht). reflexivity.
Qed.

Lemma C6_explanation_never_empty_witness :
  (onlyBlocks twoFencedBlocks /\
   extractExplanation twoFencedBlocks
   = Ok (str "Changes applied successfully.")) /\
  (kept_lines [LF; LF] = [] /\
   extractExplanation [LF; LF] = Ok (str "Changes applied successfully.")) /\
  (kept_lines threeLines <> [] /\
   exists explanation,
     extractExplanation threeLines = Ok explanation /\
     Str.join_lines (map Str.trim (Str.split_lines explanation))
     = statedCleanUp threeLines).
Proof.
  pose proof (proj1 twoFencedBlocks_onlyBlocks) as Hb.
  split; [ | split].
  - split; [exact Hb | ].
    exact (proj2 (proj2 C6_explanation_never_empty) twoFencedBlocks Hb).
  - split; [reflexivity | ].
    destruct (proj1 C6_explanation_never_empty [LF; LF])
      as (text & explanation & H & _ & He & _ & Hnone & _).
    vm_compute in H. injection H as <-.
    rewrite He. f_equal. apply Hnone. reflexivity.
  - assert (Hk : kept_lines threeLines <> []) by (vm_compute; discriminate).
    split; [exact Hk | ].
    destruct (proj1 C6_explanation_never_empty threeLines)
      as (text & explanation & H & _ & He & _ & _ & Hsome).
    assert (Ht : text = threeLines)
      by (vm_compute in H; injection H as <-; reflexivity).
    subst text. exists explanation. split; [exact He | ].
    apply (Hsome Hk).
Defined.
